(** * demapp07: Cournot oligopoly model solved by Chebyshev collocation

    A shallow embedding of [demos/demapp07.py].  The script builds a
    Chebyshev approximant [Q], hands the residual function [resid] to the
    Broyden solver, and finally locates equilibrium prices by bisection.

    The scalar arithmetic is kept behind the interface [Scalar], so that
    every definition can be read at two instances: the ideal real numbers
    and IEEE-754 binary64, the float64 of numpy.  The classes
    [BasisChebyshev] and [NLP] come from the [compecon] package; what the
    script uses of them is modelled from the specification. *)

From Stdlib Require Import ZArith List Reals Lra Lia SpecFloat.
From stdpp Require Import base option list gmap.

(** ** Scalars *)

Class Scalar (F : Type) : Type := {
  fofZ : Z -> F;
  fadd : F -> F -> F;
  fsub : F -> F -> F;
  fmul : F -> F -> F;
  fdiv : F -> F -> F;
  fpow : F -> F -> F;
  fneg : F -> F;
  fabs : F -> F;
  fsqrt : F -> F;
  fcos : F -> F;
  fpi : F;
  fltb : F -> F -> bool;
  feqb : F -> F -> bool;
  fisint : F -> bool
}.

Declare Scope F_scope.
Delimit Scope F_scope with num.
Notation "x + y" := (fadd x y) : F_scope.
Notation "x - y" := (fsub x y) : F_scope.
Notation "x * y" := (fmul x y) : F_scope.
Notation "x / y" := (fdiv x y) : F_scope.
Notation "x ** y" := (fpow x y) (at level 30, right associativity) : F_scope.
Notation "- x" := (fneg x) : F_scope.
Notation "x <? y" := (fltb x y) : F_scope.
Notation "x =? y" := (feqb x y) : F_scope.
Notation "# z" := (fofZ z%Z) (at level 1, format "# z") : F_scope.

(** ** Errors and the two monads *)

Inductive error : Type :=
  | InvalidDomain
  | InvalidDegree
  | DimensionMismatch
  | ValueError
  | AttributeError
  | ZeroDivisionError
  | IndexError
  | OverflowError
  | ComplexResult
  | ComputationFailure.

Inductive result (A : Type) : Type :=
  | Ok (x : A)
  | Err (e : error).
Arguments Ok {A} x.
Arguments Err {A} e.

#[export] Instance result_ret : MRet result := fun A x => Ok x.
#[export] Instance result_bind : MBind result := fun A B f m =>
  match m with
  | Ok x => f x
  | Err e => Err e
  end.

(** ** Values: a scalar or a one-dimensional array

    [Sc x] is a scalar, a Python float or a numpy float64.  The two differ
    in division and power only, where the Python floats of the script go
    through [py_div] and [py_pow]; in [resid] a scalar [p] is a numpy one. *)

Section Numpy.
Context {F : Type} `{Scalar F}.

Inductive nd : Type :=
  | Sc (x : F)
  | Ar (xs : list F).

Definition entries (v : nd) : list F :=
  match v with
  | Sc x => [x]
  | Ar xs => xs
  end.

Definition nd_map (f : F -> F) (v : nd) : nd :=
  match v with
  | Sc x => Sc (f x)
  | Ar xs => Ar (map f xs)
  end.

(** Broadcasting of a binary ufunc over two operands. *)
Definition broadcast (f : F -> F -> F) (u v : nd) : result nd :=
  match u, v with
  | Sc x, Sc y => Ok (Sc (f x y))
  | Sc x, Ar ys => Ok (Ar (map (f x) ys))
  | Ar xs, Sc y => Ok (Ar (map (fun x => f x y) xs))
  | Ar xs, Ar ys =>
      if decide (length xs = length ys) then Ok (Ar (zip_with f xs ys))
      else match xs, ys with
           | [x], _ => Ok (Ar (map (f x) ys))
           | _, [y] => Ok (Ar (map (fun x => f x y) xs))
           | _, _ => Err ValueError
           end
  end.

Definition np_add := broadcast fadd.
Definition np_sub := broadcast fsub.
Definition np_mul := broadcast fmul.
Definition np_pow := broadcast fpow.
Definition np_sqrt := nd_map fsqrt.

(** Division of Python floats: a zero divisor raises. *)
Definition py_div (x y : F) : result F :=
  if (y =? #0)%num then Err ZeroDivisionError else Ok (x / y)%num.

(** A scalar is finite when subtracting it from itself gives zero: an
    infinity and a NaN give NaN there. *)
Definition is_finite (x : F) : bool := ((x - x) =? #0)%num.
Definition all_finite (v : list F) : bool := forallb is_finite v.

(** Power of Python floats, in the order [float.__pow__] decides: zero to
    a negative power raises; a negative base with a finite exponent that
    is not an integer leaves the floats (Python goes on with a complex
    number, which this embedding does not follow: [ComplexResult] ends the
    run); a result that is not finite from finite operands raises
    [OverflowError].  (For the exponent minus infinity Python returns
    infinity at a zero base; the script has no such exponent.) *)
Definition py_pow (x y : F) : result F :=
  if ((x =? #0) && (y <? #0))%num then Err ZeroDivisionError
  else if ((x <? #0)%num && is_finite y && negb (fisint y)) then Err ComplexResult
  else if (is_finite x && is_finite y && negb (is_finite (x ** y)%num))
  then Err OverflowError
  else Ok (x ** y)%num.

(** [u ** y] for a Python float [y]: Python's power when [u] is a Python
    float too, numpy's when [u] is an array. *)
Definition pow_value (u : nd) (y : F) : result nd :=
  match u with
  | Sc x => r ← py_pow x y; Ok (Sc r)
  | Ar _ => np_pow u (Sc y)
  end.

(** [np.sign]: -1, 0 or 1, and the argument itself when it is not
    comparable to zero. *)
Definition sign (x : F) : F :=
  if (#0 <? x)%num then #1%num
  else if (x <? #0)%num then #(-1)%num
  else if (x =? #0)%num then #0%num
  else x.
Definition np_sign := nd_map sign.

End Numpy.

Arguments nd F : clear implicits.

(** ** The store: array objects and approximant objects *)

Definition loc := positive.

(** The attributes of a [BasisChebyshev] object that the script reads or
    writes.  [nodes] and [c] hold references to array objects. *)
Module Basis.
Record t (F : Type) : Type := mk {
  n : nat;
  a : F;
  b : F;
  nodes : loc;
  c : loc
}.
Arguments mk {F} n a b nodes c.
Arguments n {F} t.
Arguments a {F} t.
Arguments b {F} t.
Arguments nodes {F} t.
Arguments c {F} t.
End Basis.

Record Store (F : Type) : Type := mkStore {
  arrays : gmap loc (list F);
  objects : gmap loc (Basis.t F)
}.
Arguments mkStore {F} arrays objects.
Arguments arrays {F} s.
Arguments objects {F} s.

Definition M (F A : Type) : Type := Store F -> result (A * Store F).

#[export] Instance M_ret {F} : MRet (M F) := fun A x s => Ok (x, s).
#[export] Instance M_bind {F} : MBind (M F) := fun A B f m s =>
  match m s with
  | Ok (x, s') => f x s'
  | Err e => Err e
  end.

Section Heap.
Context {F : Type}.

Definition lift {A} (r : result A) : M F A := fun s =>
  match r with
  | Ok x => Ok (x, s)
  | Err e => Err e
  end.

Definition raise {A} (e : error) : M F A := fun _ => Err e.

Definition read_array (l : loc) : M F (list F) := fun s =>
  match arrays s !! l with
  | Some xs => Ok (xs, s)
  | None => Err AttributeError
  end.

Definition read_object (l : loc) : M F (Basis.t F) := fun s =>
  match objects s !! l with
  | Some o => Ok (o, s)
  | None => Err AttributeError
  end.

Definition write_object (l : loc) (o : Basis.t F) : M F unit := fun s =>
  Ok (tt, mkStore (arrays s) (<[l := o]> (objects s))).

(** A new array object gets an identity no live object has. *)
Definition alloc_array (xs : list F) : M F loc := fun s =>
  let l := fresh (dom (arrays s)) in
  Ok (l, mkStore (<[l := xs]> (arrays s)) (objects s)).

Definition alloc_object (o : Basis.t F) : M F loc := fun s =>
  let l := fresh (dom (objects s)) in
  Ok (l, mkStore (arrays s) (<[l := o]> (objects s))).

End Heap.

(** ** The Chebyshev approximant *)

Section Chebyshev.
Context {F : Type} `{Scalar F}.

(** The affine map of [[a,b]] onto [[-1,1]]. *)
Definition rescale (a b x : F) : F := ((#2 * x - a - b) / (b - a))%num.

(** The basis values are produced by a loop that carries the last two
    polynomials: [tcur] is emitted, then replaced by [2 z tcur - tprev]. *)
Fixpoint cheb_loop (k : nat) (z tprev tcur : F) : list F :=
  match k with
  | O => []
  | S k' => tcur :: cheb_loop k' z tcur (#2 * z * tcur - tprev)%num
  end.

Definition basis (n : nat) (z : F) : list F :=
  match n with
  | O => []
  | S m => #1%num :: cheb_loop m z #1%num z
  end.

Definition dot (u v : list F) : F :=
  fold_left (fun acc uv => (acc + fst uv * snd uv)%num) (zip u v) #0%num.

(** Modelled from the spec: [BasisChebyshev.__call__], the spec's Evaluate,
    at one point.  The class is imported from the [compecon] package. *)
Definition evaluate1 (n : nat) (a b : F) (cs : list F) (x : F) : F :=
  dot cs (basis n (rescale a b x)).

(** Modelled from the spec: Evaluate on a scalar or a batch of points,
    with the coefficients that the object currently refers to. *)
Definition call (Q : loc) (p : nd F) : M F (nd F) :=
  o ← read_object Q;
  cs ← read_array (Basis.c o);
  mret (nd_map (evaluate1 (Basis.n o) (Basis.a o) (Basis.b o) cs) p).

(** Modelled from the spec: the assignment [Q.c = c] is the spec's
    SetCoefficients; the object keeps the reference it is given. *)
Definition set_c (Q c : loc) : M F unit :=
  o ← read_object Q;
  cs ← read_array c;
  if decide (length cs = Basis.n o)
  then write_object Q (Basis.mk (Basis.n o) (Basis.a o) (Basis.b o) (Basis.nodes o) c)
  else raise DimensionMismatch.

(** The mathematical Chebyshev polynomials, by their three-term
    recurrence. *)
Fixpoint T (k : nat) (z : F) : F :=
  match k with
  | O => #1%num
  | S k' =>
      match k' with
      | O => z
      | S k'' => (#2 * z * T k' z - T k'' z)%num
      end
  end.

(** Modelled from the spec: the nodes [(a+b)/2 + (b-a)/2 * cos(...)].  The
    spec leaves the angles open (roots or extrema); these are the roots of
    [T_n], the angle of the [i]-th of [n] being [pi (2i+1) / (2n)]. *)
Definition angle (n i : nat) : F :=
  (fpi * #(2 * Z.of_nat i + 1) / #(2 * Z.of_nat n))%num.

Definition node (n : nat) (a b : F) (i : nat) : F :=
  ((a + b) / #2 + (b - a) / #2 * fcos (angle n i))%num.

Definition chebnodes (n : nat) (a b : F) : list F :=
  map (node n a b) (seq 0 n).

(** The coefficient array a new approximant starts with: the one the
    caller passes, or a new array of zeros. *)
Definition initial_c (n : nat) (c : option loc) : M F loc :=
  match c with
  | Some l => mret l
  | None => alloc_array (repeat #0%num n)
  end.

(** Modelled from the spec: the constructor [BasisChebyshev(n, a, b, c=...)],
    the spec's Construct.  It returns the reference to the new object. *)
Definition Construct (n : nat) (a b : F) (c : option loc) : M F loc :=
  if ((b <? a) || (b =? a))%num then raise InvalidDomain
  else if decide (n < 1) then raise InvalidDegree
  else
    nl ← alloc_array (chebnodes n a b);
    cl ← initial_c n c;
    cs ← read_array cl;
    if decide (length cs = n)
    then alloc_object (Basis.mk n a b nl cl)
    else raise DimensionMismatch.

(** ** The residual function of the script

    Lines 14 to 17.  [Q.c = c], then [q = Q(p)], then the arithmetic of the
    return statement in the order Python evaluates it; [-1 / eta] divides
    Python floats, the rest is numpy. *)

Definition resid (c Q : loc) (p : nd F) (alpha eta : F) : M F (nd F) :=
  set_c Q c;;
  q ← call Q p;
  lift (
    k ← py_div #(-1)%num eta;
    t1 ← np_pow p (Sc (eta + #1)%num);
    t2 ← np_mul (Sc k) t1;
    t3 ← np_mul q t2;
    t4 ← np_add p t3;
    t5 ← np_mul (Sc alpha) (np_sqrt q);
    t6 ← np_sub t4 t5;
    t7 ← np_pow q (Sc #2%num);
    np_sub t6 t7).

End Chebyshev.

(** ** Instances of the scalar interface *)

(** Ideal real arithmetic.  The power function on reals is left open: the
    script uses it at real exponents, and nothing proved below depends on
    its values. *)
Definition Rltb (x y : R) : bool := if Rlt_dec x y then true else false.
Definition Reqb (x y : R) : bool := if Req_dec_T x y then true else false.
Definition Risint (x : R) : bool := Reqb (IZR (Int_part x)) x.

Definition R_Scalar (pow : R -> R -> R) : Scalar R := {|
  fofZ := IZR;
  fadd := Rplus;
  fsub := Rminus;
  fmul := Rmult;
  fdiv := Rdiv;
  fpow := pow;
  fneg := Ropp;
  fabs := Rabs;
  fsqrt := sqrt;
  fcos := cos;
  fpi := PI;
  fltb := Rltb;
  feqb := Reqb;
  fisint := Risint
|}.

(** IEEE-754 binary64, the float64 of numpy.  The basic operations and the
    square root are correctly rounded; [pow] and [cos] come from the C
    library and are parameters. *)
Definition b64 : Type := spec_float.
Definition b64_prec : Z := 53.
Definition b64_emax : Z := 1024.

Definition b64_ofZ (z : Z) : b64 := binary_normalize b64_prec b64_emax z 0 false.
Definition b64_pi : b64 := S754_finite false 7074237752028440 (-51).

(** A binary64 number with an integer value. *)
Definition b64_isint (x : b64) : bool :=
  match x with
  | S754_zero _ => true
  | S754_finite _ m e =>
      if (0 <=? e)%Z then true else (Z.pos m mod 2 ^ (- e) =? 0)%Z
  | _ => false
  end.

Definition b64_Scalar (pow : b64 -> b64 -> b64) (cosf : b64 -> b64) : Scalar b64 := {|
  fofZ := b64_ofZ;
  fadd := SFadd b64_prec b64_emax;
  fsub := SFsub b64_prec b64_emax;
  fmul := SFmul b64_prec b64_emax;
  fdiv := SFdiv b64_prec b64_emax;
  fpow := pow;
  fneg := SFopp;
  fabs := SFabs;
  fsqrt := SFsqrt b64_prec b64_emax;
  fcos := cosf;
  fpi := b64_pi;
  fltb := SFltb;
  feqb := SFeqb;
  fisint := b64_isint
|}.

Definition is_nan (x : b64) : bool :=
  match x with
  | S754_nan => true
  | _ => false
  end.

(** Zero or a finite nonzero number: neither an infinity nor a NaN. *)
Definition b64_finite (x : b64) : bool :=
  match x with
  | S754_zero _ | S754_finite _ _ _ => true
  | _ => false
  end.

(** ** The Broyden solver *)

Section Solver.
Context {F : Type} `{Scalar F}.

(** The spec leaves open which norm measures the residual (Euclidean or
    max) and what counts as a numerically zero denominator. *)
Variable norm : list F -> F.
Variable numerically_zero : F -> bool.

(** Modelled from the spec: "numerically zero" as a test by a threshold.
    A denominator counts as zero unless its magnitude reaches [eps]; a NaN
    reaches nothing. *)
Definition near_zero (eps d : F) : bool :=
  negb ((eps <? fabs d) || (eps =? fabs d))%num.

Definition norm2 (v : list F) : F := fsqrt (dot v v).
(** [np.max(np.abs(v))]: a value that is not equal to itself takes over. *)
Definition norm_inf (v : list F) : F :=
  fold_left (fun acc x =>
               if ((acc <? fabs x) || negb (fabs x =? fabs x))%num
               then fabs x else acc) v #0%num.

Definition vadd (u v : list F) : list F := zip_with fadd u v.
Definition vsub (u v : list F) : list F := zip_with fsub u v.
Definition vneg (u : list F) : list F := map fneg u.

(** [B · v], with [B] a list of rows. *)
Definition matvec (B : list (list F)) (v : list F) : list F :=
  map (fun row => dot row v) B.

(** [v^T · B]. *)
Definition vecmat (v : list F) (B : list (list F)) : list F :=
  fold_left (fun acc vr => vadd acc (map (fmul (fst vr)) (snd vr)))
            (zip v B) (repeat #0%num (length v)).

Definition outer (u w : list F) : list (list F) :=
  map (fun ui => map (fmul ui) w) u.

Definition madd (A B : list (list F)) : list (list F) := zip_with vadd A B.
Definition identity (n : nat) : list (list F) :=
  map (fun i => map (fun j => if Nat.eqb i j then #1%num else #0%num) (seq 0 n))
      (seq 0 n).
Definition mdiv (A : list (list F)) (d : F) : list (list F) :=
  map (map (fun x => (x / d)%num)) A.

(** Modelled from the spec: the rank-one secant update of the inverse
    Jacobian, [B += (dx - B·df)·(dx^T·B) / (dx^T·B·df)], skipped when the
    denominator is numerically zero.  The solver class [NLP] is imported
    from the [compecon] package. *)
Definition secant_update (B : list (list F)) (dx df : list F) : list (list F) :=
  let u := vecmat dx B in
  let denom := dot u df in
  if numerically_zero denom then B
  else madd B (mdiv (outer (vsub dx (matvec B df)) u) denom).

Record iterate : Type := mkIterate {
  it_x : loc;
  it_fx : list F;
  it_B : list (list F)
}.

(** Modelled from the spec: one call of the residual callback on the
    trial vector [x]; the residual must be as long as [x]. *)
Definition eval_residual (f : loc -> M F (nd F)) (x : loc) : M F (list F) :=
  xs ← read_array x;
  r ← f x;
  if decide (length (entries r) = length xs) then mret (entries r)
  else raise DimensionMismatch.

(** Modelled from the spec: one Broyden iteration (step 3 of Solve). *)
Definition broyden_step (f : loc -> M F (nd F)) (s : iterate) : M F iterate :=
  x0 ← read_array (it_x s);
  let dx := vneg (matvec (it_B s) (it_fx s)) in
  x1 ← alloc_array (vadd x0 dx);
  fx1 ← eval_residual f x1;
  let df := vsub fx1 (it_fx s) in
  mret (mkIterate x1 fx1 (secant_update (it_B s) dx df)).

Inductive outcome : Type :=
  | Converged (x : loc)
  | NonConvergence (x : loc).

Definition solution (o : outcome) : loc :=
  match o with
  | Converged x => x
  | NonConvergence x => x
  end.

(** The trial vector and the residual of a solver state are finite. *)
Definition finite_state (st : Store F) (s : iterate) : bool :=
  match arrays st !! it_x s with
  | Some xs => all_finite xs && all_finite (it_fx s)
  | None => false
  end.

(** Modelled from the spec (section 7): a solver state that is not finite
    is a computation failure, which reaches the caller. *)
Definition check_finite (s : iterate) : M F unit := fun st =>
  if finite_state st s then Ok (tt, st) else Err ComputationFailure.

(** Modelled from the spec: steps 3 and 4 of Solve; [budget] is the number
    of iterations still allowed. *)
Fixpoint broyden_loop (f : loc -> M F (nd F)) (tol : F) (budget : nat)
    (s : iterate) : M F outcome :=
  match budget with
  | O => mret (NonConvergence (it_x s))
  | S k =>
      s' ← broyden_step f s;
      check_finite s';;
      if (norm (it_fx s') <? tol)%num then mret (Converged (it_x s'))
      else broyden_loop f tol k s'
  end.

(** Modelled from the spec: Solve, with the inverse-Jacobian seed [B]
    given by the caller. *)
Definition Solve (f : loc -> M F (nd F)) (x0 : loc) (B : list (list F))
    (tol : F) (max_iterations : nat) : M F outcome :=
  fx0 ← eval_residual f x0;
  check_finite (mkIterate x0 fx0 B);;
  broyden_loop f tol max_iterations (mkIterate x0 fx0 B).

(** The iterate after [k] iterations, whatever the residual norms and
    whether finite or not. *)
Fixpoint iterates (f : loc -> M F (nd F)) (k : nat) (s : iterate) : M F iterate :=
  match k with
  | O => mret s
  | S k' => s' ← broyden_step f s; iterates f k' s'
  end.

(** The solver state after [j] iterations from [x0] and the seed [B]. *)
Definition iterate_at (f : loc -> M F (nd F)) (x0 : loc) (B : list (list F))
    (j : nat) : M F iterate :=
  fx0 ← eval_residual f x0;
  iterates f j (mkIterate x0 fx0 B).

End Solver.

Arguments iterate F : clear implicits.

(** ** The script *)

Section Script.
Context {F : Type} `{Scalar F}.

(** The entries of [c0] after [c0 = np.zeros(n)] and [c0[0] = 1]. *)
Definition c0_values (n : nat) : list F := <[0%nat := #1%num]> (repeat #0%num n).

(** Lines 21 to 27: the approximation structure.  The assignment
    [c0[0] = 1] raises on an empty array. *)
Definition setup (n : nat) (a b : F) : M F (loc * loc) :=
  c0 ← (if decide (0 < n) then alloc_array (c0_values n) else raise IndexError);
  Q ← Construct n a b (Some c0);
  mret (c0, Q).

(** [p = Q.nodes] *)
Definition get_nodes (Q : loc) : M F (nd F) :=
  o ← read_object Q;
  p ← read_array (Basis.nodes o);
  mret (Ar p).

(** Lines 37 to 39: [cournot = NLP(resid, c0, Q, p, alpha, eta, tol=...)]
    and [Q.c = cournot.broyden()]. *)
Definition cournot (Q : loc) (p : nd F) (alpha eta : F) (x : loc) : M F (nd F) :=
  resid x Q p alpha eta.

Definition solve_cournot (norm : list F -> F) (numerically_zero : F -> bool)
    (c0 Q : loc) (alpha eta : F) (B : list (list F)) (tol : F)
    (max_iterations : nat) : M F outcome :=
  p ← get_nodes Q;
  r ← Solve norm numerically_zero (cournot Q p alpha eta) c0 B tol max_iterations;
  set_c Q (solution r);;
  mret r.

(** Lines 66 to 71: the equilibrium price for [m = 1..25] firms.  [pp]
    is a Python float in the first pass and an array from then on. *)
Definition bisect_body (Q : loc) (m : nd F) (eta : F) (st : nd F * F) : M F (nd F * F) :=
  let dp := (snd st / #2)%num in
  let pp := fst st in
  q ← call Q pp;
  pp' ← lift (
    t1 ← np_mul q m;
    t2 ← pow_value pp (- eta)%num;
    t3 ← np_sub t1 t2;
    t4 ← np_mul (np_sign t3) (Sc dp);
    np_sub pp t4);
  mret (pp', dp).

Fixpoint for_range {A : Type} (k : nat) (body : A -> M F A) (st : A) : M F A :=
  match k with
  | O => mret st
  | S k' => st' ← for_range k' body st; body st'
  end.

Definition arange (lo hi : nat) : nd F :=
  Ar (map (fun i => #(Z.of_nat i)%num) (seq lo (hi - lo))).

Definition bisection (iterations : nat) (Q : loc) (a b eta : F) : M F (nd F * F) :=
  let pp := Sc ((b + a) / #2)%num in
  let dp := ((b - a) / #2)%num in
  let m := arange 1 26 in
  for_range iterations (bisect_body Q m eta) (pp, dp).

Definition equilibrium_price (Q : loc) (a b eta : F) : M F (nd F) :=
  st ← bisection 50 Q a b eta;
  mret (fst st).

(** [Q.c] read as an attribute. *)
Definition get_c (Q : loc) : M F loc :=
  o ← read_object Q;
  mret (Basis.c o).

(** Lines 43, 44 and 52: [splot = Q(pplot)], [dplot = pplot ** -eta] and
    [rplot = resid(Q.c, Q, pplot, alpha, eta)].  The grid [pplot] comes
    from the imported [nodeunif]; it is an array. *)
Definition plot_data (Q : loc) (pplot : list F) (alpha eta : F)
    : M F (nd F * nd F * nd F) :=
  splot ← call Q (Ar pplot);
  dplot ← lift (np_pow (Ar pplot) (Sc (- eta)%num));
  c ← get_c Q;
  rplot ← resid c Q (Ar pplot) alpha eta;
  mret (splot, dplot, rplot).

(** Lines 21 to 39 in one piece: the structure, then the solve. *)
Definition solve_script (norm : list F -> F) (numerically_zero : F -> bool)
    (n : nat) (a b alpha eta : F) (B : list (list F)) (tol : F)
    (max_iterations : nat) : M F (loc * loc * outcome) :=
  cQ ← setup n a b;
  r ← solve_cournot norm numerically_zero (fst cQ) (snd cQ) alpha eta B tol
        max_iterations;
  mret (fst cQ, snd cQ, r).

End Script.

(** ** The constants of the script, in binary64 *)

Module Demo.

Definition n : nat := 21.
Definition a : b64 := Eval vm_compute in SFdiv b64_prec b64_emax (b64_ofZ 1) (b64_ofZ 2).
Definition b : b64 := Eval vm_compute in b64_ofZ 2.
Definition alpha : b64 := Eval vm_compute in b64_ofZ 1.
Definition eta : b64 := Eval vm_compute in SFdiv b64_prec b64_emax (b64_ofZ 7) (b64_ofZ 2).

(** A stand-in for the C library's [pow], defined on the exponents the
    script uses: [2], [eta + 1 = 4.5] and [-eta = -3.5]. *)
Definition pow (x y : b64) : b64 :=
  let mul := SFmul b64_prec b64_emax in
  let x2 := mul x x in
  if SFeqb y (b64_ofZ 2) then x2
  else if SFeqb y (SFadd b64_prec b64_emax eta (b64_ofZ 1))
  then mul (mul x2 x2) (SFsqrt b64_prec b64_emax x)
  else if SFeqb y (SFopp eta)
  then SFdiv b64_prec b64_emax (b64_ofZ 1)
         (mul (mul x2 x) (SFsqrt b64_prec b64_emax x))
  else S754_nan.

(** A stand-in for the C library's [cos]: the Taylor polynomial of degree
    [2 * 12], in Horner form. *)
Fixpoint cos_horner (k : nat) (x2 acc : b64) : b64 :=
  match k with
  | O => acc
  | S k' =>
      let d := b64_ofZ ((2 * Z.of_nat k - 1) * (2 * Z.of_nat k)) in
      cos_horner k' x2
        (SFsub b64_prec b64_emax (b64_ofZ 1)
           (SFmul b64_prec b64_emax (SFdiv b64_prec b64_emax x2 d) acc))
  end.

Definition cos (x : b64) : b64 :=
  cos_horner 12 (SFmul b64_prec b64_emax x x) (b64_ofZ 1).

Definition scalar : Scalar b64 := b64_Scalar pow cos.

(** The tolerance [1e-12] of the script; the same number serves as the
    threshold below which a secant denominator counts as zero. *)
Definition tol : b64 :=
  Eval vm_compute in SFdiv b64_prec b64_emax (b64_ofZ 1) (b64_ofZ 1000000000000).

Definition numerically_zero : b64 -> bool := @near_zero b64 scalar tol.

(** The array objects [c0] and [Q.nodes] and the approximant [Q] as lines
    21 to 27 leave them, and one more coefficient array [c1] whose first
    entry is [-1] instead of [1]. *)
Definition c0 : loc := 1%positive.
Definition c1 : loc := 3%positive.
Definition Q : loc := 1%positive.

Definition store (pow : b64 -> b64 -> b64) (cosf : b64 -> b64) : Store b64 :=
  mkStore
    (<[c1 := <[0%nat := b64_ofZ (-1)]> (repeat (b64_ofZ 0) n)]>
       (<[2%positive := @chebnodes b64 (b64_Scalar pow cosf) n a b]>
          (<[c0 := @c0_values b64 (b64_Scalar pow cosf) n]> ∅)))
    (<[Q := Basis.mk n a b 2%positive c0]> ∅).

(** As many prices as [Q] has coefficients, evenly spaced from [a] to [b]. *)
Definition prices : nd b64 :=
  Eval vm_compute in
    Ar (map (fun i => SFadd b64_prec b64_emax a
                        (SFdiv b64_prec b64_emax
                           (SFmul b64_prec b64_emax
                              (SFsub b64_prec b64_emax b a) (b64_ofZ (Z.of_nat i)))
                           (b64_ofZ 20)))
            (seq 0 n)).

(** The script's problem handed to the solver, with the identity as seed
    of the inverse Jacobian and the max norm. *)
Definition nodes : nd b64 := Ar (@chebnodes b64 scalar n a b).
Definition initial : Store b64 := store pow cos.

End Demo.

(** The same objects over the reals, before and after line 27. *)
Module RealDemo.

Definition scalar : Scalar R := R_Scalar Rpower.
Definition a : R := 1 / 2.
Definition b : R := 2.
Definition eta : R := 7 / 2.

Definition before : Store R :=
  mkStore (<[Demo.c0 := @c0_values R scalar Demo.n]> ∅) ∅.

Definition after : Store R :=
  mkStore (<[Demo.c0 := @c0_values R scalar Demo.n]> ∅)
          (<[Demo.Q := Basis.mk Demo.n a b 2%positive Demo.c0]> ∅).

End RealDemo.

(** ** Reference formulas and well-formedness *)

Section Reference.
Context {F : Type} `{Scalar F}.

(** The residual at one price [p], given the quantity [q] there. *)
Definition residual_formula (alpha eta q p : F) : F :=
  (p + q * (#(-1) / eta * p ** (eta + #1)) - alpha * fsqrt q - q ** #2)%num.

(** The sum of [g 0 .. g (n-1)], added in this order from zero. *)
Fixpoint sigma (n : nat) (g : nat -> F) : F :=
  match n with
  | O => #0%num
  | S m => (sigma m g + g m)%num
  end.

(** The same sum on top of a value [acc]. *)
Fixpoint sum_from (acc : F) (n : nat) (g : nat -> F) : F :=
  match n with
  | O => acc
  | S m => (sum_from acc m g + g m)%num
  end.

(** The sum of [c_k T_k(z)] for [k < n]. *)
Definition chebyshev_sum (n : nat) (cs : list F) (z : F) : F :=
  sigma n (fun k => nth k cs #0 * T k z)%num.

(** The entry in row [i] and column [j] of a matrix given by its rows,
    and the matrices with [n] rows of [n] entries. *)
Definition entry (B : list (list F)) (i j : nat) : F := nth j (nth i B []) #0%num.

Definition square (n : nat) (B : list (list F)) : Prop :=
  length B = n /\ Forall (fun row => length row = n) B.

(** One Broyden iteration entry by entry, for a [square n] matrix [B]: the
    step [dx = -B fx0], the row vector [dx^T B], the column vector
    [dx - B df] and the secant denominator [dx^T B df]. *)
Definition step_dx (n : nat) (B : list (list F)) (fx0 : list F) (i : nat) : F :=
  (- sigma n (fun j => entry B i j * nth j fx0 #0))%num.

Definition secant_row (n : nat) (B : list (list F)) (dx : nat -> F) (j : nat) : F :=
  sigma n (fun i => dx i * entry B i j)%num.

Definition secant_column (n : nat) (B : list (list F)) (dx df : nat -> F) (i : nat) : F :=
  (dx i - sigma n (fun j => entry B i j * df j))%num.

Definition secant_denominator (n : nat) (B : list (list F)) (dx df : nat -> F) : F :=
  sigma n (fun j => secant_row n B dx j * df j)%num.

(** The approximant object [Q] after [Q.c = c]. *)
Definition with_c (o : Basis.t F) (c : loc) : Basis.t F :=
  Basis.mk (Basis.n o) (Basis.a o) (Basis.b o) (Basis.nodes o) c.

Definition install (Q c : loc) (o : Basis.t F) (s : Store F) : Store F :=
  mkStore (arrays s) (<[Q := with_c o c]> (objects s)).

(** The coefficient vector that [Q] refers to in store [s]. *)
Definition coefficients (Q : loc) (s : Store F) : option (list F) :=
  o ← objects s !! Q;
  arrays s !! Basis.c o.

Definition coefficient_ref (Q : loc) (s : Store F) : option loc :=
  Basis.c <$> objects s !! Q.

Definition node_values (Q : loc) (s : Store F) : option (list F) :=
  o ← objects s !! Q;
  arrays s !! Basis.nodes o.

(** Every array object of [s] is still there, unchanged, in [s'], and the
    approximant [Q] differs at most in the reference [Q.c]. *)
Definition frame (Q : loc) (s s' : Store F) : Prop :=
  arrays s ⊆ arrays s' /\
  forall o, objects s !! Q = Some o ->
    exists c', objects s' !! Q = Some (with_c o c').

(** The residual vector of the script's problem at coefficient values
    [cs], as a function of values only. *)
Definition residual_values (o : Basis.t F) (p : nd F) (alpha eta : F)
    (cs : list F) : list F :=
  map (fun x => residual_formula alpha eta
         (evaluate1 (Basis.n o) (Basis.a o) (Basis.b o) cs x) x) (entries p).

(** The solver state fits an approximant of degree [n] evaluated at [p]. *)
Definition fits (Q : loc) (p : nd F) (n : nat) (s : Store F) (it : iterate F) : Prop :=
  (exists o, objects s !! Q = Some o /\ Basis.n o = n) /\
  (exists xs, arrays s !! it_x it = Some xs /\ length xs = n) /\
  length (it_B it) = n /\
  length (entries p) = n.

(** The store after the trial vector [x1] has been allocated and the
    residual evaluated at it. *)
Definition step_store (Q : loc) (s : Store F) (o : Basis.t F) (x1 : list F) : Store F :=
  let l1 := fresh (dom (arrays s)) in
  install Q l1 o (mkStore (<[l1 := x1]> (arrays s)) (objects s)).

(** Solve's stopping rule, read on the sequence [trace] of solver states
    ([trace j] is the state after [j] iterations): the run ends after [k]
    iterations in the store [s'] with the outcome [out].  Every state up to
    the [k]-th is finite, none of the iterations before the [k]-th met the
    tolerance, and either the [k]-th did or the budget is used up. *)
Definition stops_at (norm : list F -> F) (tol : F) (budget : nat)
    (trace : nat -> result (iterate F * Store F)) (k : nat) (out : outcome)
    (s' : Store F) : Prop :=
  exists itk : iterate F,
    k <= budget /\
    trace k = Ok (itk, s') /\
    solution out = it_x itk /\
    (forall j itj sj, j <= k -> trace j = Ok (itj, sj) ->
       finite_state sj itj = true) /\
    (forall j itj sj, 1 <= j < k -> trace j = Ok (itj, sj) ->
       (norm (it_fx itj) <? tol)%num = false) /\
    ((out = Converged (it_x itk) /\ 1 <= k /\
      (norm (it_fx itk) <? tol)%num = true) \/
     (out = NonConvergence (it_x itk) /\ k = budget /\
      (k = 0 \/ (norm (it_fx itk) <? tol)%num = false))).

(** The [k]-th state is the first that is not finite, and no iteration
    before it met the tolerance. *)
Definition fails_at (norm : list F -> F) (tol : F) (budget : nat)
    (trace : nat -> result (iterate F * Store F)) (k : nat) : Prop :=
  exists (itk : iterate F) (sk : Store F),
    k <= budget /\
    trace k = Ok (itk, sk) /\
    finite_state sk itk = false /\
    (forall j itj sj, j < k -> trace j = Ok (itj, sj) ->
       finite_state sj itj = true /\
       (1 <= j -> (norm (it_fx itj) <? tol)%num = false)).

(** A residual callback that leaves the approximant [Q] referring to the
    trial vector it was called on, as [resid] does. *)
Definition installs (Q : loc) (f : loc -> M F (nd F)) : Prop :=
  forall (x : loc) (s s1 : Store F) (r : nd F),
    f x s = Ok (r, s1) -> coefficient_ref Q s1 = Some x.

(** The firm counts [m = np.arange(1, 26)]. *)
Definition firm_counts : list F := map (fun i => #(Z.of_nat i)%num) (seq 1 25).

(** [dp] after [k] passes of the bisection loop. *)
Fixpoint halve (k : nat) (dp : F) : F :=
  match k with
  | O => dp
  | S k' => (halve k' dp / #2)%num
  end.

(** The price after [k] passes of a bisection for one firm count [m],
    started at [x0] with step [dp0]; [ev] stands for the supply [Q]. *)
Fixpoint price_after (k : nat) (ev : F -> F) (eta m x0 dp0 : F) : F :=
  match k with
  | O => x0
  | S k' =>
      let x := price_after k' ev eta m x0 dp0 in
      (x - sign (ev x * m - x ** (- eta)) * halve (S k') dp0)%num
  end.

End Reference.

(** The same arithmetic with another division. *)
Definition with_div {F : Type} (H : Scalar F) (d : F -> F -> F) : Scalar F := {|
  fofZ := @fofZ F H;
  fadd := @fadd F H;
  fsub := @fsub F H;
  fmul := @fmul F H;
  fdiv := d;
  fpow := @fpow F H;
  fneg := @fneg F H;
  fabs := @fabs F H;
  fsqrt := @fsqrt F H;
  fcos := @fcos F H;
  fpi := @fpi F H;
  fltb := @fltb F H;
  feqb := @feqb F H;
  fisint := @fisint F H
|}.

(** * Properties *)

(** ** The definitions on small inputs, in binary64 *)

Example basis_at_half :
  @basis b64 Demo.scalar 5 Demo.a
  = [b64_ofZ 1; Demo.a; SFopp Demo.a; b64_ofZ (-1); SFopp Demo.a].
Proof. vm_compute. reflexivity. Qed.

Example matvec_2x2 :
  @matvec b64 Demo.scalar [[b64_ofZ 1; b64_ofZ 2]; [b64_ofZ 3; b64_ofZ 4]]
    [b64_ofZ 1; b64_ofZ 2] = [b64_ofZ 5; b64_ofZ 11].
Proof. vm_compute. reflexivity. Qed.

Example vecmat_2x2 :
  @vecmat b64 Demo.scalar [b64_ofZ 1; b64_ofZ 2]
    [[b64_ofZ 1; b64_ofZ 2]; [b64_ofZ 3; b64_ofZ 4]] = [b64_ofZ 7; b64_ofZ 10].
Proof. vm_compute. reflexivity. Qed.

Example outer_2x2 :
  @outer b64 Demo.scalar [b64_ofZ 1; b64_ofZ 2] [b64_ofZ 3; b64_ofZ 4]
  = [[b64_ofZ 3; b64_ofZ 4]; [b64_ofZ 6; b64_ofZ 8]].
Proof. vm_compute. reflexivity. Qed.

Example broadcast_mismatch :
  @np_add b64 Demo.scalar (Ar [b64_ofZ 1; b64_ofZ 2])
    (Ar [b64_ofZ 1; b64_ofZ 2; b64_ofZ 3]) = Err ValueError.
Proof. reflexivity. Qed.

Example sign_values :
  map (@sign b64 Demo.scalar)
    [b64_ofZ 5; b64_ofZ (-7); b64_ofZ 0; S754_nan]
  = [b64_ofZ 1; b64_ofZ (-1); b64_ofZ 0; S754_nan].
Proof. vm_compute. reflexivity. Qed.

Example construct_empty_domain :
  @Construct b64 Demo.scalar 3 Demo.b Demo.b None (mkStore ∅ ∅) = Err InvalidDomain.
Proof. reflexivity. Qed.

Example construct_degree_zero :
  @Construct b64 Demo.scalar 0 Demo.a Demo.b None (mkStore ∅ ∅) = Err InvalidDegree.
Proof. reflexivity. Qed.

Example setup_degree_zero :
  @setup b64 Demo.scalar 0 Demo.a Demo.b (mkStore ∅ ∅) = Err IndexError.
Proof. reflexivity. Qed.

(** Python's power of floats, with the stand-in for the C library's
    [pow]: a negative base with the exponent [-3.5] leaves the floats, with
    the exponent [2] it does not; a result that overflows raises, and so
    does zero to a negative power. *)
Example py_pow_negative_base :
  @py_pow b64 Demo.scalar (b64_ofZ (-1)) (SFopp Demo.eta) = Err ComplexResult.
Proof. vm_compute. reflexivity. Qed.

Example py_pow_integer_exponent :
  @py_pow b64 Demo.scalar (b64_ofZ (-3)) (b64_ofZ 2) = Ok (b64_ofZ 9).
Proof. vm_compute. reflexivity. Qed.

Example py_pow_overflow :
  @py_pow b64 Demo.scalar
    (SFdiv b64_prec b64_emax (b64_ofZ 1) (b64_ofZ (10 ^ 200))) (SFopp Demo.eta)
  = Err OverflowError.
Proof. vm_compute. reflexivity. Qed.

Example py_pow_zero_base :
  @py_pow b64 Demo.scalar (b64_ofZ 0) (SFopp Demo.eta) = Err ZeroDivisionError.
Proof. vm_compute. reflexivity. Qed.

Example py_pow_real_half :
  @py_pow R (R_Scalar Rpower) (-1)%R (1 / 2)%R = Err ComplexResult.
Proof.
  unfold py_pow, is_finite. cbn [feqb fltb fsub fofZ fpow fisint R_Scalar].
  unfold Reqb, Rltb, Risint, Reqb.
  destruct (Req_dec_T (-1) 0) as [Hx|_]; [lra|].
  destruct (Rlt_dec (-1) 0) as [_|Hx]; [|lra]. cbn [andb].
  destruct (Req_dec_T (1 / 2 - 1 / 2) 0) as [_|Hx]; [|lra]. cbn [andb].
  destruct (Req_dec_T (IZR (Int_part (1 / 2))) (1 / 2)) as [Hint|_]; [|reflexivity].
  exfalso.
  assert (IZR (2 * Int_part (1 / 2)) = IZR 1) as Heq by (rewrite mult_IZR, Hint; lra).
  apply eq_IZR in Heq. lia.
Qed.

(** Lines 21 to 27 from the empty store. *)
Example setup_store :
  @setup b64 Demo.scalar Demo.n Demo.a Demo.b (mkStore ∅ ∅)
  = Ok ((Demo.c0, Demo.Q),
        mkStore
          (<[2%positive := @chebnodes b64 Demo.scalar Demo.n Demo.a Demo.b]>
             (<[Demo.c0 := @c0_values b64 Demo.scalar Demo.n]> ∅))
          (<[Demo.Q := Basis.mk Demo.n Demo.a Demo.b 2%positive Demo.c0]> ∅)).
Proof. vm_compute. reflexivity. Qed.

(** The bisection loop in binary64, with the approximant still at its
    initial coefficients: 25 prices, all strictly inside the domain. *)
Example bisection_b64 :
  match @equilibrium_price b64 Demo.scalar Demo.Q Demo.a Demo.b Demo.eta
          Demo.initial with
  | Ok (pp, _) =>
      Nat.eqb (length (entries pp)) 25
      && forallb (fun e => SFltb Demo.a e && SFltb e Demo.b) (entries pp)
  | Err _ => false
  end = true.
Proof. vm_compute. reflexivity. Qed.

(** ** Broadcasting over values of one shape *)

Section NumpyFacts.
Context {F : Type} `{Scalar F}.

Lemma zip_with_map_same (h : F -> F -> F) (f g : F -> F) (xs : list F) :
  zip_with h (map f xs) (map g xs) = map (fun x => h (f x) (g x)) xs.
Proof. induction xs as [|x xs IH]; simpl; [reflexivity | now rewrite IH]. Qed.

Lemma broadcast_same_shape (h : F -> F -> F) (f g : F -> F) (p : nd F) :
  broadcast h (nd_map f p) (nd_map g p) = Ok (nd_map (fun x => h (f x) (g x)) p).
Proof.
  destruct p as [x|xs]; simpl; [reflexivity|].
  destruct (decide _) as [_|Hne].
  - now rewrite zip_with_map_same.
  - exfalso. apply Hne. now rewrite !List.length_map.
Qed.

Lemma broadcast_scalar_l (h : F -> F -> F) (k : F) (g : F -> F) (p : nd F) :
  broadcast h (Sc k) (nd_map g p) = Ok (nd_map (fun x => h k (g x)) p).
Proof. destruct p as [x|xs]; simpl; [reflexivity | now rewrite List.map_map]. Qed.

Lemma broadcast_scalar_r (h : F -> F -> F) (k : F) (f : F -> F) (p : nd F) :
  broadcast h (nd_map f p) (Sc k) = Ok (nd_map (fun x => h (f x) k) p).
Proof. destruct p as [x|xs]; simpl; [reflexivity | now rewrite List.map_map]. Qed.

Lemma nd_map_id (p : nd F) : nd_map (fun x => x) p = p.
Proof. destruct p as [x|xs]; simpl; [reflexivity | now rewrite List.map_id]. Qed.

Lemma nd_map_map (f g : F -> F) (p : nd F) :
  nd_map g (nd_map f p) = nd_map (fun x => g (f x)) p.
Proof. destruct p as [x|xs]; simpl; [reflexivity | now rewrite List.map_map]. Qed.

Lemma entries_nd_map (f : F -> F) (p : nd F) :
  entries (nd_map f p) = map f (entries p).
Proof. now destruct p. Qed.

End NumpyFacts.

(** ** The basis loop computes the Chebyshev recurrence *)

Section ChebyshevFacts.
Context {F : Type} `{Scalar F}.

Lemma T_rec (k : nat) (z : F) :
  T (S (S k)) z = (#2 * z * T (S k) z - T k z)%num.
Proof. reflexivity. Qed.

Lemma cheb_loop_T (k j : nat) (z : F) :
  cheb_loop k z (T j z) (T (S j) z) = map (fun i => T i z) (seq (S j) k).
Proof.
  revert j. induction k as [|k IH]; intros j; [reflexivity|].
  cbn [cheb_loop seq map]. f_equal.
  rewrite <- T_rec. apply IH.
Qed.

Lemma basis_T (n : nat) (z : F) :
  basis n z = map (fun k => T k z) (seq 0 n).
Proof.
  destruct n as [|m]; [reflexivity|].
  cbn [basis seq map]. f_equal. apply (cheb_loop_T m 0 z).
Qed.

Lemma length_basis (n : nat) (z : F) : length (basis n z) = n.
Proof. now rewrite basis_T, List.length_map, List.length_seq. Qed.

Lemma length_chebnodes (n : nat) (a b : F) : length (chebnodes n a b) = n.
Proof. unfold chebnodes. now rewrite List.length_map, List.length_seq. Qed.

(** The dot product adds the products one index after the other. *)
Lemma dot_snoc (u v : list F) (x y : F) :
  length u = length v ->
  dot (u ++ [x]) (v ++ [y]) = (dot u v + x * y)%num.
Proof.
  intros Hlen. unfold dot.
  rewrite zip_with_app by exact Hlen.
  now rewrite fold_left_app.
Qed.

End ChebyshevFacts.

(** ** Sums and products entry by entry

    The list operations of Evaluate and of the solver, read one entry at a
    time: a dot product is the sum of the products in index order. *)

Section Algebra.
Context {F : Type} `{Scalar F}.

Lemma sigma_ext (n : nat) (g h : nat -> F) :
  (forall k, k < n -> g k = h k) -> sigma n g = sigma n h.
Proof.
  induction n as [|m IH]; intros Hgh; [reflexivity|].
  cbn [sigma]. rewrite IH by (intros k Hk; apply Hgh; lia).
  now rewrite Hgh by lia.
Qed.

Lemma sum_from_zero (n : nat) (g : nat -> F) : sum_from #0%num n g = sigma n g.
Proof. induction n as [|m IH]; [reflexivity|]. cbn [sum_from sigma]. now rewrite IH. Qed.

Lemma sum_from_shift (acc : F) (n : nat) (g : nat -> F) :
  sum_from acc (S n) g = sum_from (acc + g 0)%num n (fun k => g (S k)).
Proof.
  induction n as [|m IH]; [reflexivity|].
  cbn [sum_from] in *. now rewrite IH.
Qed.

Lemma nth_map_lt {A B : Type} (g : A -> B) (d : A) (d' : B) :
  forall (l : list A) (j : nat),
  j < length l -> nth j (map g l) d' = g (nth j l d).
Proof.
  induction l as [|x l IH]; intros [|j] Hj; simpl in *; try lia.
  - reflexivity.
  - apply IH; lia.
Qed.

Lemma fold_dot (u : list F) :
  forall (v : list F) (acc : F),
  length v = length u ->
  fold_left (fun a uv => (a + fst uv * snd uv)%num) (zip u v) acc
  = sum_from acc (length u) (fun k => nth k u #0 * nth k v #0)%num.
Proof.
  induction u as [|x u IH]; intros [|y v] acc Hlen; simpl in Hlen; try lia.
  - reflexivity.
  - cbn [zip_with fold_left fst snd length]. rewrite sum_from_shift.
    cbn [nth]. apply IH. lia.
Qed.

(** The dot product is the sum of the products, in index order. *)
Lemma dot_sigma (n : nat) (u v : list F) :
  length u = n -> length v = n ->
  dot u v = sigma n (fun k => nth k u #0 * nth k v #0)%num.
Proof.
  intros Hu Hv. unfold dot. rewrite fold_dot by lia.
  now rewrite Hu, sum_from_zero.
Qed.

Lemma nth_basis (n k : nat) (z : F) : k < n -> nth k (basis n z) #0%num = T k z.
Proof.
  intros Hk. rewrite basis_T.
  rewrite (nth_map_lt (fun k => T k z) 0) by now rewrite List.length_seq.
  now rewrite List.seq_nth.
Qed.

(** Evaluate at one point is the sum of the [c_k T_k(z)]. *)
Lemma evaluate1_sum (n : nat) (a b : F) (cs : list F) (x : F) :
  length cs = n ->
  evaluate1 n a b cs x = chebyshev_sum n cs (rescale a b x).
Proof.
  intros Hlen. unfold evaluate1, chebyshev_sum.
  rewrite (dot_sigma n) by (exact Hlen || apply length_basis).
  apply sigma_ext. intros k Hk. now rewrite nth_basis.
Qed.

End Algebra.

(** Over the reals the recurrence yields the Chebyshev polynomials,
    [T_k (cos t) = cos (k t)], and [rescale] is the increasing affine map
    that sends [a] to [-1] and [b] to [1]. *)

Section ChebyshevReal.
Variable pow : R -> R -> R.
Local Abbreviation RS := (R_Scalar pow).
Local Open Scope R_scope.

Lemma T_cos_pair (k : nat) (t : R) :
  @T R RS k (cos t) = cos (INR k * t) /\
  @T R RS (S k) (cos t) = cos (INR (S k) * t).
Proof.
  induction k as [|k [IH0 IH1]].
  - split; cbn [T fofZ RS R_Scalar]; simpl INR.
    + now rewrite Rmult_0_l, cos_0.
    + now rewrite Rmult_1_l.
  - split; [exact IH1|].
    rewrite T_rec, IH0, IH1. cbn [fofZ fmul fsub RS R_Scalar].
    replace (INR (S (S k)) * t) with (INR (S k) * t + t)
      by (rewrite (S_INR (S k)); ring).
    replace (INR k * t) with (INR (S k) * t - t)
      by (rewrite (S_INR k); ring).
    rewrite cos_plus, cos_minus. ring.
Qed.

Lemma T_cos (k : nat) (t : R) : @T R RS k (cos t) = cos (INR k * t).
Proof. apply T_cos_pair. Qed.

Lemma rescale_affine (a b x : R) :
  a < b ->
  @rescale R RS a b a = -1 /\
  @rescale R RS a b b = 1 /\
  @rescale R RS a b x = -1 + 2 * (x - a) / (b - a).
Proof.
  intros Hab. unfold rescale. cbn [fofZ fmul fsub fdiv RS R_Scalar].
  repeat split; field; lra.
Qed.

End ChebyshevReal.

(** ** Evaluate and the residual function *)

Section ResidFacts.
Context {F : Type} `{Scalar F}.

Lemma set_c_ok (s : Store F) (Q c : loc) (o : Basis.t F) (cs : list F) :
  objects s !! Q = Some o ->
  arrays s !! c = Some cs ->
  length cs = Basis.n o ->
  set_c Q c s = Ok (tt, install Q c o s).
Proof.
  intros HQ Hc Hlen. unfold set_c, mbind, M_bind, read_object, read_array.
  rewrite HQ, Hc. destruct (decide _) as [_|Hne]; [reflexivity | contradiction].
Qed.

Lemma set_c_mismatch (s : Store F) (Q c : loc) (o : Basis.t F) (cs : list F) :
  objects s !! Q = Some o ->
  arrays s !! c = Some cs ->
  length cs <> Basis.n o ->
  set_c Q c s = Err DimensionMismatch.
Proof.
  intros HQ Hc Hlen. unfold set_c, mbind, M_bind, read_object, read_array.
  rewrite HQ, Hc. destruct (decide _) as [Heq|_]; [contradiction | reflexivity].
Qed.

Lemma call_ok (s : Store F) (Q : loc) (o : Basis.t F) (cs : list F) (p : nd F) :
  objects s !! Q = Some o ->
  arrays s !! Basis.c o = Some cs ->
  call Q p s =
    Ok (nd_map (evaluate1 (Basis.n o) (Basis.a o) (Basis.b o) cs) p, s).
Proof.
  intros HQ Hc. unfold call, mbind, M_bind, read_object, read_array.
  now rewrite HQ, Hc.
Qed.

Lemma install_lookup (s : Store F) (Q c : loc) (o : Basis.t F) :
  objects (install Q c o s) !! Q = Some (with_c o c).
Proof. unfold install. simpl. apply lookup_insert_eq. Qed.

(** The arithmetic of [resid] on a value [p] and a quantity [q] of the
    same shape is the residual formula applied entry by entry. *)
Lemma resid_arith (alpha eta : F) (g : F -> F) (p : nd F) :
  (eta =? #0)%num = false ->
  (k ← py_div #(-1)%num eta;
   t1 ← np_pow p (Sc (eta + #1)%num);
   t2 ← np_mul (Sc k) t1;
   t3 ← np_mul (nd_map g p) t2;
   t4 ← np_add p t3;
   t5 ← np_mul (Sc alpha) (np_sqrt (nd_map g p));
   t6 ← np_sub t4 t5;
   t7 ← np_pow (nd_map g p) (Sc #2%num);
   np_sub t6 t7)
  = Ok (nd_map (fun x => residual_formula alpha eta (g x) x) p).
Proof.
  intros Heta. unfold py_div. rewrite Heta. cbn [mbind result_bind].
  unfold np_pow, np_mul, np_add, np_sub, np_sqrt.
  set (e1 := (eta + #1)%num). set (k := (#(-1) / eta)%num).
  rewrite <- (nd_map_id p) at 1.
  rewrite (broadcast_scalar_r fpow e1 (fun x => x) p). cbn [mbind result_bind].
  rewrite (broadcast_scalar_l fmul k _ p). cbn [mbind result_bind].
  rewrite (broadcast_same_shape fmul g _ p). cbn [mbind result_bind].
  rewrite <- (nd_map_id p) at 1.
  rewrite (broadcast_same_shape fadd (fun x => x) _ p). cbn [mbind result_bind].
  rewrite nd_map_map, (broadcast_scalar_l fmul alpha _ p). cbn [mbind result_bind].
  rewrite (broadcast_same_shape fsub _ _ p). cbn [mbind result_bind].
  rewrite (broadcast_scalar_r fpow #2%num g p). cbn [mbind result_bind].
  rewrite (broadcast_same_shape fsub _ _ p). reflexivity.
Qed.

Lemma resid_ok (s : Store F) (c Q : loc) (o : Basis.t F) (cs : list F)
    (p : nd F) (alpha eta : F) :
  objects s !! Q = Some o ->
  arrays s !! c = Some cs ->
  length cs = Basis.n o ->
  (eta =? #0)%num = false ->
  resid c Q p alpha eta s =
    Ok (nd_map (fun x => residual_formula alpha eta
                  (evaluate1 (Basis.n o) (Basis.a o) (Basis.b o) cs x) x) p,
        install Q c o s).
Proof.
  intros HQ Hc Hlen Heta. unfold resid.
  unfold mbind at 1. unfold M_bind at 1.
  rewrite (set_c_ok s Q c o cs HQ Hc Hlen).
  unfold mbind at 1. unfold M_bind at 1.
  rewrite (call_ok (install Q c o s) Q (with_c o c) cs p);
    [| apply install_lookup | exact Hc].
  cbn [with_c Basis.n Basis.a Basis.b].
  rewrite (resid_arith alpha eta _ p Heta). reflexivity.
Qed.

(** Assigning to [Q.c] the reference it already holds changes nothing. *)
Lemma set_c_same (s : Store F) (Q c : loc) (o : Basis.t F) (cs : list F) :
  objects s !! Q = Some o ->
  Basis.c o = c ->
  arrays s !! c = Some cs ->
  length cs = Basis.n o ->
  set_c Q c s = Ok (tt, s).
Proof.
  intros HQ Hco Hc Hlen. rewrite (set_c_ok s Q c o cs HQ Hc Hlen).
  do 2 f_equal. destruct s as [arr objs]. unfold install. simpl in *.
  f_equal. subst c.
  replace (with_c o (Basis.c o)) with o by now destruct o.
  now apply insert_id.
Qed.

(** With [eta = 0] the call raises, after [Q.c] has been assigned. *)
Lemma resid_zero_eta (s : Store F) (c Q : loc) (o : Basis.t F) (cs : list F)
    (p : nd F) (alpha eta : F) :
  objects s !! Q = Some o ->
  arrays s !! c = Some cs ->
  length cs = Basis.n o ->
  (eta =? #0)%num = true ->
  resid c Q p alpha eta s = Err ZeroDivisionError.
Proof.
  intros HQ Hc Hlen Heta. unfold resid.
  unfold mbind at 1. unfold M_bind at 1.
  rewrite (set_c_ok s Q c o cs HQ Hc Hlen).
  unfold mbind at 1. unfold M_bind at 1.
  rewrite (call_ok (install Q c o s) Q (with_c o c) cs p);
    [| apply install_lookup | exact Hc].
  unfold py_div. now rewrite Heta.
Qed.

End ResidFacts.

Section ResidTheorems.
Context {F : Type} `{Scalar F}.

(** C1. For every coefficient vector [c] (of the approximant's length),
    every value [p], every [alpha] and every [eta] at which [-1/eta] is
    defined, the call [resid(c, Q, p, alpha, eta)] returns, entry by entry,
    [p + q * ((-1/eta) * p^(eta+1)) - alpha * sqrt(q) - q^2], where [q] is
    what [Q(p)] returns once [c] has been installed as [Q.c]. *)
Theorem resid_returns_formula (s : Store F) (c Q : loc) (o : Basis.t F)
    (cs : list F) (p : nd F) (alpha eta : F) :
  objects s !! Q = Some o ->
  arrays s !! c = Some cs ->
  length cs = Basis.n o ->
  (eta =? #0)%num = false ->
  exists (q r : nd F) (s' : Store F),
    set_c Q c s = Ok (tt, s') /\
    call Q p s' = Ok (q, s') /\
    resid c Q p alpha eta s = Ok (r, s') /\
    length (entries q) = length (entries p) /\
    entries r = zip_with (residual_formula alpha eta) (entries q) (entries p) /\
    (forall x, p = Sc x -> exists y, r = Sc y).
Proof.
  intros HQ Hc Hlen Heta.
  set (ev := evaluate1 (Basis.n o) (Basis.a o) (Basis.b o) cs).
  exists (nd_map ev p),
         (nd_map (fun x => residual_formula alpha eta (ev x) x) p),
         (install Q c o s).
  split; [now apply (set_c_ok s Q c o cs)|].
  split; [apply (call_ok _ Q (with_c o c) cs p); [apply install_lookup | exact Hc]|].
  split; [now apply resid_ok|].
  rewrite !entries_nd_map, List.length_map.
  split; [reflexivity|]. split.
  - transitivity (zip_with (residual_formula alpha eta)
                   (map ev (entries p)) (map (fun x => x) (entries p))).
    + now rewrite zip_with_map_same.
    + now rewrite List.map_id.
  - intros x ->. simpl. eauto.
Qed.

(** C5. For every coefficient vector of length [n] and every point [x],
    inside the domain or not, Evaluate returns the sum of the products
    [c_k * T_k(z)] for [k = 0 .. n-1], added in this order, [z] being the
    affine image of [x]: the dot product of the coefficients with the basis
    values.  The basis values come from the recurrence loop, whose [k]-th
    value is [T_k(z)], and the [T_k] obey [T_0 = 1], [T_1 = z],
    [T_(k+2) = 2 z T_(k+1) - T_k].  The dot product itself starts from zero
    and adds one product per index.  Over the reals [z] runs from [-1] to
    [1] as [x] runs from [a] to [b], and [T_k (cos t) = cos (k t)]. *)
Theorem evaluate_dot_recurrence (s : Store F) (Q : loc) (o : Basis.t F)
    (cs : list F) (p : nd F) :
  objects s !! Q = Some o ->
  arrays s !! Basis.c o = Some cs ->
  length cs = Basis.n o ->
  call Q p s =
    Ok (nd_map (fun x => chebyshev_sum (Basis.n o) cs
                  (rescale (Basis.a o) (Basis.b o) x)) p, s) /\
  (forall (m : nat) (z : F),
     chebyshev_sum 0 cs z = #0%num /\
     chebyshev_sum (S m) cs z = (chebyshev_sum m cs z + nth m cs #0 * T m z)%num) /\
  (forall x : F,
     evaluate1 (Basis.n o) (Basis.a o) (Basis.b o) cs x
     = dot cs (basis (Basis.n o) (rescale (Basis.a o) (Basis.b o) x))) /\
  (forall (u v : list F) (x y : F),
     dot [] v = #0%num /\
     dot [x] [y] = (#0 + x * y)%num /\
     (length u = length v -> dot (u ++ [x]) (v ++ [y]) = (dot u v + x * y)%num)) /\
  (forall z : F,
     length (basis (Basis.n o) z) = length cs /\
     forall k, k < Basis.n o -> nth k (basis (Basis.n o) z) #0%num = T k z) /\
  (forall z : F,
     T 0 z = #1%num /\ T 1 z = z /\
     forall k, T (S (S k)) z = (#2 * z * T (S k) z - T k z)%num) /\
  (forall (pow : R -> R -> R) (a b x t : R) (k : nat),
     (a < b)%R ->
     @rescale R (R_Scalar pow) a b a = (-1)%R /\
     @rescale R (R_Scalar pow) a b b = 1%R /\
     @rescale R (R_Scalar pow) a b x = (-1 + 2 * (x - a) / (b - a))%R /\
     @T R (R_Scalar pow) k (cos t) = cos (INR k * t)).
Proof.
  intros HQ Hc Hlen.
  split; [|split; [|split; [|split; [|split; [|split]]]]].
  - rewrite (call_ok s Q o cs p HQ Hc). do 2 f_equal.
    destruct p as [x|xs]; simpl; f_equal.
    + now apply evaluate1_sum.
    + apply List.map_ext. intros x. now apply evaluate1_sum.
  - intros m z. split; reflexivity.
  - reflexivity.
  - intros u v x y. split; [reflexivity|]. split; [reflexivity|]. apply dot_snoc.
  - intros z. split; [now rewrite length_basis|]. intros k Hk. now apply nth_basis.
  - intros z. repeat split.
  - intros pow a b x t k Hab.
    destruct (rescale_affine pow a b x Hab) as (Ha & Hb & Hx).
    repeat split; [exact Ha | exact Hb | exact Hx | apply T_cos].
Qed.

End ResidTheorems.

(** ** The store under allocation and installation *)

Section StoreFacts.
Context {F : Type}.

Lemma fresh_array_None (s : Store F) : arrays s !! fresh (dom (arrays s)) = None.
Proof. apply not_elem_of_dom, is_fresh. Qed.

Lemma alloc_array_subseteq (s : Store F) (xs : list F) :
  arrays s ⊆ <[fresh (dom (arrays s)) := xs]> (arrays s).
Proof. apply insert_subseteq, fresh_array_None. Qed.

Lemma with_c_with_c (o : Basis.t F) (c1 c2 : loc) :
  with_c (with_c o c1) c2 = with_c o c2.
Proof. reflexivity. Qed.

Lemma with_c_same (o : Basis.t F) : with_c o (Basis.c o) = o.
Proof. now destruct o. Qed.

Lemma frame_refl (Q : loc) (s : Store F) : frame Q s s.
Proof.
  split; [reflexivity|]. intros o Ho. exists (Basis.c o).
  now rewrite with_c_same.
Qed.

Lemma frame_trans (Q : loc) (s1 s2 s3 : Store F) :
  frame Q s1 s2 -> frame Q s2 s3 -> frame Q s1 s3.
Proof.
  intros [Ha1 Ho1] [Ha2 Ho2]. split; [etransitivity; eassumption|].
  intros o Ho. destruct (Ho1 o Ho) as [c1 Hc1].
  destruct (Ho2 _ Hc1) as [c2 Hc2]. exists c2.
  now rewrite Hc2, with_c_with_c.
Qed.

Lemma frame_install (Q c : loc) (o : Basis.t F) (s : Store F) :
  objects s !! Q = Some o -> frame Q s (install Q c o s).
Proof.
  intros Ho. split; [reflexivity|]. intros o' Ho'. exists c.
  rewrite install_lookup. congruence.
Qed.

Lemma frame_node_values (Q : loc) (s s' : Store F) (v : list F) :
  frame Q s s' -> node_values Q s = Some v -> node_values Q s' = Some v.
Proof.
  intros [Ha Ho]. unfold node_values.
  destruct (objects s !! Q) as [o|] eqn:HQ; [|discriminate].
  destruct (Ho o eq_refl) as [c' Hc']. rewrite Hc'. simpl.
  intros Hv. eapply lookup_weaken; eassumption.
Qed.

Lemma frame_array (Q : loc) (s s' : Store F) (l : loc) (xs : list F) :
  frame Q s s' -> arrays s !! l = Some xs -> arrays s' !! l = Some xs.
Proof. intros [Ha _] Hl. eapply lookup_weaken; eassumption. Qed.

Lemma bind_ok {A B : Type} (m : M F A) (f : A -> M F B) (s s' : Store F) (x : A) :
  m s = Ok (x, s') -> (m ≫= f) s = f x s'.
Proof. intros E. unfold mbind, M_bind. now rewrite E. Qed.

Lemma bind_err {A B : Type} (m : M F A) (f : A -> M F B) (s : Store F) (e : error) :
  m s = Err e -> (m ≫= f) s = Err e.
Proof. intros E. unfold mbind, M_bind. now rewrite E. Qed.

End StoreFacts.

(** ** The solver's linear algebra, entry by entry *)

Section MatrixFacts.
Context {F : Type} `{Scalar F}.

Lemma length_vadd (u v : list F) (n : nat) :
  length u = n -> length v = n -> length (vadd u v) = n.
Proof. intros Hu Hv. unfold vadd. rewrite length_zip_with. lia. Qed.

Lemma length_vsub (u v : list F) (n : nat) :
  length u = n -> length v = n -> length (vsub u v) = n.
Proof. intros Hu Hv. unfold vsub. rewrite length_zip_with. lia. Qed.

Lemma length_matvec (B : list (list F)) (v : list F) :
  length (matvec B v) = length B.
Proof. unfold matvec. apply List.length_map. Qed.

Lemma length_step_dx (B : list (list F)) (fx : list F) :
  length (vneg (matvec B fx)) = length B.
Proof. unfold vneg. now rewrite List.length_map, length_matvec. Qed.

Lemma length_secant_update (nz : F -> bool) (B : list (list F)) (dx df : list F)
    (n : nat) :
  length B = n -> length dx = n ->
  length (secant_update nz B dx df) = n.
Proof.
  intros HB Hdx. unfold secant_update.
  destruct (nz _); [exact HB|].
  unfold madd, mdiv, outer.
  rewrite length_zip_with, !List.length_map.
  rewrite (length_vsub dx (matvec B df) n); [lia | exact Hdx |].
  now rewrite length_matvec.
Qed.

Lemma nth_zip_with_lt {A B C : Type} (h : A -> B -> C) (da : A) (db : B) (dc : C) :
  forall (u : list A) (v : list B) (j : nat),
  j < length u -> j < length v ->
  nth j (zip_with h u v) dc = h (nth j u da) (nth j v db).
Proof.
  induction u as [|x u IH]; intros [|y v] [|j] Hu Hv; simpl in *; try lia.
  - reflexivity.
  - apply IH; lia.
Qed.

Lemma square_row (n : nat) (B : list (list F)) (i : nat) :
  square n B -> i < n -> length (nth i B []) = n.
Proof.
  intros [Hlen Hrows] Hi.
  apply (proj1 (List.Forall_forall _ _) Hrows). apply nth_In. lia.
Qed.

Lemma entry_matvec (n : nat) (B : list (list F)) (v : list F) (i : nat) :
  square n B -> length v = n -> i < n ->
  nth i (matvec B v) #0%num = sigma n (fun j => entry B i j * nth j v #0)%num.
Proof.
  intros HB Hv Hi. unfold matvec.
  rewrite (nth_map_lt (fun row => dot row v) []) by (destruct HB; lia).
  apply dot_sigma; [now apply square_row | exact Hv].
Qed.

(** The step [dx = -B fx0]. *)
Lemma entry_step_dx (n : nat) (B : list (list F)) (fx0 : list F) (i : nat) :
  square n B -> length fx0 = n -> i < n ->
  nth i (vneg (matvec B fx0)) #0%num = step_dx n B fx0 i.
Proof.
  intros HB Hfx Hi. unfold vneg, step_dx.
  rewrite (nth_map_lt fneg #0%num) by (rewrite length_matvec; destruct HB; lia).
  now rewrite (entry_matvec n).
Qed.

Lemma fold_vecmat (n : nat) (v : list F) :
  forall (B : list (list F)) (acc : list F),
  length B = length v ->
  Forall (fun row => length row = n) B ->
  length acc = n ->
  length (fold_left (fun a vr => vadd a (map (fmul (fst vr)) (snd vr)))
            (zip v B) acc) = n /\
  forall j, j < n ->
    nth j (fold_left (fun a vr => vadd a (map (fmul (fst vr)) (snd vr)))
             (zip v B) acc) #0%num
    = sum_from (nth j acc #0%num) (length v)
        (fun i => nth i v #0 * entry B i j)%num.
Proof.
  induction v as [|x v IH]; intros [|row B] acc HB Hrows Hacc; simpl in HB; try lia.
  - split; [exact Hacc | reflexivity].
  - inversion Hrows as [|? ? Hrow Hrows']; subst.
    cbn [zip_with fold_left fst snd].
    destruct (IH B (vadd acc (map (fmul x) row))) as [Hlen Hnth];
      [lia | exact Hrows' | |].
    { apply length_vadd; [reflexivity | now rewrite List.length_map]. }
    split; [exact Hlen|]. intros j Hj. rewrite (Hnth j Hj).
    cbn [length]. rewrite sum_from_shift.
    unfold vadd at 1.
    rewrite (nth_zip_with_lt fadd #0%num #0%num) by (rewrite ?List.length_map; lia).
    rewrite (nth_map_lt (fmul x) #0%num) by lia.
    reflexivity.
Qed.

(** The row vector [v^T B]. *)
Lemma entry_vecmat (n : nat) (v : list F) (B : list (list F)) :
  square n B -> length v = n ->
  length (vecmat v B) = n /\
  forall j, j < n ->
    nth j (vecmat v B) #0%num = sigma n (fun i => nth i v #0 * entry B i j)%num.
Proof.
  intros [HB Hrows] Hv. unfold vecmat.
  destruct (fold_vecmat n v B (repeat #0%num (length v))) as [Hlen Hnth];
    [lia | exact Hrows | now rewrite repeat_length |].
  split; [exact Hlen|]. intros j Hj. rewrite (Hnth j Hj).
  now rewrite nth_repeat, Hv, sum_from_zero.
Qed.

Lemma entry_update (n : nat) (B : list (list F)) (w u : list F) (d : F) (i j : nat) :
  square n B -> length w = n -> length u = n -> i < n -> j < n ->
  entry (madd B (mdiv (outer w u) d)) i j
  = (entry B i j + nth i w #0 * nth j u #0 / d)%num.
Proof.
  intros HB Hw Hu Hi Hj. unfold entry, madd, mdiv, outer.
  rewrite (nth_zip_with_lt vadd [] [])
    by (rewrite ?List.length_map; destruct HB; lia).
  rewrite (nth_map_lt (map (fun x => (x / d)%num)) [])
    by (rewrite List.length_map; lia).
  rewrite (nth_map_lt (fun ui => map (fmul ui) u) #0%num) by lia.
  unfold vadd.
  rewrite (nth_zip_with_lt fadd #0%num #0%num)
    by (rewrite ?List.length_map, ?(square_row n B i HB Hi); lia).
  rewrite (nth_map_lt (fun x => (x / d)%num) #0%num) by (rewrite List.length_map; lia).
  now rewrite (nth_map_lt (fmul (nth i w #0%num)) #0%num) by lia.
Qed.

Lemma square_update (n : nat) (B : list (list F)) (w u : list F) (d : F) :
  square n B -> length w = n -> length u = n ->
  square n (madd B (mdiv (outer w u) d)).
Proof.
  intros HB Hw Hu.
  assert (length (madd B (mdiv (outer w u) d)) = n) as Hlen.
  { unfold madd, mdiv, outer. rewrite length_zip_with, !List.length_map.
    destruct HB. lia. }
  split; [exact Hlen|].
  apply (Forall_nth _ []). intros i Hi. rewrite Hlen in Hi.
  unfold madd, mdiv, outer.
  rewrite (nth_zip_with_lt vadd [] [])
    by (rewrite ?List.length_map; destruct HB; lia).
  rewrite (nth_map_lt (map (fun x => (x / d)%num)) [])
    by (rewrite List.length_map; lia).
  rewrite (nth_map_lt (fun ui => map (fmul ui) u) #0%num) by lia.
  apply length_vadd; [now apply square_row | now rewrite !List.length_map].
Qed.

Lemma secant_row_ext (n : nat) (B : list (list F)) (dx dx' : nat -> F) (j : nat) :
  (forall i, i < n -> dx i = dx' i) ->
  secant_row n B dx j = secant_row n B dx' j.
Proof.
  intros Hdx. unfold secant_row. apply sigma_ext.
  intros i Hi. now rewrite Hdx.
Qed.

Lemma secant_column_ext (n : nat) (B : list (list F)) (dx dx' df df' : nat -> F)
    (i : nat) :
  i < n ->
  (forall k, k < n -> dx k = dx' k) ->
  (forall k, k < n -> df k = df' k) ->
  secant_column n B dx df i = secant_column n B dx' df' i.
Proof.
  intros Hi Hdx Hdf. unfold secant_column. rewrite (Hdx i Hi). f_equal.
  apply sigma_ext. intros j Hj. now rewrite Hdf.
Qed.

Lemma secant_denominator_ext (n : nat) (B : list (list F)) (dx dx' df df' : nat -> F) :
  (forall k, k < n -> dx k = dx' k) ->
  (forall k, k < n -> df k = df' k) ->
  secant_denominator n B dx df = secant_denominator n B dx' df'.
Proof.
  intros Hdx Hdf. unfold secant_denominator. apply sigma_ext.
  intros j Hj. now rewrite (secant_row_ext n B dx dx' j Hdx), Hdf.
Qed.

(** The secant update: the denominator the guard tests is [dx^T B df];
    when the guard fires the matrix is kept, otherwise its entry [(i,j)]
    grows by [(dx - B df)_i (dx^T B)_j / (dx^T B df)]. *)
Lemma secant_update_entries (nz : F -> bool) (n : nat) (B : list (list F))
    (dx df : list F) :
  square n B -> length dx = n -> length df = n ->
  let dxf := fun i => nth i dx #0%num in
  let dff := fun j => nth j df #0%num in
  let d := secant_denominator n B dxf dff in
  dot (vecmat dx B) df = d /\
  square n (secant_update nz B dx df) /\
  (nz d = true -> secant_update nz B dx df = B) /\
  (nz d = false -> forall i j, i < n -> j < n ->
     entry (secant_update nz B dx df) i j
     = (entry B i j + secant_column n B dxf dff i * secant_row n B dxf j / d)%num).
Proof.
  intros HB Hdx Hdf dxf dff d.
  destruct (entry_vecmat n dx B HB Hdx) as [Hlenu Hu].
  assert (dot (vecmat dx B) df = d) as Hdot.
  { rewrite (dot_sigma n) by assumption. unfold d, secant_denominator.
    apply sigma_ext. intros j Hj. now rewrite (Hu j Hj). }
  assert (length (vsub dx (matvec B df)) = n) as Hlenw.
  { apply length_vsub; [exact Hdx|]. rewrite length_matvec. now destruct HB. }
  split; [exact Hdot|]. unfold secant_update. rewrite Hdot.
  split; [|split].
  - destruct (nz d); [exact HB|]. now apply square_update.
  - now intros ->.
  - intros -> i j Hi Hj.
    rewrite (entry_update n) by assumption.
    rewrite (Hu j Hj). unfold vsub.
    rewrite (nth_zip_with_lt fsub #0%num #0%num)
      by (rewrite ?length_matvec; destruct HB; lia).
    now rewrite (entry_matvec n B df i HB Hdf Hi).
Qed.

End MatrixFacts.

(** ** The solver on any residual callback *)

Section SolverTrace.
Context {F : Type} `{Scalar F}.
Variable norm : list F -> F.
Variable numerically_zero : F -> bool.
Variable f : loc -> M F (nd F).

Lemma eval_residual_inv (s s' : Store F) (x : loc) (v : list F) :
  eval_residual f x s = Ok (v, s') ->
  exists (xs : list F) (r : nd F),
    arrays s !! x = Some xs /\
    f x s = Ok (r, s') /\
    v = entries r /\
    length v = length xs.
Proof.
  unfold eval_residual, mbind, M_bind, read_array.
  destruct (arrays s !! x) as [xs|]; [|discriminate].
  destruct (f x s) as [[r s1]|]; [|discriminate].
  destruct (decide _) as [Hlen|_]; [|discriminate].
  intros [= <- <-]. exists xs, r. repeat split; assumption.
Qed.

(** One iteration: the trial vector [x0 + dx] becomes a new array, the
    callback is evaluated on it, and the step fails exactly when that
    evaluation does. *)
Lemma broyden_step_run (s : Store F) (it : iterate F) (x0v : list F) :
  arrays s !! it_x it = Some x0v ->
  let dx := vneg (matvec (it_B it) (it_fx it)) in
  let l1 := fresh (dom (arrays s)) in
  broyden_step numerically_zero f it s =
    match eval_residual f l1
            (mkStore (<[l1 := vadd x0v dx]> (arrays s)) (objects s)) with
    | Ok (fx1, s') =>
        Ok (mkIterate l1 fx1
              (secant_update numerically_zero (it_B it) dx (vsub fx1 (it_fx it))), s')
    | Err e => Err e
    end.
Proof.
  intros Hx dx l1. unfold broyden_step.
  unfold mbind at 1. unfold M_bind at 1. unfold read_array at 1. rewrite Hx.
  unfold mbind at 1. unfold M_bind at 1. unfold alloc_array at 1.
  cbv zeta. unfold mbind at 1. unfold M_bind at 1.
  fold l1. fold dx.
  destruct (eval_residual f l1 _) as [[fx1 s']|e]; reflexivity.
Qed.

Lemma broyden_step_inv (s s1 : Store F) (it it1 : iterate F) :
  broyden_step numerically_zero f it s = Ok (it1, s1) ->
  exists x0v : list F,
    arrays s !! it_x it = Some x0v /\
    it_x it1 = fresh (dom (arrays s)) /\
    eval_residual f (it_x it1)
      (mkStore (<[it_x it1 := vadd x0v (vneg (matvec (it_B it) (it_fx it)))]> (arrays s))
               (objects s)) = Ok (it_fx it1, s1).
Proof.
  intros Hstep.
  destruct (arrays s !! it_x it) as [x0v|] eqn:Hx.
  - rewrite (broyden_step_run s it x0v Hx) in Hstep. cbv zeta in Hstep.
    destruct (eval_residual f _ _) as [[fx1 s']|e] eqn:Hev; [|discriminate].
    injection Hstep as <- <-. exists x0v. cbn [it_x it_fx].
    split; [reflexivity|]. split; [reflexivity | exact Hev].
  - unfold broyden_step in Hstep.
    unfold mbind at 1 in Hstep. unfold M_bind at 1 in Hstep.
    unfold read_array at 1 in Hstep. rewrite Hx in Hstep. discriminate.
Qed.

(** One iteration, entry by entry. *)
Lemma broyden_step_entries (n : nat) (s : Store F) (it : iterate F) (x0v : list F) :
  arrays s !! it_x it = Some x0v ->
  length x0v = n ->
  square n (it_B it) ->
  length (it_fx it) = n ->
  let dx := step_dx n (it_B it) (it_fx it) in
  let l1 := fresh (dom (arrays s)) in
  exists x1v : list F,
    length x1v = n /\
    (forall i, i < n -> nth i x1v #0%num = (nth i x0v #0 + dx i)%num) /\
    arrays s !! l1 = None /\
    (forall e,
       eval_residual f l1 (mkStore (<[l1 := x1v]> (arrays s)) (objects s)) = Err e ->
       broyden_step numerically_zero f it s = Err e) /\
    (forall fx1 s',
       eval_residual f l1 (mkStore (<[l1 := x1v]> (arrays s)) (objects s))
         = Ok (fx1, s') ->
       exists B' : list (list F),
         broyden_step numerically_zero f it s = Ok (mkIterate l1 fx1 B', s') /\
         length fx1 = n /\
         square n B' /\
         let df := fun j => (nth j fx1 #0 - nth j (it_fx it) #0)%num in
         let d := secant_denominator n (it_B it) dx df in
         (numerically_zero d = true -> B' = it_B it) /\
         (numerically_zero d = false -> forall i j, i < n -> j < n ->
            entry B' i j
            = (entry (it_B it) i j
               + secant_column n (it_B it) dx df i * secant_row n (it_B it) dx j / d)%num)).
Proof.
  intros Hx Hlen HB Hfx dx l1.
  set (dxl := vneg (matvec (it_B it) (it_fx it))).
  assert (length dxl = n) as Hdxl.
  { unfold dxl. rewrite length_step_dx. now destruct HB. }
  assert (forall i, i < n -> nth i dxl #0%num = dx i) as Hdx.
  { intros i Hi. now apply entry_step_dx. }
  exists (vadd x0v dxl).
  split; [now apply length_vadd|].
  split.
  { intros i Hi. unfold vadd.
    rewrite (nth_zip_with_lt fadd #0%num #0%num) by lia. now rewrite Hdx. }
  split; [apply not_elem_of_dom, is_fresh|].
  pose proof (broyden_step_run s it x0v Hx) as Hrun. cbv zeta in Hrun.
  fold dxl in Hrun. fold l1 in Hrun.
  split.
  { intros e He. rewrite Hrun. now rewrite He. }
  intros fx1 s' Hev. rewrite Hrun, Hev.
  destruct (eval_residual_inv _ _ _ _ Hev) as (xs & r & Hxs & _ & _ & Hlenfx).
  cbn [arrays] in Hxs. rewrite lookup_insert_eq in Hxs. injection Hxs as <-.
  rewrite (length_vadd x0v dxl n Hlen Hdxl) in Hlenfx.
  assert (length (vsub fx1 (it_fx it)) = n) as Hdfl by now apply length_vsub.
  destruct (secant_update_entries numerically_zero n (it_B it) dxl
              (vsub fx1 (it_fx it)) HB Hdxl Hdfl) as (_ & Hsq & Hkeep & Hent).
  assert (forall j, j < n ->
            nth j (vsub fx1 (it_fx it)) #0%num
            = (nth j fx1 #0 - nth j (it_fx it) #0)%num) as Hdf.
  { intros j Hj. unfold vsub.
    now rewrite (nth_zip_with_lt fsub #0%num #0%num) by lia. }
  eexists. split; [reflexivity|]. split; [exact Hlenfx|]. split; [exact Hsq|].
  cbv zeta.
  rewrite <- (secant_denominator_ext n (it_B it) _ dx _ _ Hdx Hdf).
  split; [exact Hkeep|].
  intros Hnz i j Hi Hj. rewrite (Hent Hnz i j Hi Hj).
  rewrite (secant_column_ext n (it_B it) _ dx _ _ i Hi Hdx Hdf).
  now rewrite (secant_row_ext n (it_B it) _ dx j Hdx).
Qed.

Lemma iterates_step (k : nat) (s s1 : Store F) (it it1 : iterate F) :
  broyden_step numerically_zero f it s = Ok (it1, s1) ->
  iterates numerically_zero f (S k) it s = iterates numerically_zero f k it1 s1.
Proof. intros Hstep. cbn [iterates]. now rewrite (bind_ok _ _ _ _ _ Hstep). Qed.

Lemma iterates_step_err (k : nat) (s : Store F) (it : iterate F) (e : error) :
  broyden_step numerically_zero f it s = Err e ->
  iterates numerically_zero f (S k) it s = Err e.
Proof. intros Hstep. cbn [iterates]. now apply bind_err. Qed.

Lemma broyden_loop_step (tol : F) (budget : nat) (s s1 : Store F)
    (it it1 : iterate F) :
  broyden_step numerically_zero f it s = Ok (it1, s1) ->
  broyden_loop norm numerically_zero f tol (S budget) it s =
    if finite_state s1 it1 then
      if (norm (it_fx it1) <? tol)%num then Ok (Converged (it_x it1), s1)
      else broyden_loop norm numerically_zero f tol budget it1 s1
    else Err ComputationFailure.
Proof.
  intros Hstep. cbn [broyden_loop]. rewrite (bind_ok _ _ _ _ _ Hstep).
  unfold mbind, M_bind, check_finite.
  destruct (finite_state s1 it1); [|reflexivity].
  destruct (norm (it_fx it1) <? tol)%num; reflexivity.
Qed.

Lemma broyden_loop_step_err (tol : F) (budget : nat) (s : Store F)
    (it : iterate F) (e : error) :
  broyden_step numerically_zero f it s = Err e ->
  broyden_loop norm numerically_zero f tol (S budget) it s = Err e.
Proof. intros Hstep. cbn [broyden_loop]. now apply bind_err. Qed.

(** The loop returns an outcome exactly as the stopping rule says. *)
Lemma broyden_loop_stops (tol : F) (budget : nat) :
  forall (it : iterate F) (s : Store F) (out : outcome) (s' : Store F),
  finite_state s it = true ->
  (broyden_loop norm numerically_zero f tol budget it s = Ok (out, s') <->
   exists k, stops_at norm tol budget
               (fun j => iterates numerically_zero f j it s) k out s').
Proof.
  induction budget as [|b IH]; intros it s out s' Hfin.
  - cbn [broyden_loop]. split.
    + intros [= <- <-]. exists 0, it.
      split; [lia|]. split; [reflexivity|]. split; [reflexivity|].
      split.
      { intros j itj sj Hj Htr. assert (j = 0) as -> by lia.
        cbn [iterates] in Htr. injection Htr as <- <-. exact Hfin. }
      split; [intros j itj sj Hj; lia|].
      right. split; [reflexivity|]. split; [reflexivity | now left].
    + intros (k & itk & Hk & Htr & Hsol & _ & _ & Hstop).
      assert (k = 0) as -> by lia.
      cbn [iterates] in Htr. injection Htr as <- <-.
      destruct Hstop as [(_ & Hk1 & _)|(-> & _ & _)]; [lia | reflexivity].
  - destruct (broyden_step numerically_zero f it s) as [[it1 s1]|e] eqn:Hstep.
    + rewrite (broyden_loop_step tol b s s1 it it1 Hstep).
      assert (forall j, iterates numerically_zero f (S j) it s
                        = iterates numerically_zero f j it1 s1) as Hshift
        by (intros j; now apply iterates_step).
      destruct (finite_state s1 it1) eqn:Hfin1.
      * destruct (norm (it_fx it1) <? tol)%num eqn:Hnorm.
        -- split.
           ++ intros [= <- <-]. exists 1, it1.
              split; [lia|]. split; [rewrite Hshift; reflexivity|].
              split; [reflexivity|].
              split.
              { intros j itj sj Hj Htr. destruct j as [|j].
                - cbn [iterates] in Htr. injection Htr as <- <-. exact Hfin.
                - assert (j = 0) as -> by lia. rewrite Hshift in Htr.
                  cbn [iterates] in Htr. injection Htr as <- <-. exact Hfin1. }
              split; [intros j itj sj Hj; lia|].
              left. split; [reflexivity|]. split; [lia | exact Hnorm].
           ++ intros (k & itk & Hk & Htr & Hsol & Hfinite & Hbefore & Hstop).
              destruct k as [|[|k]].
              { destruct Hstop as [(_ & Hk1 & _)|(_ & Hkb & _)]; lia. }
              { rewrite Hshift in Htr. cbn [iterates] in Htr.
                injection Htr as <- <-.
                destruct Hstop as [(-> & _ & _)|(_ & _ & [Hk0|Hn])];
                  [reflexivity | lia | congruence]. }
              { assert ((norm (it_fx it1) <? tol)%num = false) as Hno.
                { apply (Hbefore 1 it1 s1); [lia|].
                  rewrite Hshift. reflexivity. }
                congruence. }
        -- rewrite (IH it1 s1 out s' Hfin1). split.
           ++ intros (k & itk & Hk & Htr & Hsol & Hfinite & Hbefore & Hstop).
              exists (S k), itk.
              split; [lia|]. split; [now rewrite Hshift|]. split; [exact Hsol|].
              split.
              { intros j itj sj Hj Hj'. destruct j as [|j].
                - cbn [iterates] in Hj'. injection Hj' as <- <-. exact Hfin.
                - rewrite Hshift in Hj'. apply (Hfinite j itj sj); [lia | exact Hj']. }
              split.
              { intros j itj sj Hj Hj'. destruct j as [|j]; [lia|].
                rewrite Hshift in Hj'. destruct j as [|j].
                - cbn [iterates] in Hj'. injection Hj' as <- <-. exact Hnorm.
                - apply (Hbefore (S j) itj sj); [lia | exact Hj']. }
              destruct Hstop as [(Hout & Hk1 & Hn)|(Hout & Hkb & Hn)].
              ** left. split; [exact Hout|]. split; [lia | exact Hn].
              ** right. split; [exact Hout|]. split; [lia|]. right.
                 destruct Hn as [-> | Hn]; [|exact Hn].
                 cbn [iterates] in Htr. injection Htr as <- <-. exact Hnorm.
           ++ intros (k & itk & Hk & Htr & Hsol & Hfinite & Hbefore & Hstop).
              destruct k as [|k].
              { destruct Hstop as [(_ & Hk1 & _)|(_ & Hkb & _)]; lia. }
              exists k, itk.
              split; [lia|]. split; [now rewrite <- Hshift|]. split; [exact Hsol|].
              split.
              { intros j itj sj Hj Hj'. apply (Hfinite (S j) itj sj); [lia|].
                now rewrite Hshift. }
              split.
              { intros j itj sj Hj Hj'. apply (Hbefore (S j) itj sj); [lia|].
                now rewrite Hshift. }
              destruct Hstop as [(Hout & Hk1 & Hn)|(Hout & Hkb & Hn)].
              ** left. split; [exact Hout|]. split; [|exact Hn].
                 destruct k as [|k]; [|lia].
                 rewrite Hshift in Htr.
                 cbn [iterates] in Htr. injection Htr as <- <-. congruence.
              ** right. split; [exact Hout|]. split; [lia|].
                 destruct Hn as [Hk0 | Hn]; [lia | now right].
      * split; [discriminate|].
        intros (k & itk & Hk & Htr & Hsol & Hfinite & Hbefore & Hstop).
        destruct k as [|k].
        { destruct Hstop as [(_ & Hk1 & _)|(_ & Hkb & _)]; lia. }
        assert (finite_state s1 it1 = true) as Hyes.
        { apply (Hfinite 1 it1 s1); [lia|]. rewrite Hshift. reflexivity. }
        congruence.
    + rewrite (broyden_loop_step_err tol b s it e Hstep).
      split; [discriminate|].
      intros (k & itk & Hk & Htr & Hsol & Hfinite & Hbefore & Hstop).
      destruct k as [|k].
      { destruct Hstop as [(_ & Hk1 & _)|(_ & Hkb & _)]; lia. }
      rewrite (iterates_step_err k s it e Hstep) in Htr. discriminate.
Qed.

(** The loop ends in a computation failure at the first state that is not
    finite. *)
Lemma broyden_loop_fails (tol : F) (budget : nat) :
  forall (it : iterate F) (s : Store F) (k : nat),
  finite_state s it = true ->
  fails_at norm tol budget (fun j => iterates numerically_zero f j it s) k ->
  broyden_loop norm numerically_zero f tol budget it s = Err ComputationFailure.
Proof.
  induction budget as [|b IH]; intros it s k Hfin (itk & sk & Hk & Htr & Hbad & Hbefore).
  - assert (k = 0) as -> by lia. cbn [iterates] in Htr.
    injection Htr as <- <-. congruence.
  - destruct k as [|k].
    { cbn [iterates] in Htr. injection Htr as <- <-. congruence. }
    destruct (broyden_step numerically_zero f it s) as [[it1 s1]|e] eqn:Hstep.
    + assert (forall j, iterates numerically_zero f (S j) it s
                        = iterates numerically_zero f j it1 s1) as Hshift
        by (intros j; now apply iterates_step).
      rewrite (broyden_loop_step tol b s s1 it it1 Hstep).
      rewrite Hshift in Htr.
      destruct k as [|k].
      * cbn [iterates] in Htr. injection Htr as <- <-. now rewrite Hbad.
      * destruct (Hbefore 1 it1 s1) as [Hfin1 Hnorm];
          [lia | rewrite Hshift; reflexivity |].
        rewrite Hfin1, (Hnorm ltac:(lia)).
        apply (IH it1 s1 (S k) Hfin1).
        exists itk, sk. split; [lia|]. split; [exact Htr|]. split; [exact Hbad|].
        intros j itj sj Hj Hj'. destruct (Hbefore (S j) itj sj) as [Hf Hn];
          [lia | now rewrite Hshift |].
        split; [exact Hf|]. intros _. apply Hn. lia.
    + rewrite (iterates_step_err k s it e Hstep) in Htr. discriminate.
Qed.

Lemma stops_at_ext (tol : F) (budget k : nat)
    (tr1 tr2 : nat -> result (iterate F * Store F)) (out : outcome) (s' : Store F) :
  (forall j, tr1 j = tr2 j) ->
  stops_at norm tol budget tr1 k out s' -> stops_at norm tol budget tr2 k out s'.
Proof.
  intros Heq (itk & Hk & Htr & Hsol & Hfinite & Hbefore & Hstop).
  exists itk. split; [exact Hk|]. split; [now rewrite <- Heq|].
  split; [exact Hsol|].
  split; [intros j itj sj Hj Hj'; apply (Hfinite j itj sj Hj); now rewrite Heq|].
  split; [intros j itj sj Hj Hj'; apply (Hbefore j itj sj Hj); now rewrite Heq|].
  exact Hstop.
Qed.

Lemma iterate_at_start (s s0 : Store F) (x0 : loc) (B : list (list F))
    (fx0 : list F) (j : nat) :
  eval_residual f x0 s = Ok (fx0, s0) ->
  iterate_at numerically_zero f x0 B j s
  = iterates numerically_zero f j (mkIterate x0 fx0 B) s0.
Proof. intros Hev. unfold iterate_at. now rewrite (bind_ok _ _ _ _ _ Hev). Qed.

Lemma Solve_start (s s0 : Store F) (x0 : loc) (B : list (list F)) (fx0 : list F)
    (tol : F) (max_iterations : nat) :
  eval_residual f x0 s = Ok (fx0, s0) ->
  Solve norm numerically_zero f x0 B tol max_iterations s =
    if finite_state s0 (mkIterate x0 fx0 B)
    then broyden_loop norm numerically_zero f tol max_iterations
           (mkIterate x0 fx0 B) s0
    else Err ComputationFailure.
Proof.
  intros Hev. unfold Solve. rewrite (bind_ok _ _ _ _ _ Hev).
  unfold mbind, M_bind, check_finite.
  now destruct (finite_state s0 (mkIterate x0 fx0 B)).
Qed.

(** Solve returns an outcome exactly as the stopping rule says. *)
Lemma Solve_stops (tol : F) (max_iterations : nat) (s : Store F) (x0 : loc)
    (B : list (list F)) (out : outcome) (s' : Store F) :
  Solve norm numerically_zero f x0 B tol max_iterations s = Ok (out, s') <->
  exists k, stops_at norm tol max_iterations
              (fun j => iterate_at numerically_zero f x0 B j s) k out s'.
Proof.
  destruct (eval_residual f x0 s) as [[fx0 s0]|e] eqn:Hev.
  - rewrite (Solve_start s s0 x0 B fx0 tol max_iterations Hev).
    destruct (finite_state s0 (mkIterate x0 fx0 B)) eqn:Hfin.
    + rewrite (broyden_loop_stops tol max_iterations _ _ out s' Hfin).
      split; intros [k Hk]; exists k; revert Hk; apply stops_at_ext;
        intros j; now rewrite (iterate_at_start s s0 x0 B fx0 j Hev).
    + split; [discriminate|].
      intros (k & itk & _ & _ & _ & Hfinite & _).
      assert (finite_state s0 (mkIterate x0 fx0 B) = true) as Hyes.
      { apply (Hfinite 0); [lia|].
        now rewrite (iterate_at_start s s0 x0 B fx0 0 Hev). }
      congruence.
  - unfold Solve. rewrite (bind_err _ _ _ _ Hev).
    split; [discriminate|].
    intros (k & itk & _ & Htr & _). unfold iterate_at in Htr.
    rewrite (bind_err _ _ _ _ Hev) in Htr. discriminate.
Qed.

(** Solve ends in a computation failure at the first state that is not
    finite. *)
Lemma Solve_fails (tol : F) (max_iterations : nat) (s : Store F) (x0 : loc)
    (B : list (list F)) (k : nat) :
  fails_at norm tol max_iterations
    (fun j => iterate_at numerically_zero f x0 B j s) k ->
  Solve norm numerically_zero f x0 B tol max_iterations s = Err ComputationFailure.
Proof.
  intros (itk & sk & Hk & Htr & Hbad & Hbefore).
  destruct (eval_residual f x0 s) as [[fx0 s0]|e] eqn:Hev.
  - rewrite (Solve_start s s0 x0 B fx0 tol max_iterations Hev).
    destruct (finite_state s0 (mkIterate x0 fx0 B)) eqn:Hfin; [|reflexivity].
    apply (broyden_loop_fails tol max_iterations _ _ k Hfin).
    exists itk, sk. split; [exact Hk|].
    split; [now rewrite <- (iterate_at_start s s0 x0 B fx0 k Hev)|].
    split; [exact Hbad|].
    intros j itj sj Hj Hj'. apply (Hbefore j itj sj Hj).
    now rewrite (iterate_at_start s s0 x0 B fx0 j Hev).
  - unfold iterate_at in Htr. rewrite (bind_err _ _ _ _ Hev) in Htr. discriminate.
Qed.

(** With a callback that installs its argument, the approximant refers
    to the trial vector after every residual evaluation. *)
Lemma iterates_installs (Q : loc) (k : nat) :
  installs Q f ->
  forall (it itk : iterate F) (s s' : Store F),
  1 <= k ->
  iterates numerically_zero f k it s = Ok (itk, s') ->
  coefficient_ref Q s' = Some (it_x itk).
Proof.
  intros Hinst. induction k as [|k IH]; intros it itk s s' Hk Hits; [lia|].
  destruct (broyden_step numerically_zero f it s) as [[it1 s1]|e] eqn:Hstep.
  - rewrite (iterates_step k s s1 it it1 Hstep) in Hits.
    destruct k as [|k].
    + cbn [iterates] in Hits. injection Hits as <- <-.
      destruct (broyden_step_inv s s1 it it1 Hstep) as (x0v & _ & _ & Hev).
      destruct (eval_residual_inv _ _ _ _ Hev) as (xs & r & _ & Hf & _).
      exact (Hinst _ _ _ _ Hf).
    + apply (IH it1 itk s1 s'); [lia | exact Hits].
  - rewrite (iterates_step_err k s it e Hstep) in Hits. discriminate.
Qed.

Lemma iterate_at_installs (Q : loc) (s s' : Store F) (x0 : loc)
    (B : list (list F)) (k : nat) (itk : iterate F) :
  installs Q f ->
  iterate_at numerically_zero f x0 B k s = Ok (itk, s') ->
  coefficient_ref Q s' = Some (it_x itk).
Proof.
  intros Hinst Hat.
  destruct (eval_residual f x0 s) as [[fx0 s0]|e] eqn:Hev.
  - rewrite (iterate_at_start s s0 x0 B fx0 k Hev) in Hat.
    destruct k as [|k].
    + cbn [iterates] in Hat. injection Hat as <- <-.
      destruct (eval_residual_inv _ _ _ _ Hev) as (xs & r & _ & Hf & _).
      exact (Hinst _ _ _ _ Hf).
    + apply (iterates_installs Q (S k) Hinst _ _ _ _ ltac:(lia) Hat).
  - unfold iterate_at in Hat. rewrite (bind_err _ _ _ _ Hev) in Hat. discriminate.
Qed.

End SolverTrace.

(** ** One Broyden iteration on the script's residual *)

Section SolverFacts.
Context {F : Type} `{Scalar F}.
Variable norm : list F -> F.
Variable numerically_zero : F -> bool.
Variables (Q : loc) (p : nd F) (alpha eta : F).
Hypothesis Heta : (eta =? #0)%num = false.

Lemma length_residual_values (o : Basis.t F) (cs : list F) :
  length (residual_values o p alpha eta cs) = length (entries p).
Proof. unfold residual_values. apply List.length_map. Qed.

Lemma eval_residual_ok (s : Store F) (x : loc) (o : Basis.t F) (xs : list F) :
  objects s !! Q = Some o ->
  arrays s !! x = Some xs ->
  length xs = Basis.n o ->
  length (entries p) = Basis.n o ->
  eval_residual (cournot Q p alpha eta) x s =
    Ok (residual_values o p alpha eta xs, install Q x o s).
Proof.
  intros HQ Hx Hlen Hp. unfold eval_residual.
  unfold mbind at 1. unfold M_bind at 1. unfold read_array at 1. rewrite Hx.
  unfold mbind at 1. unfold M_bind at 1. unfold cournot.
  rewrite (resid_ok s x Q o xs p alpha eta HQ Hx Hlen Heta).
  rewrite entries_nd_map, List.length_map.
  destruct (decide _) as [_|Hne]; [reflexivity | congruence].
Qed.

Lemma broyden_step_ok (s : Store F) (it : iterate F) (o : Basis.t F) (xs : list F) :
  objects s !! Q = Some o ->
  arrays s !! it_x it = Some xs ->
  length xs = Basis.n o ->
  length (it_B it) = Basis.n o ->
  length (entries p) = Basis.n o ->
  let dx := vneg (matvec (it_B it) (it_fx it)) in
  let x1 := vadd xs dx in
  let fx1 := residual_values o p alpha eta x1 in
  broyden_step numerically_zero (cournot Q p alpha eta) it s =
    Ok (mkIterate (fresh (dom (arrays s))) fx1
          (secant_update numerically_zero (it_B it) dx (vsub fx1 (it_fx it))),
        step_store Q s o x1).
Proof.
  intros HQ Hx Hlen HB Hp dx x1 fx1. unfold broyden_step.
  unfold mbind at 1. unfold M_bind at 1. unfold read_array at 1. rewrite Hx.
  unfold mbind at 1. unfold M_bind at 1. unfold alloc_array at 1.
  cbv zeta. unfold mbind at 1. unfold M_bind at 1.
  rewrite (eval_residual_ok _ (fresh (dom (arrays s))) o x1).
  - reflexivity.
  - exact HQ.
  - simpl. apply lookup_insert_eq.
  - subst x1 dx. apply length_vadd; [exact Hlen|].
    now rewrite length_step_dx.
  - exact Hp.
Qed.

Lemma step_store_frame (s : Store F) (o : Basis.t F) (x1 : list F) :
  objects s !! Q = Some o -> frame Q s (step_store Q s o x1).
Proof.
  intros HQ. unfold step_store. split.
  - simpl. apply alloc_array_subseteq.
  - intros o' Ho'. exists (fresh (dom (arrays s))).
    rewrite install_lookup. congruence.
Qed.

Lemma step_store_coefficient_ref (s : Store F) (o : Basis.t F) (x1 : list F) :
  coefficient_ref Q (step_store Q s o x1) = Some (fresh (dom (arrays s))).
Proof. unfold coefficient_ref, step_store. now rewrite install_lookup. Qed.

Lemma step_store_coefficients (s : Store F) (o : Basis.t F) (x1 : list F) :
  coefficients Q (step_store Q s o x1) = Some x1.
Proof.
  unfold coefficients, step_store. rewrite install_lookup. simpl.
  apply lookup_insert_eq.
Qed.

Lemma fits_step (n : nat) (s : Store F) (it : iterate F) :
  fits Q p n s it ->
  exists it' s',
    broyden_step numerically_zero (cournot Q p alpha eta) it s = Ok (it', s') /\
    fits Q p n s' it' /\
    frame Q s s' /\
    coefficient_ref Q s' = Some (it_x it') /\
    arrays s !! it_x it' = None.
Proof.
  intros [[o [HQ Hn]] [[xs [Hx Hlen]] [HB Hp]]]. subst n.
  eexists _, _. split.
  { apply (broyden_step_ok s it o xs); assumption. }
  split; [|split; [|split]].
  - split; [|split; [|split]].
    + exists (with_c o (fresh (dom (arrays s)))). split; [apply install_lookup | reflexivity].
    + eexists. split; [simpl; apply lookup_insert_eq|].
      apply length_vadd; [exact Hlen | now rewrite length_step_dx].
    + simpl. apply length_secant_update; [exact HB | now rewrite length_step_dx].
    + exact Hp.
  - now apply step_store_frame.
  - apply step_store_coefficient_ref.
  - simpl. apply fresh_array_None.
Qed.

(** On the script's residual every iteration can be carried out.  The
    loop ends after [k] of them, with an outcome, or with a computation
    failure because the [k]-th state is not finite. *)
Lemma broyden_loop_ok (tol : F) (n budget : nat) :
  forall (it : iterate F) (s : Store F),
  fits Q p n s it ->
  exists (k : nat) (itk : iterate F) (sk : Store F),
    k <= budget /\
    iterates numerically_zero (cournot Q p alpha eta) k it s = Ok (itk, sk) /\
    fits Q p n sk itk /\
    frame Q s sk /\
    (1 <= k -> coefficient_ref Q sk = Some (it_x itk)) /\
    ((1 <= k /\ finite_state sk itk = false /\
      broyden_loop norm numerically_zero (cournot Q p alpha eta) tol budget it s
        = Err ComputationFailure) \/
     (exists out : outcome,
        broyden_loop norm numerically_zero (cournot Q p alpha eta) tol budget it s
          = Ok (out, sk) /\
        solution out = it_x itk)).
Proof.
  induction budget as [|b IH]; intros it s Hfit.
  - exists 0, it, s.
    split; [lia|]. split; [reflexivity|]. split; [exact Hfit|].
    split; [apply frame_refl|]. split; [lia|].
    right. exists (NonConvergence (it_x it)). split; reflexivity.
  - destruct (fits_step n s it Hfit) as (it1 & s1 & Hstep & Hfit1 & Hfr1 & Href1 & _).
    rewrite (broyden_loop_step norm numerically_zero _ tol b s s1 it it1 Hstep).
    assert (iterates numerically_zero (cournot Q p alpha eta) 1 it s = Ok (it1, s1))
      as Hone by (cbn [iterates]; now rewrite (bind_ok _ _ _ _ _ Hstep)).
    destruct (finite_state s1 it1) eqn:Hfin1.
    + destruct (norm (it_fx it1) <? tol)%num eqn:Hnorm.
      * exists 1, it1, s1.
        split; [lia|]. split; [exact Hone|]. split; [exact Hfit1|].
        split; [exact Hfr1|]. split; [intros _; exact Href1|].
        right. exists (Converged (it_x it1)). split; reflexivity.
      * destruct (IH it1 s1 Hfit1)
          as (k & itk & sk & Hk & Hits & Hfitk & Hfrk & Href & Hend).
        exists (S k), itk, sk.
        split; [lia|].
        split; [now rewrite (iterates_step numerically_zero _ k s s1 it it1 Hstep)|].
        split; [exact Hfitk|].
        split; [eapply frame_trans; eassumption|].
        split.
        { intros _. destruct k as [|k'].
          - cbn [iterates] in Hits. injection Hits as <- <-. exact Href1.
          - apply Href. lia. }
        destruct Hend as [(Hk1 & Hbad & Hloop)|Hout].
        -- left. split; [lia|]. split; assumption.
        -- right. exact Hout.
    + exists 1, it1, s1.
      split; [lia|]. split; [exact Hone|]. split; [exact Hfit1|].
      split; [exact Hfr1|]. split; [intros _; exact Href1|].
      left. split; [lia|]. split; [exact Hfin1 | reflexivity].
Qed.

End SolverFacts.

(** ** Solve on the script's residual *)

Section SolveFacts.
Context {F : Type} `{Scalar F}.
Variable norm : list F -> F.
Variable numerically_zero : F -> bool.
Variables (Q : loc) (p : nd F) (alpha eta : F).
Hypothesis Heta : (eta =? #0)%num = false.

Local Abbreviation f := (cournot Q p alpha eta).

Lemma iterates_ok (n k : nat) :
  forall (it : iterate F) (s : Store F),
  fits Q p n s it ->
  exists (itk : iterate F) (s' : Store F),
    iterates numerically_zero f k it s = Ok (itk, s') /\
    fits Q p n s' itk /\
    frame Q s s' /\
    (1 <= k -> coefficient_ref Q s' = Some (it_x itk)).
Proof.
  induction k as [|k IH]; intros it s Hfit.
  - exists it, s. split; [reflexivity|]. split; [exact Hfit|].
    split; [apply frame_refl | lia].
  - destruct (fits_step numerically_zero Q p alpha eta Heta n s it Hfit)
      as (it1 & s1 & Hstep & Hfit1 & Hfr1 & Href1 & _).
    destruct (IH it1 s1 Hfit1) as (itk & s' & Hits & Hfitk & Hfrk & Href).
    exists itk, s'. cbn [iterates].
    rewrite (bind_ok _ _ _ _ _ Hstep).
    split; [exact Hits|]. split; [exact Hfitk|].
    split; [eapply frame_trans; eassumption|].
    intros _. destruct k as [|k'].
    + cbn [iterates] in Hits. injection Hits as <- <-. exact Href1.
    + apply Href. lia.
Qed.

(** The state in which the iteration starts: [fx0] has been evaluated and
    the approximant refers to [x0]. *)
Lemma solve_start (s : Store F) (x0 : loc) (o : Basis.t F) (xs : list F)
    (B : list (list F)) :
  objects s !! Q = Some o ->
  arrays s !! x0 = Some xs ->
  length xs = Basis.n o ->
  length B = Basis.n o ->
  length (entries p) = Basis.n o ->
  eval_residual f x0 s = Ok (residual_values o p alpha eta xs, install Q x0 o s) /\
  fits Q p (Basis.n o) (install Q x0 o s)
       (mkIterate x0 (residual_values o p alpha eta xs) B) /\
  frame Q s (install Q x0 o s) /\
  coefficient_ref Q (install Q x0 o s) = Some x0.
Proof.
  intros HQ Hx Hlen HB Hp.
  split; [now apply eval_residual_ok|].
  split; [|split].
  - split; [|split; [|split]].
    + exists (with_c o x0). split; [apply install_lookup | reflexivity].
    + exists xs. split; [exact Hx | exact Hlen].
    + exact HB.
    + exact Hp.
  - now apply frame_install.
  - unfold coefficient_ref. now rewrite install_lookup.
Qed.

Lemma iterate_at_ok (s : Store F) (x0 : loc) (o : Basis.t F) (xs : list F)
    (B : list (list F)) (j : nat) :
  objects s !! Q = Some o ->
  arrays s !! x0 = Some xs ->
  length xs = Basis.n o ->
  length B = Basis.n o ->
  length (entries p) = Basis.n o ->
  exists (itj : iterate F) (sj : Store F),
    iterate_at numerically_zero f x0 B j s = Ok (itj, sj) /\
    fits Q p (Basis.n o) sj itj /\
    frame Q s sj /\
    coefficient_ref Q sj = Some (it_x itj).
Proof.
  intros HQ Hx Hlen HB Hp.
  destruct (solve_start s x0 o xs B HQ Hx Hlen HB Hp) as (Hev & Hfit & Hfr & Href).
  destruct (iterates_ok (Basis.n o) j _ _ Hfit) as (itj & sj & Hits & Hfitj & Hfrj & Hrefj).
  exists itj, sj. unfold iterate_at. rewrite (bind_ok _ _ _ _ _ Hev).
  split; [exact Hits|]. split; [exact Hfitj|].
  split; [eapply frame_trans; eassumption|].
  destruct j as [|j'].
  - cbn [iterates] in Hits. injection Hits as <- <-. exact Href.
  - apply Hrefj. lia.
Qed.

Lemma fits_coefficients (n : nat) (s : Store F) (it : iterate F) :
  fits Q p n s it ->
  coefficient_ref Q s = Some (it_x it) ->
  exists xs, coefficients Q s = Some xs /\ arrays s !! it_x it = Some xs /\ length xs = n.
Proof.
  intros [_ [[xs [Hx Hlen]] _]] Href. exists xs.
  split; [|split; assumption].
  unfold coefficients, coefficient_ref in *.
  destruct (objects s !! Q) as [o|]; [|discriminate].
  simpl in *. injection Href as ->. exact Hx.
Qed.

(** Solve on the script's residual: the state it stops in, and how. *)
Lemma solve_cournot_outcome (tol : F) (max_iterations : nat) (s : Store F)
    (x0 : loc) (o : Basis.t F) (xs : list F) (B : list (list F)) :
  objects s !! Q = Some o ->
  arrays s !! x0 = Some xs ->
  length xs = Basis.n o ->
  length B = Basis.n o ->
  length (entries p) = Basis.n o ->
  exists (k : nat) (itk : iterate F) (sk : Store F),
    k <= max_iterations /\
    iterate_at numerically_zero f x0 B k s = Ok (itk, sk) /\
    fits Q p (Basis.n o) sk itk /\
    frame Q s sk /\
    coefficient_ref Q sk = Some (it_x itk) /\
    ((finite_state sk itk = false /\
      Solve norm numerically_zero f x0 B tol max_iterations s
        = Err ComputationFailure) \/
     (exists out : outcome,
        Solve norm numerically_zero f x0 B tol max_iterations s = Ok (out, sk) /\
        solution out = it_x itk)).
Proof.
  intros HQ Hx Hlen HB Hp.
  destruct (solve_start s x0 o xs B HQ Hx Hlen HB Hp) as (Hev & Hfit & Hfr & Href).
  rewrite (Solve_start norm numerically_zero f s _ x0 B _ tol max_iterations Hev).
  destruct (finite_state _ _) eqn:Hfin.
  - destruct (broyden_loop_ok norm numerically_zero Q p alpha eta Heta tol
                (Basis.n o) max_iterations _ _ Hfit)
      as (k & itk & sk & Hk & Hits & Hfitk & Hfrk & Hrefk & Hend).
    exists k, itk, sk.
    split; [exact Hk|].
    split; [now rewrite (iterate_at_start numerically_zero f s _ x0 B _ k Hev)|].
    split; [exact Hfitk|].
    split; [eapply frame_trans; eassumption|].
    split.
    { destruct k as [|k'].
      - cbn [iterates] in Hits. injection Hits as <- <-. exact Href.
      - apply Hrefk. lia. }
    destruct Hend as [(_ & Hbad & Hloop)|Hout].
    + left. split; assumption.
    + right. exact Hout.
  - eexists 0, _, _.
    split; [lia|].
    split; [now rewrite (iterate_at_start numerically_zero f s _ x0 B _ 0 Hev)|].
    split; [exact Hfit|]. split; [exact Hfr|]. split; [exact Href|].
    left. split; [exact Hfin | reflexivity].
Qed.

Lemma finite_state_total (st : Store F) (it : iterate F) (xs : list F) :
  (forall x : F, is_finite x = true) ->
  arrays st !! it_x it = Some xs ->
  finite_state st it = true.
Proof.
  intros Hfin Hx. unfold finite_state, all_finite. rewrite Hx.
  apply andb_true_intro. split; apply forallb_forall; intros x _; apply Hfin.
Qed.

(** Where every scalar is finite, as over the reals, Solve on the
    script's residual always returns an outcome. *)
Lemma solve_cournot_total (tol : F) (max_iterations : nat) (s : Store F)
    (x0 : loc) (o : Basis.t F) (xs : list F) (B : list (list F)) :
  (forall x : F, is_finite x = true) ->
  objects s !! Q = Some o ->
  arrays s !! x0 = Some xs ->
  length xs = Basis.n o ->
  length B = Basis.n o ->
  length (entries p) = Basis.n o ->
  exists (out : outcome) (s' : Store F),
    Solve norm numerically_zero f x0 B tol max_iterations s = Ok (out, s') /\
    frame Q s s'.
Proof.
  intros Hfin HQ Hx Hlen HB Hp.
  destruct (solve_cournot_outcome tol max_iterations s x0 o xs B HQ Hx Hlen HB Hp)
    as (k & itk & sk & _ & _ & Hfit & Hfr & _ & [(Hbad & _)|(out & Hsolve & _)]).
  - destruct Hfit as [_ [[xk [Hxk _]] _]].
    rewrite (finite_state_total sk itk xk Hfin Hxk) in Hbad. discriminate.
  - exists out, sk. split; assumption.
Qed.

End SolveFacts.

Section SolverTheorems.
Context {F : Type} `{Scalar F}.
Variable norm : list F -> F.
Variable numerically_zero : F -> bool.
Variables (Q : loc) (p : nd F) (alpha eta : F).
Hypothesis Heta : (eta =? #0)%num = false.

Local Abbreviation f := (cournot Q p alpha eta).

(** C2. Every call of [resid] first stores its coefficient argument in
    [Q.c] (the reference itself, no array is created or copied) and then
    evaluates [Q], which reads that very array; and after every residual
    evaluation of Solve, before the first iteration and after each later
    one, [Q.c] is the trial vector [x] the solver holds, so both read one
    array object. *)
Theorem resid_shares_coefficients (s : Store F) (c : loc) (o : Basis.t F)
    (cs : list F) (B : list (list F)) (q : nd F) :
  objects s !! Q = Some o ->
  arrays s !! c = Some cs ->
  length cs = Basis.n o ->
  (exists (r : nd F) (s' : Store F),
     resid c Q q alpha eta s = Ok (r, s') /\
     set_c Q c s = Ok (tt, s') /\
     call Q q s' = Ok (nd_map (evaluate1 (Basis.n o) (Basis.a o) (Basis.b o) cs) q, s') /\
     coefficient_ref Q s' = Some c /\
     coefficients Q s' = Some cs /\
     arrays s' = arrays s) /\
  (length B = Basis.n o ->
   length (entries p) = Basis.n o ->
   forall j : nat,
   exists (itj : iterate F) (sj : Store F) (xs : list F),
     iterate_at numerically_zero f c B j s = Ok (itj, sj) /\
     coefficient_ref Q sj = Some (it_x itj) /\
     coefficients Q sj = Some xs /\
     arrays sj !! it_x itj = Some xs).
Proof.
  intros HQ Hc Hlen. split.
  - eexists _, (install Q c o s).
    split; [now apply (resid_ok s c Q o cs)|].
    split; [now apply (set_c_ok s Q c o cs)|].
    split; [apply (call_ok _ Q (with_c o c) cs q); [apply install_lookup | exact Hc]|].
    split; [unfold coefficient_ref; now rewrite install_lookup|].
    split; [|reflexivity].
    unfold coefficients. rewrite install_lookup. exact Hc.
  - intros HB Hp j.
    destruct (iterate_at_ok numerically_zero Q p alpha eta Heta s c o cs B j HQ Hc Hlen HB Hp)
      as (itj & sj & Hit & Hfit & _ & Href).
    destruct (fits_coefficients Q p _ sj itj Hfit Href) as (xs & Hcoef & Hx & _).
    exists itj, sj, xs. repeat split; assumption.
Qed.

End SolverTheorems.

(** ** The bisection loop over the reals *)

Section BisectionFacts.
Variable pow : R -> R -> R.
#[local] Existing Instance R_Scalar.
Local Abbreviation RS := (R_Scalar pow).
Local Open Scope R_scope.

Lemma sign_cases (x : R) :
  @sign R RS x = 1 \/ @sign R RS x = -1 \/ @sign R RS x = 0.
Proof.
  unfold sign. cbn [fltb feqb fofZ RS R_Scalar]. unfold Rltb, Reqb.
  destruct (Rlt_dec 0 x); [now left|].
  destruct (Rlt_dec x 0); [right; now left|].
  destruct (Req_dec_T x 0); [right; now right|].
  exfalso. lra.
Qed.

Lemma Forall_zip_with_sub (P S T : R -> Prop) (xs ys : list R) :
  (forall x y, P x -> S y -> T (x - y)) ->
  Forall P xs -> Forall S ys -> Forall T (zip_with Rminus xs ys).
Proof.
  intros HT HP. revert ys. induction HP as [|x xs Hx _ IH]; intros ys HS.
  - constructor.
  - destruct HS as [|y ys Hy HS]; [constructor|].
    simpl. constructor; [now apply HT | now apply IH].
Qed.

Lemma Forall_move (dp : R) (zs : list R) :
  Forall (fun y => y = dp \/ y = - dp \/ y = 0)
         (map (fun v => @sign R RS v * dp) zs).
Proof.
  apply List.Forall_forall. intros y Hy. apply in_map_iff in Hy as [v [<- _]].
  destruct (sign_cases v) as [-> | [-> | ->]]; lra.
Qed.

Lemma broadcast_equal_length (h : R -> R -> R) (xs ys : list R) :
  length xs = length ys ->
  @broadcast R h (Ar xs) (Ar ys) = Ok (Ar (zip_with h xs ys)).
Proof.
  intros Hlen. simpl. destruct (decide _) as [_|Hne]; [reflexivity | contradiction].
Qed.

Lemma broadcast_array_scalar (h : R -> R -> R) (xs : list R) (y : R) :
  @broadcast R h (Ar xs) (Sc y) = Ok (Ar (map (fun x => h x y) xs)).
Proof. reflexivity. Qed.

(** Python's power of a positive base is the real power. *)
Lemma py_pow_positive (x y : R) : 0 < x -> @py_pow R RS x y = Ok (pow x y).
Proof.
  intros Hx. unfold py_pow, is_finite.
  cbn [feqb fltb fsub fofZ fpow fisint RS R_Scalar]. unfold Reqb, Rltb.
  destruct (Req_dec_T x 0) as [Hx0|_]; [lra|].
  destruct (Rlt_dec x 0) as [Hneg|_]; [lra|]. cbn [andb].
  destruct (Req_dec_T (x - x) 0) as [_|Hne]; [|lra].
  destruct (Req_dec_T (y - y) 0) as [_|Hne]; [|lra].
  destruct (Req_dec_T (pow x y - pow x y) 0) as [_|Hne]; [reflexivity | lra].
Qed.

(** One pass through the loop body: the store is only read, [dp] is
    halved, and every entry of the new [pp] is an entry of the old one
    moved by [dp/2], by [-dp/2] or not at all. *)
Lemma bisect_body_ok (s : Store R) (Q : loc) (o : Basis.t R) (cs ms : list R)
    (eta dp : R) (pp : nd R) (P T : R -> Prop) :
  objects s !! Q = Some o ->
  arrays s !! Basis.c o = Some cs ->
  (forall x y, P x -> y = dp / 2 \/ y = - (dp / 2) \/ y = 0 -> T (x - y)) ->
  (exists x, pp = Sc x /\ 0 < x) \/
  (exists xs, pp = Ar xs /\ length xs = length ms) ->
  Forall P (entries pp) ->
  exists xs',
    @bisect_body R RS Q (Ar ms) eta (pp, dp) s = Ok ((Ar xs', dp / 2), s) /\
    length xs' = length ms /\
    Forall T xs'.
Proof.
  intros HQ Hc HT Hshape HP. unfold bisect_body. cbn [fst snd].
  rewrite (bind_ok _ _ _ _ _ (call_ok s Q o cs pp HQ Hc)).
  set (ev := evaluate1 (Basis.n o) (Basis.a o) (Basis.b o) cs).
  destruct Hshape as [[x [-> Hx0]] | [xs [-> Hlen]]].
  - exists (map (fun mi => x - @sign R RS (ev x * mi - pow x (- eta)) * (dp / 2)) ms).
    split; [|split].
    + unfold np_mul, np_pow, np_sub, np_sign, pow_value.
      rewrite (py_pow_positive x _ Hx0).
      cbn [andb nd_map broadcast mbind M_bind result_bind lift mret M_ret
           fmul fsub fpow fneg fdiv fofZ RS R_Scalar].
      rewrite !List.map_map. reflexivity.
    + now rewrite List.length_map.
    + apply List.Forall_forall. intros y Hy. apply in_map_iff in Hy as [mi [<- _]].
      apply HT; [now inversion HP|].
      destruct (sign_cases (ev x * mi - pow x (- eta))) as [-> | [-> | ->]]; lra.
  - set (zs := zip_with Rminus (zip_with Rmult (map ev xs) ms)
                 (map (fun v => pow v (- eta)) xs)).
    assert (length zs = length ms) as Hzs.
    { unfold zs. rewrite !length_zip_with, !List.length_map. lia. }
    exists (zip_with Rminus xs (map (fun v => @sign R RS v * (dp / 2)) zs)).
    split; [|split].
    + unfold np_mul, np_sub, np_sign.
      cbn [pow_value nd_map lift fmul fsub fpow fneg fdiv fofZ RS R_Scalar].
      unfold np_pow. cbn [fpow RS R_Scalar].
      rewrite (broadcast_equal_length Rmult (map ev xs) ms)
        by now rewrite List.length_map.
      cbn [mbind result_bind].
      rewrite (broadcast_array_scalar pow xs (- eta)).
      cbn [mbind result_bind].
      rewrite (broadcast_equal_length Rminus _ (map (fun x => pow x (- eta)) xs))
        by (rewrite length_zip_with, !List.length_map; lia).
      cbn [mbind result_bind nd_map]. fold zs.
      rewrite (broadcast_array_scalar Rmult _ (dp / 2)).
      cbn [mbind result_bind]. rewrite List.map_map.
      rewrite (broadcast_equal_length Rminus xs)
        by (rewrite List.length_map; lia).
      reflexivity.
    + rewrite length_zip_with, List.length_map. lia.
    + apply (Forall_zip_with_sub P (fun y => y = dp / 2 \/ y = - (dp / 2) \/ y = 0) T);
        [exact HT | exact HP | apply Forall_move].
Qed.

(** After [k] passes [dp] is [(b-a)/2^(k+1)] and every entry of [pp] is
    within [(b-a)/2 - dp] of the midpoint. *)
Lemma bisection_invariant (s : Store R) (Q : loc) (o : Basis.t R) (cs : list R)
    (a b eta : R) (k : nat) :
  objects s !! Q = Some o ->
  arrays s !! Basis.c o = Some cs ->
  a < b ->
  0 < a + b ->
  exists (pp : nd R) (dp : R),
    @bisection R RS k Q a b eta s = Ok ((pp, dp), s) /\
    dp = (b - a) / 2 / 2 ^ k /\
    (pp = Sc ((b + a) / 2) \/ (exists xs, pp = Ar xs /\ length xs = 25%nat)) /\
    ((1 <= k)%nat -> length (entries pp) = 25%nat) /\
    Forall (fun e => (b + a) / 2 - ((b - a) / 2 - dp) <= e
                     <= (b + a) / 2 + ((b - a) / 2 - dp)) (entries pp).
Proof.
  intros HQ Hc Hab Hmid. induction k as [|k IH].
  - exists (Sc ((b + a) / 2)), ((b - a) / 2).
    split; [reflexivity|]. split; [simpl; lra|].
    split; [now left|]. split; [lia|].
    constructor; [lra | constructor].
  - destruct IH as (pp & dp & Hrun & Hdp & Hshape & _ & Hin).
    assert (0 < dp) as Hpos.
    { rewrite Hdp. apply Rdiv_lt_0_compat; [lra | apply pow_lt; lra]. }
    set (ms := map (fun i => IZR (Z.of_nat i)) (seq 1 (26 - 1))).
    assert (length ms = 25%nat) as Hms by reflexivity.
    destruct (bisect_body_ok s Q o cs ms eta dp pp
                (fun e => (b + a) / 2 - ((b - a) / 2 - dp) <= e
                          <= (b + a) / 2 + ((b - a) / 2 - dp))
                (fun e => (b + a) / 2 - ((b - a) / 2 - dp / 2) <= e
                          <= (b + a) / 2 + ((b - a) / 2 - dp / 2))
                HQ Hc)
      as (xs' & Hbody & Hlen' & Hin').
    + intros x y Hx [-> | [-> | ->]]; lra.
    + destruct Hshape as [-> | [xs [-> Hlen]]].
      * left. exists ((b + a) / 2). split; [reflexivity | lra].
      * right. exists xs. split; [reflexivity | now rewrite Hms].
    + exact Hin.
    + exists (Ar xs'), (dp / 2).
      split.
      { unfold bisection in *. cbn [for_range].
        rewrite (bind_ok _ _ _ _ _ Hrun). exact Hbody. }
      split.
      { rewrite Hdp. simpl. field. apply pow_nonzero. lra. }
      split; [right; exists xs'; split; [reflexivity | now rewrite Hlen', Hms]|].
      split; [intros _; simpl; now rewrite Hlen', Hms|].
      exact Hin'.
Qed.

(** C9. On a domain whose midpoint is positive (the prices of the script
    are) the loop runs 50 passes from [pp = (b+a)/2], [dp = (b-a)/2];
    after each pass [k] (and so after each of the 50) [dp] is
    [(b-a)/2/2^k], every entry of [pp] is within
    [(b-a)/2 * (1 - 1/2^k)] of the midpoint, hence strictly between [a]
    and [b]. *)
Theorem bisection_stays_inside (s : Store R) (Q : loc) (o : Basis.t R)
    (cs : list R) (a b eta : R) :
  objects s !! Q = Some o ->
  arrays s !! Basis.c o = Some cs ->
  a < b ->
  0 < a + b ->
  (forall k : nat,
   exists (pp : nd R) (dp : R),
     @bisection R RS k Q a b eta s = Ok ((pp, dp), s) /\
     dp = (b - a) / 2 / 2 ^ k /\
     Forall (fun e => Rabs (e - (b + a) / 2) <= (b - a) / 2 * (1 - 1 / 2 ^ k))
            (entries pp) /\
     Forall (fun e => a < e < b) (entries pp)) /\
  exists (pp : nd R) (dp : R),
    @bisection R RS 50 Q a b eta s = Ok ((pp, dp), s) /\
    @equilibrium_price R RS Q a b eta s = Ok (pp, s) /\
    length (entries pp) = 25%nat /\
    Forall (fun e => a < e < b) (entries pp).
Proof.
  intros HQ Hc Hab Hmid.
  assert (forall k : nat,
    exists (pp : nd R) (dp : R),
      @bisection R RS k Q a b eta s = Ok ((pp, dp), s) /\
      dp = (b - a) / 2 / 2 ^ k /\
      ((1 <= k)%nat -> length (entries pp) = 25%nat) /\
      Forall (fun e => Rabs (e - (b + a) / 2) <= (b - a) / 2 * (1 - 1 / 2 ^ k))
             (entries pp) /\
      Forall (fun e => a < e < b) (entries pp)) as Hall.
  { intros k.
    destruct (bisection_invariant s Q o cs a b eta k HQ Hc Hab Hmid)
      as (pp & dp & Hrun & Hdp & _ & Hcount & Hin).
    assert (0 < dp) as Hpos.
    { rewrite Hdp. apply Rdiv_lt_0_compat; [lra | apply pow_lt; lra]. }
    assert ((b - a) / 2 * (1 - 1 / 2 ^ k) = (b - a) / 2 - dp) as Hsum.
    { rewrite Hdp. field. apply pow_nonzero. lra. }
    exists pp, dp. split; [exact Hrun|]. split; [exact Hdp|].
    split; [exact Hcount|]. split.
    - rewrite Hsum. eapply Forall_impl; [exact Hin|].
      intros e He. simpl in He. apply Rabs_le. lra.
    - eapply Forall_impl; [exact Hin|].
      intros e He. simpl in He. lra. }
  split.
  - intros k. destruct (Hall k) as (pp & dp & H1 & H2 & _ & H3 & H4).
    exists pp, dp. repeat split; assumption.
  - destruct (Hall 50%nat) as (pp & dp & H1 & _ & H2 & _ & H4).
    exists pp, dp. split; [exact H1|].
    split; [unfold equilibrium_price; now rewrite (bind_ok _ _ _ _ _ H1)|].
    split; [apply H2; lia | exact H4].
Qed.

End BisectionFacts.

(** ** The collocation nodes over the reals *)

Section NodeFacts.
Variable pow : R -> R -> R.
Local Abbreviation RS := (R_Scalar pow).
Local Open Scope R_scope.

Lemma angle_range (n i : nat) :
  (i < n)%nat -> 0 < @angle R RS n i < PI.
Proof.
  intros Hi. unfold angle. cbn [fmul fdiv fofZ fpi RS R_Scalar].
  assert (0 < IZR (2 * Z.of_nat n)) as Hn by (apply IZR_lt; lia).
  assert (0 < IZR (2 * Z.of_nat i + 1)) as Hi0 by (apply IZR_lt; lia).
  assert (IZR (2 * Z.of_nat i + 1) < IZR (2 * Z.of_nat n)) as Hlt by (apply IZR_lt; lia).
  pose proof PI_RGT_0 as Hpi.
  split.
  - apply Rdiv_lt_0_compat; [|exact Hn]. apply Rmult_lt_0_compat; assumption.
  - apply (Rmult_lt_reg_r (IZR (2 * Z.of_nat n))); [exact Hn|].
    unfold Rdiv. rewrite Rmult_assoc, Rinv_l by lra. nra.
Qed.

Lemma angle_increasing (n i j : nat) :
  (i < j)%nat -> (j < n)%nat -> @angle R RS n i < @angle R RS n j.
Proof.
  intros Hij Hj. unfold angle. cbn [fmul fdiv fofZ fpi RS R_Scalar].
  assert (0 < IZR (2 * Z.of_nat n)) as Hn by (apply IZR_lt; lia).
  assert (IZR (2 * Z.of_nat i + 1) < IZR (2 * Z.of_nat j + 1)) as Hlt by (apply IZR_lt; lia).
  pose proof PI_RGT_0 as Hpi.
  unfold Rdiv. apply Rmult_lt_compat_r; [now apply Rinv_0_lt_compat|].
  now apply Rmult_lt_compat_l.
Qed.

Lemma node_decreasing (n : nat) (a b : R) (i j : nat) :
  a < b -> (i < j)%nat -> (j < n)%nat ->
  @node R RS n a b j < @node R RS n a b i.
Proof.
  intros Hab Hij Hj. unfold node. cbn [fadd fsub fmul fdiv fofZ fcos RS R_Scalar].
  pose proof (angle_range n i ltac:(lia)) as [Hi0 Hi1].
  pose proof (angle_range n j Hj) as [Hj0 Hj1].
  pose proof (angle_increasing n i j Hij Hj) as Hinc.
  pose proof (cos_decreasing_1 (@angle R RS n i) (@angle R RS n j)
                ltac:(lra) ltac:(lra) ltac:(lra) ltac:(lra) Hinc) as Hcos.
  apply Rplus_lt_compat_l. apply Rmult_lt_compat_l; [lra | exact Hcos].
Qed.

Lemma node_inside (n : nat) (a b : R) (i : nat) :
  a < b -> a <= @node R RS n a b i <= b.
Proof.
  intros Hab. unfold node. cbn [fadd fsub fmul fdiv fofZ fcos RS R_Scalar].
  pose proof (COS_bound (@angle R RS n i)) as [Hlo Hhi].
  split; nra.
Qed.

Lemma node_injective (n : nat) (a b : R) (i j : nat) :
  a < b -> (i < n)%nat -> (j < n)%nat ->
  @node R RS n a b i = @node R RS n a b j -> i = j.
Proof.
  intros Hab Hi Hj Heq.
  destruct (Nat.lt_trichotomy i j) as [Hlt | [-> | Hgt]]; [|reflexivity|].
  - pose proof (node_decreasing n a b i j Hab Hlt Hj). lra.
  - pose proof (node_decreasing n a b j i Hab Hgt Hi). lra.
Qed.

Lemma chebnodes_NoDup (n : nat) (a b : R) :
  a < b -> NoDup (@chebnodes R RS n a b).
Proof.
  intros Hab. unfold chebnodes. apply NoDup_ListNoDup.
  apply NoDup_map_NoDup_ForallPairs; [|apply List.seq_NoDup].
  intros i j Hi Hj Heq. apply in_seq in Hi, Hj.
  apply (node_injective n a b); [exact Hab | lia | lia | exact Heq].
Qed.

Lemma chebnodes_inside (n : nat) (a b : R) :
  a < b -> Forall (fun x => a <= x <= b) (@chebnodes R RS n a b).
Proof.
  intros Hab. unfold chebnodes. apply List.Forall_forall.
  intros x Hx. apply in_map_iff in Hx as [i [<- _]]. now apply node_inside.
Qed.

(** The nodes are listed from the one nearest [b] down to the one
    nearest [a]. *)
Lemma chebnodes_sorted (n : nat) (a b : R) (i j : nat) (x y : R) :
  a < b -> (i < j)%nat ->
  nth_error (@chebnodes R RS n a b) i = Some x ->
  nth_error (@chebnodes R RS n a b) j = Some y ->
  y < x.
Proof.
  intros Hab Hij Hx Hy.
  assert (j < n)%nat as Hj.
  { rewrite <- (@length_chebnodes R RS n a b). apply nth_error_Some. congruence. }
  unfold chebnodes in *.
  rewrite nth_error_map in Hx, Hy.
  rewrite nth_error_seq in Hx, Hy.
  destruct (Nat.ltb_spec i n) as [_|Hi']; [|lia].
  destruct (Nat.ltb_spec j n) as [_|Hj']; [|lia].
  simpl in Hx, Hy. injection Hx as <-. injection Hy as <-.
  now apply node_decreasing.
Qed.

End NodeFacts.

(** ** Construction, and what later operations leave alone *)

Section ConstructFacts.
Context {F : Type} `{Scalar F}.

Lemma set_c_frame (s s' : Store F) (Q c : loc) :
  set_c Q c s = Ok (tt, s') -> frame Q s s'.
Proof.
  unfold set_c, mbind, M_bind, read_object, read_array.
  destruct (objects s !! Q) as [o|] eqn:HQ; [|discriminate].
  destruct (arrays s !! c) as [cs|]; [|discriminate].
  destruct (decide _); [|discriminate].
  unfold write_object. intros [= <-].
  apply (frame_install Q c o s HQ).
Qed.

Lemma call_store (s s' : Store F) (Q : loc) (p r : nd F) :
  call Q p s = Ok (r, s') -> s' = s.
Proof.
  unfold call, mbind, M_bind, read_object, read_array.
  destruct (objects s !! Q) as [o|]; [|discriminate].
  destruct (arrays s !! Basis.c o) as [cs|]; [|discriminate].
  now intros [= _ <-].
Qed.

Lemma resid_frame (s s' : Store F) (c Q : loc) (p r : nd F) (alpha eta : F) :
  resid c Q p alpha eta s = Ok (r, s') -> frame Q s s'.
Proof.
  unfold resid. unfold mbind at 1. unfold M_bind at 1.
  destruct (set_c Q c s) as [[[] s1]|] eqn:Hset; [|discriminate].
  unfold mbind at 1. unfold M_bind at 1.
  destruct (call Q p s1) as [[q s2]|] eqn:Hcall; [|discriminate].
  apply call_store in Hcall. subst s2.
  unfold lift. destruct (_ ≫= _) as [r'|]; [|discriminate].
  intros [= _ <-]. now apply set_c_frame in Hset.
Qed.

(** The constructor on a valid domain and degree. *)
Lemma Construct_ok (s : Store F) (n : nat) (a b : F) (c : option loc) :
  ((b <? a) || (b =? a))%num = false ->
  1 <= n ->
  match c with
  | Some l => exists cs, arrays s !! l = Some cs /\ length cs = n
  | None => True
  end ->
  exists (Q : loc) (s' : Store F) (nl cl : loc) (cs : list F),
    Construct n a b c s = Ok (Q, s') /\
    objects s !! Q = None /\
    objects s' = <[Q := Basis.mk n a b nl cl]> (objects s) /\
    arrays s ⊆ arrays s' /\
    arrays s !! nl = None /\
    arrays s' !! nl = Some (chebnodes n a b) /\
    arrays s' !! cl = Some cs /\
    length cs = n /\
    match c with Some l => cl = l | None => arrays s !! cl = None end.
Proof.
  intros Hdom Hn Hc. unfold Construct. rewrite Hdom.
  destruct (decide (n < 1)) as [Hlt|_]; [lia|].
  set (nl := fresh (dom (arrays s))).
  set (s1 := mkStore (<[nl := chebnodes n a b]> (arrays s)) (objects s)).
  assert (alloc_array (chebnodes n a b) s = Ok (nl, s1)) as Hnl by reflexivity.
  rewrite (bind_ok _ _ _ _ _ Hnl).
  assert (arrays s !! nl = None) as Hfresh by apply fresh_array_None.
  destruct c as [l|].
  - destruct Hc as [cs [Hl Hlen]].
    assert (arrays s1 !! l = Some cs) as Hl1.
    { simpl. rewrite lookup_insert_ne; [exact Hl | congruence]. }
    cbn [initial_c]. unfold mbind at 1. unfold M_bind at 1. cbn [mret M_ret].
    unfold mbind at 1. unfold M_bind at 1. unfold read_array at 1. rewrite Hl1.
    destruct (decide (length cs = n)) as [_|Hne]; [|contradiction].
    exists (fresh (dom (objects s))), (mkStore (arrays s1) (<[fresh (dom (objects s)) := Basis.mk n a b nl l]> (objects s))), nl, l, cs.
    split; [reflexivity|].
    split; [apply not_elem_of_dom, is_fresh|].
    split; [reflexivity|].
    split; [simpl; now apply insert_subseteq|].
    split; [exact Hfresh|].
    split; [simpl; apply lookup_insert_eq|].
    split; [exact Hl1|]. split; [exact Hlen | reflexivity].
  - set (cl := fresh (dom (arrays s1))).
    set (s2 := mkStore (<[cl := repeat #0%num n]> (arrays s1)) (objects s1)).
    assert (arrays s1 !! cl = None) as Hfresh1 by apply fresh_array_None.
    assert (cl <> nl) as Hne.
    { intros Heq. rewrite Heq in Hfresh1. simpl in Hfresh1.
      now rewrite lookup_insert_eq in Hfresh1. }
    cbn [initial_c].
    assert (alloc_array (repeat #0%num n) s1 = Ok (cl, s2)) as Hcl by reflexivity.
    rewrite (bind_ok _ _ _ _ _ Hcl).
    unfold mbind at 1. unfold M_bind at 1. unfold read_array at 1.
    assert (arrays s2 !! cl = Some (repeat #0%num n)) as Hcl2
      by (simpl; apply lookup_insert_eq).
    rewrite Hcl2. rewrite repeat_length.
    destruct (decide (n = n)) as [_|Hnn]; [|contradiction].
    exists (fresh (dom (objects s))), (mkStore (arrays s2) (<[fresh (dom (objects s)) := Basis.mk n a b nl cl]> (objects s))), nl, cl, (repeat #0%num n).
    split; [reflexivity|].
    split; [apply not_elem_of_dom, is_fresh|].
    split; [reflexivity|].
    split.
    { simpl. etransitivity; [apply (insert_subseteq _ nl); exact Hfresh|].
      apply insert_subseteq. exact Hfresh1. }
    split; [exact Hfresh|].
    split.
    { simpl. rewrite lookup_insert_ne by exact Hne. apply lookup_insert_eq. }
    split; [exact Hcl2|]. split; [apply repeat_length|].
    simpl in Hfresh1. rewrite lookup_insert_ne in Hfresh1; [exact Hfresh1 | congruence].
Qed.

End ConstructFacts.

Section NodeTheorems.
Variable pow : R -> R -> R.
Local Abbreviation RS := (R_Scalar pow).
Local Open Scope R_scope.

Lemma valid_domain (a b : R) :
  a < b -> (@fltb R RS b a || @feqb R RS b a) = false.
Proof.
  intros Hab. cbn [fltb feqb RS R_Scalar]. unfold Rltb, Reqb.
  destruct (Rlt_dec b a); [lra|]. destruct (Req_dec_T b a); [lra | reflexivity].
Qed.

(** Every real number is finite. *)
Lemma R_is_finite (x : R) : @is_finite R RS x = true.
Proof.
  unfold is_finite. cbn [feqb fsub fofZ RS R_Scalar]. unfold Reqb.
  destruct (Req_dec_T (x - x) 0) as [_|Hne]; [reflexivity | lra].
Qed.

(** C4. For every degree [n >= 1] and domain [a < b] the constructor
    succeeds, and the node array of the new approximant holds exactly [n]
    pairwise distinct points, all in [[a,b]].  No later operation changes
    it: not the assignment [Q.c = c], not a call of [resid], not Solve. *)
Theorem nodes_distinct_inside_fixed (s : Store R) (n : nat) (a b : R)
    (c : option loc) :
  (1 <= n)%nat ->
  a < b ->
  match c with
  | Some l => exists cs, arrays s !! l = Some cs /\ length cs = n
  | None => True
  end ->
  exists (Q : loc) (s' : Store R) (v : list R),
    @Construct R RS n a b c s = Ok (Q, s') /\
    node_values Q s' = Some v /\
    length v = n /\
    NoDup v /\
    (forall i j x, v !! i = Some x -> v !! j = Some x -> i = j) /\
    Forall (fun x => a <= x <= b) v /\
    (forall s1 c1 s2,
       node_values Q s1 = Some v ->
       @set_c R Q c1 s1 = Ok (tt, s2) -> node_values Q s2 = Some v) /\
    (forall s1 c1 p alpha eta r s2,
       node_values Q s1 = Some v ->
       @resid R RS c1 Q p alpha eta s1 = Ok (r, s2) -> node_values Q s2 = Some v) /\
    (forall norm numerically_zero alpha eta x0 B tol max_iterations s1 o xs,
       node_values Q s1 = Some v ->
       @feqb R RS eta 0%R = false ->
       objects s1 !! Q = Some o ->
       arrays s1 !! x0 = Some xs ->
       length xs = Basis.n o ->
       length B = Basis.n o ->
       length v = Basis.n o ->
       exists out s2,
         @Solve R RS norm numerically_zero (@cournot R RS Q (Ar v) alpha eta)
                x0 B tol max_iterations s1 = Ok (out, s2) /\
         node_values Q s2 = Some v).
Proof.
  intros Hn Hab Hc.
  destruct (@Construct_ok R RS s n a b c (valid_domain a b Hab) Hn Hc)
    as (Q & s' & nl & cl & cs & Hrun & _ & Hobj & _ & _ & Hnl & _ & _ & _).
  exists Q, s', (@chebnodes R RS n a b).
  split; [exact Hrun|].
  split.
  { unfold node_values. rewrite Hobj, lookup_insert_eq. exact Hnl. }
  split; [apply length_chebnodes|].
  split; [now apply chebnodes_NoDup|].
  split.
  { intros i j x Hi Hj.
    eapply NoDup_lookup; [apply chebnodes_NoDup; exact Hab | exact Hi | exact Hj]. }
  split; [now apply chebnodes_inside|].
  split; [|split].
  - intros s1 c1 s2 Hv Hset. apply set_c_frame in Hset.
    eapply frame_node_values; eassumption.
  - intros s1 c1 p alpha eta r s2 Hv Hres. apply resid_frame in Hres.
    eapply frame_node_values; eassumption.
  - intros norm nz alpha eta x0 B tol maxit s1 o xs Hv Heta Ho Hx Hlen HB Hp.
    destruct (@solve_cournot_total R RS norm nz Q (Ar (@chebnodes R RS n a b))
                alpha eta Heta tol maxit s1 x0 o xs B R_is_finite Ho Hx Hlen HB Hp)
      as (out & s2 & Hsolve & Hfr).
    exists out, s2. split; [exact Hsolve|].
    eapply frame_node_values; eassumption.
Qed.

End NodeTheorems.

(** ** Square roots of negative quantities *)

Section NaNFacts.
Variable pow : b64 -> b64 -> b64.
Variable cosf : b64 -> b64.
Local Abbreviation BS := (b64_Scalar pow cosf).

Lemma SFsub_nan_r (x : b64) : SFsub b64_prec b64_emax x S754_nan = S754_nan.
Proof. now destruct x. Qed.

Lemma SFsub_nan_l (y : b64) : SFsub b64_prec b64_emax S754_nan y = S754_nan.
Proof. reflexivity. Qed.

Lemma SFmul_nan_r (x : b64) : SFmul b64_prec b64_emax x S754_nan = S754_nan.
Proof. now destruct x. Qed.

Lemma SFsqrt_negative (m : positive) (e : Z) :
  SFsqrt b64_prec b64_emax (S754_finite true m e) = S754_nan.
Proof. reflexivity. Qed.

(** Where the quantity has no real square root the residual is NaN,
    whatever [pow] returns. *)
Lemma residual_formula_nan (alpha eta q x : b64) :
  SFsqrt b64_prec b64_emax q = S754_nan ->
  @residual_formula b64 BS alpha eta q x = S754_nan.
Proof.
  intros Hq. unfold residual_formula.
  cbn [fadd fsub fmul fdiv fpow fsqrt fofZ BS b64_Scalar].
  now rewrite Hq, SFmul_nan_r, SFsub_nan_r, SFsub_nan_l.
Qed.

Lemma demo_eta_ok : @feqb b64 BS Demo.eta (@fofZ b64 BS 0) = false.
Proof. reflexivity. Qed.

Lemma demo_c1_lookup :
  arrays (Demo.store pow cosf) !! Demo.c1
    = Some (<[0%nat := b64_ofZ (-1)]> (repeat (b64_ofZ 0) Demo.n)).
Proof. unfold Demo.store. simpl. apply lookup_insert_eq. Qed.

Lemma demo_Q_lookup :
  objects (Demo.store pow cosf) !! Demo.Q
    = Some (Basis.mk Demo.n Demo.a Demo.b 2%positive Demo.c0).
Proof. unfold Demo.store. simpl. apply lookup_insert_eq. Qed.

Lemma demo_c0_lookup :
  arrays (Demo.store pow cosf) !! Demo.c0 = Some (@c0_values b64 BS Demo.n).
Proof.
  unfold Demo.store. simpl.
  rewrite lookup_insert_ne by discriminate.
  rewrite lookup_insert_ne by discriminate.
  apply lookup_insert_eq.
Qed.

(** With the coefficients [c1] the approximant is the constant [-1]. *)
Lemma demo_negative_quantity :
  map (@evaluate1 b64 BS Demo.n Demo.a Demo.b
         (<[0%nat := b64_ofZ (-1)]> (repeat (b64_ofZ 0) Demo.n)))
      (entries Demo.prices)
  = repeat (S754_finite true 4503599627370496 (-52)) Demo.n.
Proof. vm_compute. reflexivity. Qed.

(** C10. [resid] is not total over the reals: for the script's
    approximant, the coefficient vector [(-1, 0, ..., 0)] and prices in the
    domain, every entry of [q = Q(p)] is negative, and [resid] returns,
    without raising, a vector all of whose entries are NaN.  The solver's
    residual evaluation passes that vector on, so the iteration sees
    non-finite residuals. *)
Theorem resid_returns_nan :
  exists (c : loc) (p q r : nd b64) (s' : Store b64),
    arrays (Demo.store pow cosf) !! c
      = Some (<[0%nat := b64_ofZ (-1)]> (repeat (b64_ofZ 0) Demo.n)) /\
    @set_c b64 Demo.Q c (Demo.store pow cosf) = Ok (tt, s') /\
    @call b64 BS Demo.Q p s' = Ok (q, s') /\
    Forall (fun x => SFltb x (b64_ofZ 0) = true) (entries q) /\
    @resid b64 BS c Demo.Q p Demo.alpha Demo.eta (Demo.store pow cosf) = Ok (r, s') /\
    length (entries r) = Demo.n /\
    Forall (fun x => is_nan x = true) (entries r) /\
    @eval_residual b64 (@cournot b64 BS Demo.Q p Demo.alpha Demo.eta) c
      (Demo.store pow cosf) = Ok (entries r, s').
Proof.
  set (o := Basis.mk Demo.n Demo.a Demo.b 2%positive Demo.c0).
  set (cs := <[0%nat := b64_ofZ (-1)]> (repeat (b64_ofZ 0) Demo.n)).
  set (ev := @evaluate1 b64 BS Demo.n Demo.a Demo.b cs).
  assert (length cs = Basis.n o) as Hlen by reflexivity.
  assert (forall x, In x (entries Demo.prices) ->
            ev x = S754_finite true 4503599627370496 (-52)) as Hq.
  { intros x Hx. pose proof demo_negative_quantity as Hall.
    fold cs in Hall. fold ev in Hall.
    assert (In (ev x) (map ev (entries Demo.prices))) as Hin by now apply in_map.
    rewrite Hall in Hin. now apply repeat_spec in Hin. }
  exists Demo.c1, Demo.prices, (nd_map ev Demo.prices),
    (nd_map (fun x => @residual_formula b64 BS Demo.alpha Demo.eta (ev x) x) Demo.prices),
    (install Demo.Q Demo.c1 o (Demo.store pow cosf)).
  split; [apply demo_c1_lookup|].
  split; [apply (set_c_ok _ Demo.Q Demo.c1 o cs demo_Q_lookup demo_c1_lookup Hlen)|].
  split.
  { apply (call_ok _ Demo.Q (with_c o Demo.c1) cs);
      [apply install_lookup | apply demo_c1_lookup]. }
  split.
  { rewrite entries_nd_map. apply List.Forall_forall. intros y Hy.
    apply in_map_iff in Hy as [x [<- Hx]]. now rewrite (Hq x Hx). }
  split; [apply (resid_ok _ Demo.c1 Demo.Q o cs _ _ _ demo_Q_lookup demo_c1_lookup Hlen demo_eta_ok)|].
  split; [now rewrite entries_nd_map, List.length_map|].
  split.
  { rewrite entries_nd_map. apply List.Forall_forall. intros y Hy.
    apply in_map_iff in Hy as [x [<- Hx]].
    rewrite residual_formula_nan; [reflexivity|]. now rewrite (Hq x Hx). }
  rewrite entries_nd_map.
  assert (length (entries Demo.prices) = Basis.n o) as Hp by reflexivity.
  pose proof (@eval_residual_ok b64 BS Demo.Q Demo.prices Demo.alpha Demo.eta
                demo_eta_ok (Demo.store pow cosf) Demo.c1 o cs
                demo_Q_lookup demo_c1_lookup Hlen Hp) as Hev.
  unfold residual_values in Hev. exact Hev.
Qed.

End NaNFacts.

(** ** Division and addition in binary64 do not invent a NaN *)

Section FloatFacts.

Lemma shr_1_nonneg (mrs : shr_record) :
  (0 <= shr_m mrs)%Z -> (0 <= shr_m (shr_1 mrs))%Z.
Proof. destruct mrs as [m r s0]. destruct m as [|[q|q|]|q]; simpl; lia. Qed.

Lemma iter_pos_nonneg (p : positive) :
  forall mrs : shr_record,
  (0 <= shr_m mrs)%Z -> (0 <= shr_m (SpecFloat.iter_pos shr_1 p mrs))%Z.
Proof.
  induction p as [p IH|p IH|]; intros mrs Hm; simpl.
  - apply IH, IH, shr_1_nonneg, Hm.
  - apply IH, IH, Hm.
  - now apply shr_1_nonneg.
Qed.

Lemma shr_fexp_nonneg (m e : Z) (l : location) :
  (0 <= m)%Z -> (0 <= shr_m (fst (shr_fexp b64_prec b64_emax m e l)))%Z.
Proof.
  intros Hm. unfold shr_fexp, shr.
  assert (shr_m (shr_record_of_loc m l) = m) as Hrec by (now destruct l as [|[]]).
  match goal with
  | |- context [match ?n with Z0 => _ | Zpos _ => _ | Zneg _ => _ end] => destruct n
  end; cbn [fst]; [lia | apply iter_pos_nonneg; lia | lia].
Qed.

Lemma round_nearest_even_nonneg (m : Z) (l : location) :
  (0 <= m)%Z -> (0 <= round_nearest_even m l)%Z.
Proof.
  intros Hm. destruct l as [|[]]; simpl; try lia. destruct (Z.even m); lia.
Qed.

(** Rounding a non-negative mantissa gives zero, a finite number or an
    infinity. *)
Lemma binary_round_aux_not_nan (s : bool) (m e : Z) (l : location) :
  (0 <= m)%Z -> is_nan (binary_round_aux b64_prec b64_emax s m e l) = false.
Proof.
  intros Hm. unfold binary_round_aux.
  pose proof (shr_fexp_nonneg m e l Hm) as H1.
  destruct (shr_fexp b64_prec b64_emax m e l) as [mrs1 e1]. cbn [fst] in H1.
  pose proof (shr_fexp_nonneg _ e1 loc_Exact
                (round_nearest_even_nonneg _ (loc_of_shr_record mrs1) H1)) as H2.
  destruct (shr_fexp b64_prec b64_emax _ e1 loc_Exact) as [mrs2 e2].
  cbn [fst] in H2.
  destruct (shr_m mrs2) as [|q|q]; [reflexivity | | lia].
  now destruct (Z.leb e2 (b64_emax - b64_prec)).
Qed.

Lemma binary_normalize_not_nan (m e : Z) (s : bool) :
  is_nan (binary_normalize b64_prec b64_emax m e s) = false.
Proof.
  unfold binary_normalize, binary_round.
  destruct m as [|q|q]; [reflexivity | |];
    destruct (shl_align _ _ _) as [mz ez]; now apply binary_round_aux_not_nan.
Qed.

(** A finite numerator over a denominator that is neither zero nor a
    NaN. *)
Lemma SFdiv_not_nan (x y : b64) :
  b64_finite x = true ->
  is_nan y = false ->
  SFeqb y (b64_ofZ 0) = false ->
  is_nan (SFdiv b64_prec b64_emax x y) = false.
Proof.
  intros Hx Hy Hy0.
  destruct x as [sx|sx| |sx mx ex]; try discriminate;
    destruct y as [sy|sy| |sy my ey]; try discriminate; try reflexivity.
  unfold SFdiv, SFdiv_core_binary.
  set (m' := match _ with Z0 => Z.pos mx | Zpos _ => Z.shiftl _ _ | Zneg _ => 0%Z end).
  assert (0 <= m')%Z as Hm'.
  { unfold m'. match goal with |- context [match ?n with _ => _ end] => destruct n end;
      [lia | apply Z.shiftl_nonneg; lia | lia]. }
  pose proof (Z.div_pos m' (Z.pos my) Hm' ltac:(lia)) as Hq.
  unfold Z.div in Hq.
  destruct (Z.div_eucl m' (Z.pos my)) as [q r].
  now apply binary_round_aux_not_nan.
Qed.

(** A finite number plus anything but a NaN. *)
Lemma SFadd_not_nan (x y : b64) :
  b64_finite x = true ->
  is_nan y = false ->
  is_nan (SFadd b64_prec b64_emax x y) = false.
Proof.
  intros Hx Hy.
  destruct x as [sx|sx| |sx mx ex]; try discriminate;
    destruct y as [sy|sy| |sy my ey]; try discriminate; try reflexivity.
  - now destruct sx, sy.
  - unfold SFadd. apply binary_normalize_not_nan.
Qed.


(** What the threshold test decides in binary64, for a positive finite
    threshold: it fires on zero, on a NaN and on every magnitude below
    the threshold, and on nothing else. *)
Lemma near_zero_b64 (pow : b64 -> b64 -> b64) (cosf : b64 -> b64)
    (m : positive) (e : Z) (d : b64) :
  let eps := S754_finite false m e in
  (is_nan d = true \/ SFeqb d (b64_ofZ 0) = true \/ SFltb (SFabs d) eps = true ->
   @near_zero b64 (b64_Scalar pow cosf) eps d = true) /\
  (@near_zero b64 (b64_Scalar pow cosf) eps d = false ->
   is_nan d = false /\ SFeqb d (b64_ofZ 0) = false /\ SFltb (SFabs d) eps = false).
Proof.
  intros eps. unfold near_zero. cbn [fltb feqb fabs b64_Scalar].
  destruct d as [sd|sd| |sd md ed].
  - split; [reflexivity | discriminate].
  - split; [|intros _; split; [reflexivity | split; now destruct sd]].
    intros [Hn|[Hz|Hlt]]; [discriminate | destruct sd; discriminate | discriminate].
  - split; [reflexivity | discriminate].
  - unfold SFltb, SFeqb, eps. cbn [SFabs SFcompare b64_ofZ].
    assert (forall c1 c2 : bool,
              (c1 = false) -> (c2 = true -> c1 = true) ->
              (false = true \/
               match (if sd then Lt else Gt) with Eq => true | _ => false end = true \/
               c2 = true -> c1 = true) /\
              (c1 = false ->
               false = false /\
               match (if sd then Lt else Gt) with Eq => true | _ => false end = false /\
               c2 = false)) as Hnever.
    { intros c1 c2 -> Hc. split.
      - intros [Hn|[Hz|Hlt]]; [discriminate | destruct sd; discriminate | auto].
      - intros _. split; [reflexivity|]. split; [now destruct sd|].
        destruct c2; [discriminate (Hc eq_refl) | reflexivity]. }
    destruct (Z.compare e ed) eqn:Hcmp.
    + apply Z.compare_eq in Hcmp. subst ed. rewrite Z.compare_refl.
      change (Pos.compare_cont Eq m md) with (Pos.compare m md).
      change (Pos.compare_cont Eq md m) with (Pos.compare md m).
      rewrite (Pos.compare_antisym m md).
      destruct (Pos.compare m md); cbn.
      * apply Hnever; [reflexivity | discriminate].
      * apply Hnever; [reflexivity | discriminate].
      * split; [reflexivity | discriminate].
    + rewrite (Z.compare_antisym e ed), Hcmp. cbn.
      apply Hnever; [reflexivity | discriminate].
    + rewrite (Z.compare_antisym e ed), Hcmp. cbn.
      split; [reflexivity | discriminate].
Qed.

End FloatFacts.

(** ** The Broyden solver: iteration, guard and outcomes *)

Section BroydenFacts.
Context {F : Type} `{Scalar F}.

Lemma set_c_installs (s s' : Store F) (Q c : loc) :
  set_c Q c s = Ok (tt, s') -> coefficient_ref Q s' = Some c.
Proof.
  unfold set_c, mbind, M_bind, read_object, read_array.
  destruct (objects s !! Q) as [o|]; [|discriminate].
  destruct (arrays s !! c) as [cs|]; [|discriminate].
  destruct (decide _); [|discriminate].
  unfold write_object. intros [= <-].
  unfold coefficient_ref. cbn [objects]. now rewrite lookup_insert_eq.
Qed.

(** A solver state is finite when its trial vector exists and every
    entry [x] of it and of the residual has [x - x = 0]. *)
Lemma finite_state_entries (st : Store F) (it : iterate F) :
  finite_state st it = true <->
  exists xs : list F,
    arrays st !! it_x it = Some xs /\
    Forall (fun x => ((x - x) =? #0)%num = true) xs /\
    Forall (fun x => ((x - x) =? #0)%num = true) (it_fx it).
Proof.
  unfold finite_state, all_finite. split.
  - destruct (arrays st !! it_x it) as [xs|]; [|discriminate].
    intros Hall. apply andb_prop in Hall as [Hx Hfx].
    exists xs. split; [reflexivity|].
    split; apply List.Forall_forall; intros x Hin.
    + exact (proj1 (forallb_forall _ _) Hx x Hin).
    + exact (proj1 (forallb_forall _ _) Hfx x Hin).
  - intros (xs & -> & Hx & Hfx).
    apply andb_true_intro.
    split; apply forallb_forall; intros x Hin.
    + exact (proj1 (List.Forall_forall _ _) Hx x Hin).
    + exact (proj1 (List.Forall_forall _ _) Hfx x Hin).
Qed.

(** [resid] leaves [Q.c] referring to the vector it was called on. *)
Lemma cournot_installs (Q : loc) (p : nd F) (alpha eta : F) :
  installs Q (cournot Q p alpha eta).
Proof.
  intros x s s1 r. unfold cournot, resid.
  unfold mbind at 1. unfold M_bind at 1.
  destruct (set_c Q x s) as [[[] s2]|] eqn:Hset; [|discriminate].
  unfold mbind at 1. unfold M_bind at 1.
  destruct (call Q p s2) as [[q s3]|] eqn:Hcall; [|discriminate].
  apply call_store in Hcall. subst s3.
  unfold lift. destruct (_ ≫= _) as [r'|]; [|discriminate].
  intros [= _ <-]. now apply set_c_installs in Hset.
Qed.

(** The secant update with another division: the division meets the
    secant denominator only, and only when the guard lets it. *)
Lemma secant_update_with_div (nz : F -> bool) (dv : F -> F -> F)
    (B : list (list F)) (dx df : list F) :
  @secant_update F (with_div H dv) nz B dx df =
    if nz (dot (vecmat dx B) df) then B
    else madd B (map (map (fun x => dv x (dot (vecmat dx B) df)))
                   (outer (vsub dx (matvec B df)) (vecmat dx B))).
Proof. reflexivity. Qed.

Lemma broyden_step_guard (nz : F -> bool) (f : loc -> M F (nd F)) (n : nat)
    (s s' : Store F) (it it' : iterate F) (x0v : list F) :
  arrays s !! it_x it = Some x0v ->
  length x0v = n ->
  square n (it_B it) ->
  length (it_fx it) = n ->
  broyden_step nz f it s = Ok (it', s') ->
  let dx := step_dx n (it_B it) (it_fx it) in
  let df := fun j => (nth j (it_fx it') #0 - nth j (it_fx it) #0)%num in
  let d := secant_denominator n (it_B it) dx df in
  (nz d = true -> it_B it' = it_B it) /\
  (nz d = false -> forall i j, i < n -> j < n ->
     entry (it_B it') i j
     = (entry (it_B it) i j
        + secant_column n (it_B it) dx df i * secant_row n (it_B it) dx j / d)%num).
Proof.
  intros Hx Hlen HB Hfx Hstep.
  destruct (broyden_step_entries nz f n s it x0v Hx Hlen HB Hfx)
    as (x1v & _ & _ & _ & Herr & Hok).
  destruct (eval_residual f _ _) as [[fx1 s1]|e] eqn:Hev.
  - destruct (Hok fx1 s1 eq_refl) as (B' & Hrun & _ & _ & Hent).
    rewrite Hrun in Hstep. injection Hstep as <- <-. exact Hent.
  - rewrite (Herr e eq_refl) in Hstep. discriminate.
Qed.

End BroydenFacts.

Section BroydenTheorems.
Context {F : Type} `{Scalar F}.
Variable norm : list F -> F.

(** C3. One Broyden iteration, on any residual callback [f], with [B] of
    [n] rows and columns: the trial vector is [x1 = x0 + dx] with
    [dx = -B fx0], entry by entry; it is stored as a new array and [f] is
    evaluated on it, giving [fx1] (when that evaluation fails, so does the
    step); with [df = fx1 - fx0] the new matrix has the entries
    [B_ij + (dx - B df)_i (dx^T B)_j / (dx^T B df)], unless the guard on
    the denominator keeps [B]; the next iteration starts from [x1], [fx1],
    the first one from [x0] and [fx0 = f(x0)].  Solve returns an outcome exactly as the stopping rule says: after
    [k <= max_iterations] iterations, when every state so far is finite,
    no iteration before the [k]-th met the tolerance, and the [k]-th did
    ([Converged]) or [k = max_iterations] ([NonConvergence]); the vector
    returned is the [k]-th trial vector.  At the first state that is not
    finite Solve ends in a computation failure; a state is finite when
    every entry [x] of its trial vector and of its residual has
    [x - x = 0].  With a callback that
    installs its argument in [Q], as [resid] does, [Q.c] is the returned
    vector when Solve returns.  On the script's residual Solve ends in one
    of these two ways, and after an outcome the assignment of line 39
    changes nothing. *)
Theorem broyden_iteration (numerically_zero : F -> bool) (f : loc -> M F (nd F))
    (tol : F) (max_iterations n : nat) :
  (forall (s : Store F) (it : iterate F) (x0v : list F),
     arrays s !! it_x it = Some x0v ->
     length x0v = n ->
     square n (it_B it) ->
     length (it_fx it) = n ->
     let dx := step_dx n (it_B it) (it_fx it) in
     let l1 := fresh (dom (arrays s)) in
     exists x1v : list F,
       length x1v = n /\
       (forall i, i < n -> nth i x1v #0%num = (nth i x0v #0 + dx i)%num) /\
       arrays s !! l1 = None /\
       (forall e,
          eval_residual f l1 (mkStore (<[l1 := x1v]> (arrays s)) (objects s)) = Err e ->
          broyden_step numerically_zero f it s = Err e) /\
       (forall fx1 s',
          eval_residual f l1 (mkStore (<[l1 := x1v]> (arrays s)) (objects s))
            = Ok (fx1, s') ->
          exists B' : list (list F),
            broyden_step numerically_zero f it s = Ok (mkIterate l1 fx1 B', s') /\
            length fx1 = n /\
            square n B' /\
            let df := fun j => (nth j fx1 #0 - nth j (it_fx it) #0)%num in
            let d := secant_denominator n (it_B it) dx df in
            (numerically_zero d = true -> B' = it_B it) /\
            (numerically_zero d = false -> forall i j, i < n -> j < n ->
               entry B' i j
               = (entry (it_B it) i j
                  + secant_column n (it_B it) dx df i
                    * secant_row n (it_B it) dx j / d)%num))) /\
  (forall (k : nat) (s s1 : Store F) (it it1 : iterate F),
     iterates numerically_zero f 0 it s = Ok (it, s) /\
     (broyden_step numerically_zero f it s = Ok (it1, s1) ->
      iterates numerically_zero f (S k) it s
      = iterates numerically_zero f k it1 s1)) /\
  (forall (j : nat) (s s0 : Store F) (x0 : loc) (B : list (list F)) (fx0 : list F),
     eval_residual f x0 s = Ok (fx0, s0) ->
     iterate_at numerically_zero f x0 B j s
     = iterates numerically_zero f j (mkIterate x0 fx0 B) s0) /\
  (forall (s : Store F) (x0 : loc) (B : list (list F)) (out : outcome) (s' : Store F),
     Solve norm numerically_zero f x0 B tol max_iterations s = Ok (out, s') <->
     exists k, stops_at norm tol max_iterations
                 (fun j => iterate_at numerically_zero f x0 B j s) k out s') /\
  (forall (s : Store F) (x0 : loc) (B : list (list F)) (k : nat),
     fails_at norm tol max_iterations
       (fun j => iterate_at numerically_zero f x0 B j s) k ->
     Solve norm numerically_zero f x0 B tol max_iterations s
       = Err ComputationFailure) /\
  (forall (st : Store F) (it : iterate F),
     finite_state st it = true <->
     exists xs : list F,
       arrays st !! it_x it = Some xs /\
       Forall (fun x => ((x - x) =? #0)%num = true) xs /\
       Forall (fun x => ((x - x) =? #0)%num = true) (it_fx it)) /\
  (forall (Q : loc) (s : Store F) (x0 : loc) (B : list (list F)) (out : outcome)
          (s' : Store F),
     installs Q f ->
     Solve norm numerically_zero f x0 B tol max_iterations s = Ok (out, s') ->
     coefficient_ref Q s' = Some (solution out)) /\
  (forall (Q : loc) (p : nd F) (alpha eta : F) (s : Store F) (x0 : loc)
          (o : Basis.t F) (xs : list F) (B : list (list F)),
     (eta =? #0)%num = false ->
     objects s !! Q = Some o ->
     arrays s !! x0 = Some xs ->
     length xs = Basis.n o ->
     length B = Basis.n o ->
     length (entries p) = Basis.n o ->
     installs Q (cournot Q p alpha eta) /\
     ((Solve norm numerically_zero (cournot Q p alpha eta) x0 B tol
         max_iterations s = Err ComputationFailure /\
       exists (k : nat) (itk : iterate F) (sk : Store F),
         k <= max_iterations /\
         iterate_at numerically_zero (cournot Q p alpha eta) x0 B k s = Ok (itk, sk) /\
         finite_state sk itk = false) \/
      (exists (out : outcome) (s' : Store F) (xk : list F),
         Solve norm numerically_zero (cournot Q p alpha eta) x0 B tol
           max_iterations s = Ok (out, s') /\
         coefficient_ref Q s' = Some (solution out) /\
         coefficients Q s' = Some xk /\
         arrays s' !! solution out = Some xk /\
         length xk = Basis.n o /\
         set_c Q (solution out) s' = Ok (tt, s')))).
Proof.
  split; [|split; [|split; [|split; [|split; [|split; [|split]]]]]].
  - intros s it x0v Hx Hlen HB Hfx.
    exact (broyden_step_entries numerically_zero f n s it x0v Hx Hlen HB Hfx).
  - intros k s s1 it it1. split; [reflexivity | apply iterates_step].
  - intros j s s0 x0 B fx0. apply iterate_at_start.
  - intros s x0 B out s'. apply Solve_stops.
  - intros s x0 B k. apply Solve_fails.
  - apply finite_state_entries.
  - intros Q s x0 B out s' Hinst Hsolve.
    apply (proj1 (Solve_stops norm numerically_zero f tol max_iterations s x0 B out s'))
      in Hsolve as (k & itk & _ & Hat & -> & _).
    exact (iterate_at_installs numerically_zero f Q s s' x0 B k itk Hinst Hat).
  - intros Q p alpha eta s x0 o xs B Heta HQ Hx Hlen HB Hp.
    split; [apply cournot_installs|].
    destruct (solve_cournot_outcome norm numerically_zero Q p alpha eta Heta tol
                max_iterations s x0 o xs B HQ Hx Hlen HB Hp)
      as (k & itk & sk & Hk & Hat & Hfit & _ & Href & Hend).
    destruct Hend as [(Hbad & Hfail)|(out & Hsolve & Hsol)].
    + left. split; [exact Hfail|]. exists k, itk, sk. repeat split; assumption.
    + right.
      destruct (fits_coefficients Q p _ sk itk Hfit Href) as (xk & Hcoef & Hxk & Hlenk).
      exists out, sk, xk. rewrite Hsol.
      split; [exact Hsolve|]. split; [exact Href|]. split; [exact Hcoef|].
      split; [exact Hxk|]. split; [exact Hlenk|].
      destruct Hfit as [[ok [Hok Hnk]] _].
      apply (set_c_same sk Q (it_x itk) ok xk Hok); [|exact Hxk|congruence].
      unfold coefficient_ref in Href. rewrite Hok in Href. simpl in Href. congruence.
Qed.

(** C6. The guard on the secant denominator [d = dx^T B df], taken as
    the test by a threshold [eps].  What the update tests is [d].  When the
    guard fires, the update returns [B] itself, whatever the division
    operation is, so every property of the entries of [B] still holds.
    When it does not fire, entry [(i,j)] of the new matrix is
    [B_ij + (dx - B df)_i (dx^T B)_j / d]: the only division is by [d].
    In both cases the result does not depend on what the division does
    with a denominator on which the guard fires, and a Broyden step keeps
    its matrix when the guard fires on its denominator.  In binary64, for a
    positive finite threshold: the guard fires on a zero, on a NaN and on
    every denominator of magnitude below the threshold, so the update then
    returns [B]; a denominator that reaches the division is neither zero
    nor a NaN nor below the threshold; and when the entries of [B] and the
    numerators are finite, no entry of the new matrix is a NaN. *)
Theorem secant_guard_keeps_B (eps : F) (n : nat) (B : list (list F))
    (dx df : list F) :
  square n B ->
  length dx = n ->
  length df = n ->
  let dxf := fun i => nth i dx #0%num in
  let dff := fun j => nth j df #0%num in
  let d := secant_denominator n B dxf dff in
  dot (vecmat dx B) df = d /\
  (near_zero eps d = true ->
     secant_update (near_zero eps) B dx df = B /\
     (forall dv : F -> F -> F,
        @secant_update F (with_div H dv) (near_zero eps) B dx df = B) /\
     (forall P : F -> Prop,
        Forall (Forall P) B ->
        Forall (Forall P) (secant_update (near_zero eps) B dx df))) /\
  (near_zero eps d = false -> forall i j, i < n -> j < n ->
     entry (secant_update (near_zero eps) B dx df) i j
     = (entry B i j + secant_column n B dxf dff i * secant_row n B dxf j / d)%num) /\
  (forall dv1 dv2 : F -> F -> F,
     (forall x y, near_zero eps y = false -> dv1 x y = dv2 x y) ->
     @secant_update F (with_div H dv1) (near_zero eps) B dx df
     = @secant_update F (with_div H dv2) (near_zero eps) B dx df) /\
  (forall (f : loc -> M F (nd F)) (s s' : Store F) (it it' : iterate F)
          (x0v : list F),
     arrays s !! it_x it = Some x0v ->
     length x0v = n ->
     it_B it = B ->
     length (it_fx it) = n ->
     broyden_step (near_zero eps) f it s = Ok (it', s') ->
     near_zero eps
       (secant_denominator n B (step_dx n B (it_fx it))
          (fun j => (nth j (it_fx it') #0 - nth j (it_fx it) #0)%num)) = true ->
     it_B it' = B) /\
  (forall (pow : b64 -> b64 -> b64) (cosf : b64 -> b64) (m : positive) (e : Z)
          (k : nat) (A : list (list b64)) (u v : list b64),
     let thr := S754_finite false m e in
     let uf := fun i => nth i u (b64_ofZ 0) in
     let vf := fun j => nth j v (b64_ofZ 0) in
     let dd := @secant_denominator b64 (b64_Scalar pow cosf) k A uf vf in
     square k A ->
     length u = k ->
     length v = k ->
     (is_nan dd = true \/ SFeqb dd (b64_ofZ 0) = true \/
      SFltb (SFabs dd) thr = true ->
      @secant_update b64 (b64_Scalar pow cosf)
        (@near_zero b64 (b64_Scalar pow cosf) thr) A u v = A) /\
     (@near_zero b64 (b64_Scalar pow cosf) thr dd = false ->
      is_nan dd = false /\ SFeqb dd (b64_ofZ 0) = false /\
      SFltb (SFabs dd) thr = false) /\
     ((forall i j, i < k -> j < k ->
         b64_finite (@entry b64 (b64_Scalar pow cosf) A i j) = true /\
         b64_finite
           (SFmul b64_prec b64_emax
              (@secant_column b64 (b64_Scalar pow cosf) k A uf vf i)
              (@secant_row b64 (b64_Scalar pow cosf) k A uf j)) = true) ->
      forall i j, i < k -> j < k ->
        is_nan (@entry b64 (b64_Scalar pow cosf)
                  (@secant_update b64 (b64_Scalar pow cosf)
                     (@near_zero b64 (b64_Scalar pow cosf) thr) A u v) i j) = false)).
Proof.
  intros HB Hdx Hdf dxf dff d.
  destruct (secant_update_entries (near_zero eps) n B dx df HB Hdx Hdf)
    as (Hdot & _ & Hkeep & Hent).
  fold dxf dff d in Hdot, Hkeep, Hent.
  split; [exact Hdot|]. split; [|split; [|split; [|split]]].
  - intros Hguard. split; [now apply Hkeep|]. split.
    + intros dv. rewrite secant_update_with_div, Hdot. now rewrite Hguard.
    + intros P HP. now rewrite (Hkeep Hguard).
  - exact Hent.
  - intros dv1 dv2 Hagree. rewrite !secant_update_with_div, Hdot.
    destruct (near_zero eps d) eqn:Hguard; [reflexivity|].
    f_equal. apply List.map_ext. intros row. apply List.map_ext. intros x.
    now apply Hagree.
  - intros f s s' it it' x0v Hx Hlen HitB Hfx Hstep Hguard. subst B.
    destruct (broyden_step_guard (near_zero eps) f n s s' it it' x0v
                Hx Hlen HB Hfx Hstep) as [Hyes _].
    now apply Hyes.
  - intros pow cosf m e k A u v thr uf vf dd HA Hu Hv.
    destruct (@secant_update_entries b64 (b64_Scalar pow cosf)
                (@near_zero b64 (b64_Scalar pow cosf) thr) k A u v HA Hu Hv)
      as (_ & _ & Hkeep' & Hent').
    fold uf vf dd in Hkeep', Hent'.
    destruct (near_zero_b64 pow cosf m e dd) as [Hfire Hpass].
    fold thr in Hfire, Hpass.
    split; [|split].
    + intros Hsmall. apply Hkeep'. now apply Hfire.
    + exact Hpass.
    + intros Hfinite i j Hi Hj.
      destruct (Hfinite i j Hi Hj) as [Hbij Hnum].
      assert (@near_zero b64 (b64_Scalar pow cosf) thr dd = true \/
              @near_zero b64 (b64_Scalar pow cosf) thr dd = false) as [Hguard|Hguard]
        by (destruct (@near_zero b64 (b64_Scalar pow cosf) thr dd); auto).
      * rewrite (Hkeep' Hguard).
        destruct (@entry b64 (b64_Scalar pow cosf) A i j); try discriminate; reflexivity.
      * rewrite (Hent' Hguard i j Hi Hj).
        destruct (Hpass Hguard) as (Hnn & Hnz & _).
        cbn [fadd fmul fdiv b64_Scalar].
        apply SFadd_not_nan; [exact Hbij|].
        now apply SFdiv_not_nan.
Qed.


End BroydenTheorems.

(** ** The theorems on the script's own data *)

Lemma demo_eta_nonzero : @feqb b64 Demo.scalar Demo.eta (b64_ofZ 0) = false.
Proof. reflexivity. Qed.

Lemma demo_identity_length : length (@identity b64 Demo.scalar Demo.n) = Demo.n.
Proof. reflexivity. Qed.

Lemma demo_nodes_length : length (entries Demo.nodes) = Demo.n.
Proof. apply (@length_chebnodes b64 Demo.scalar). Qed.

Lemma demo_c0_length : length (@c0_values b64 Demo.scalar Demo.n) = Demo.n.
Proof. reflexivity. Qed.



(** With the identity seed one iteration of the script's problem ends
    in no computation failure. *)
Lemma demo_one_iteration_runs :
  @Solve b64 Demo.scalar (@norm_inf b64 Demo.scalar) Demo.numerically_zero
    (@cournot b64 Demo.scalar Demo.Q Demo.nodes Demo.alpha Demo.eta)
    Demo.c0 (@identity b64 Demo.scalar Demo.n) Demo.tol 1 Demo.initial
  <> Err ComputationFailure.
Proof. vm_compute. discriminate. Qed.

(** A matrix, a step and a residual difference for which the secant
    denominator is zero. *)
Lemma demo_square : @square b64 2 [[b64_ofZ 1; b64_ofZ 2]; [b64_ofZ 3; b64_ofZ 4]].
Proof. split; [reflexivity|]. repeat constructor. Qed.

Lemma demo_guard_fires :
  @near_zero b64 Demo.scalar Demo.tol
    (@secant_denominator b64 Demo.scalar 2
       [[b64_ofZ 1; b64_ofZ 2]; [b64_ofZ 3; b64_ofZ 4]]
       (fun i => nth i [b64_ofZ 1; b64_ofZ 2] (@fofZ b64 Demo.scalar 0))
       (fun j => nth j [b64_ofZ 0; b64_ofZ 0] (@fofZ b64 Demo.scalar 0))) = true.
Proof. vm_compute. reflexivity. Qed.

Lemma resid_returns_formula_witness :
  exists (r : nd b64) (s' : Store b64),
    @resid b64 Demo.scalar Demo.c0 Demo.Q Demo.nodes Demo.alpha Demo.eta
      Demo.initial = Ok (r, s') /\
    length (entries r) = Demo.n.
Proof.
  destruct (@resid_returns_formula b64 Demo.scalar Demo.initial Demo.c0 Demo.Q
              _ _ Demo.nodes Demo.alpha Demo.eta
              (demo_Q_lookup Demo.pow Demo.cos)
              (demo_c0_lookup Demo.pow Demo.cos) demo_c0_length demo_eta_nonzero)
    as (q & r & s' & _ & _ & Hres & Hlen & Hent & _).
  exists r, s'. split; [exact Hres|].
  rewrite Hent, length_zip_with, Hlen, demo_nodes_length. lia.
Defined.

Lemma evaluate_dot_recurrence_witness :
  exists q : nd b64,
    @call b64 Demo.scalar Demo.Q Demo.nodes Demo.initial = Ok (q, Demo.initial).
Proof.
  destruct (@evaluate_dot_recurrence b64 Demo.scalar Demo.initial Demo.Q
              _ _ Demo.nodes
              (demo_Q_lookup Demo.pow Demo.cos)
              (demo_c0_lookup Demo.pow Demo.cos) demo_c0_length)
    as (Hcall & _).
  eexists. exact Hcall.
Defined.

Lemma resid_shares_coefficients_witness :
  exists (r : nd b64) (s' : Store b64),
    @resid b64 Demo.scalar Demo.c1 Demo.Q Demo.nodes Demo.alpha Demo.eta
      Demo.initial = Ok (r, s') /\
    coefficient_ref Demo.Q s' = Some Demo.c1 /\
    arrays s' = arrays Demo.initial.
Proof.
  destruct (@resid_shares_coefficients b64 Demo.scalar Demo.numerically_zero
              Demo.Q Demo.nodes Demo.alpha Demo.eta demo_eta_nonzero
              Demo.initial Demo.c1
              _ _ (@identity b64 Demo.scalar Demo.n) Demo.nodes
              (demo_Q_lookup Demo.pow Demo.cos)
              (demo_c1_lookup Demo.pow Demo.cos) eq_refl)
    as ((r & s' & Hres & _ & _ & Href & _ & Harr) & _).
  exists r, s'. repeat split; assumption.
Defined.

Lemma broyden_iteration_witness :
  exists (out : outcome) (s' : Store b64),
    @Solve b64 Demo.scalar (@norm_inf b64 Demo.scalar) Demo.numerically_zero
      (@cournot b64 Demo.scalar Demo.Q Demo.nodes Demo.alpha Demo.eta)
      Demo.c0 (@identity b64 Demo.scalar Demo.n) Demo.tol 1 Demo.initial
      = Ok (out, s') /\
    coefficient_ref Demo.Q s' = Some (solution out) /\
    @set_c b64 Demo.Q (solution out) s' = Ok (tt, s').
Proof.
  destruct (@broyden_iteration b64 Demo.scalar (@norm_inf b64 Demo.scalar)
              Demo.numerically_zero
              (@cournot b64 Demo.scalar Demo.Q Demo.nodes Demo.alpha Demo.eta)
              Demo.tol 1 Demo.n)
    as (_ & _ & _ & _ & _ & _ & _ & Hscript).
  destruct (Hscript Demo.Q Demo.nodes Demo.alpha Demo.eta Demo.initial Demo.c0 _ _
              (@identity b64 Demo.scalar Demo.n) demo_eta_nonzero
              (demo_Q_lookup Demo.pow Demo.cos)
              (demo_c0_lookup Demo.pow Demo.cos) demo_c0_length
              demo_identity_length demo_nodes_length)
    as (_ & [(Hfail & _)|(out & s' & xk & Hsolve & Href & _ & _ & _ & Hset)]).
  - destruct (demo_one_iteration_runs Hfail).
  - exists out, s'. repeat split; assumption.
Defined.

Lemma secant_guard_keeps_B_witness :
  @secant_update b64 (with_div Demo.scalar (fun _ _ => S754_nan))
    (@near_zero b64 Demo.scalar Demo.tol)
    [[b64_ofZ 1; b64_ofZ 2]; [b64_ofZ 3; b64_ofZ 4]]
    [b64_ofZ 1; b64_ofZ 2] [b64_ofZ 0; b64_ofZ 0]
  = [[b64_ofZ 1; b64_ofZ 2]; [b64_ofZ 3; b64_ofZ 4]].
Proof.
  destruct (@secant_guard_keeps_B b64 Demo.scalar Demo.tol 2
              [[b64_ofZ 1; b64_ofZ 2]; [b64_ofZ 3; b64_ofZ 4]]
              [b64_ofZ 1; b64_ofZ 2] [b64_ofZ 0; b64_ofZ 0]
              demo_square eq_refl eq_refl)
    as (_ & Hfire & _).
  destruct (Hfire demo_guard_fires) as (_ & Hdiv & _).
  exact (Hdiv (fun _ _ => S754_nan)).
Defined.


Lemma real_demo_Q_lookup :
  objects RealDemo.after !! Demo.Q
    = Some (Basis.mk Demo.n RealDemo.a RealDemo.b 2%positive Demo.c0).
Proof. unfold RealDemo.after. simpl. apply lookup_insert_eq. Qed.

Lemma real_demo_c0_lookup (s : Store R) :
  arrays s = <[Demo.c0 := @c0_values R RealDemo.scalar Demo.n]> ∅ ->
  arrays s !! Demo.c0 = Some (@c0_values R RealDemo.scalar Demo.n).
Proof. intros ->. apply lookup_insert_eq. Qed.

Lemma real_demo_domain : (RealDemo.a < RealDemo.b)%R.
Proof. unfold RealDemo.a, RealDemo.b. lra. Qed.

Lemma real_demo_midpoint : (0 < RealDemo.a + RealDemo.b)%R.
Proof. unfold RealDemo.a, RealDemo.b. lra. Qed.

Lemma bisection_stays_inside_witness :
  exists pp : nd R,
    @equilibrium_price R RealDemo.scalar Demo.Q RealDemo.a RealDemo.b
      RealDemo.eta RealDemo.after = Ok (pp, RealDemo.after) /\
    length (entries pp) = 25 /\
    Forall (fun e => (RealDemo.a < e < RealDemo.b)%R) (entries pp).
Proof.
  destruct (bisection_stays_inside Rpower RealDemo.after Demo.Q _ _
              RealDemo.a RealDemo.b RealDemo.eta
              real_demo_Q_lookup (real_demo_c0_lookup RealDemo.after eq_refl)
              real_demo_domain real_demo_midpoint)
    as (_ & pp & dp & _ & Hprice & Hlen & Hin).
  exists pp. repeat split; assumption.
Defined.

Lemma nodes_distinct_inside_fixed_witness :
  exists (Q : loc) (s' : Store R) (v : list R),
    @Construct R RealDemo.scalar Demo.n RealDemo.a RealDemo.b (Some Demo.c0)
      RealDemo.before = Ok (Q, s') /\
    node_values Q s' = Some v /\
    length v = Demo.n /\
    NoDup v /\
    Forall (fun x => (RealDemo.a <= x <= RealDemo.b)%R) v.
Proof.
  assert (1 <= Demo.n) as Hn by (unfold Demo.n; lia).
  assert (exists cs, arrays RealDemo.before !! Demo.c0 = Some cs /\
                     length cs = Demo.n) as Hc.
  { eexists. split; [apply (real_demo_c0_lookup RealDemo.before eq_refl) | reflexivity]. }
  destruct (nodes_distinct_inside_fixed Rpower RealDemo.before Demo.n
              RealDemo.a RealDemo.b (Some Demo.c0) Hn real_demo_domain Hc)
    as (Q & s' & v & Hrun & Hv & Hlen & Hnd & _ & Hin & _).
  exists Q, s', v. repeat split; assumption.
Defined.

(** * Further properties of the script *)

(** ** The residual function: outcomes and composition *)

Section ResidExtras.
Context {F : Type} `{Scalar F}.

Lemma resid_mismatch (s : Store F) (c Q : loc) (o : Basis.t F) (cs : list F)
    (p : nd F) (alpha eta : F) :
  objects s !! Q = Some o ->
  arrays s !! c = Some cs ->
  length cs <> Basis.n o ->
  resid c Q p alpha eta s = Err DimensionMismatch.
Proof.
  intros HQ Hc Hlen. unfold resid.
  apply bind_err. now apply (set_c_mismatch s Q c o cs).
Qed.

Lemma install_install (s : Store F) (Q c1 c2 : loc) (o : Basis.t F) :
  install Q c2 (with_c o c1) (install Q c1 o s) = install Q c2 o s.
Proof.
  unfold install. simpl. f_equal. now rewrite insert_insert_eq.
Qed.

(** X3. When [Q] and [c] exist, a call of [resid] ends in one of three
    ways: [DimensionMismatch] when [c] has not the approximant's length;
    otherwise [ZeroDivisionError] when [eta] is zero; otherwise a value of
    the shape of [p], with [Q.c] set to [c].  The arithmetic of line 17
    never fails on shapes. *)
Theorem resid_outcome (s : Store F) (c Q : loc) (o : Basis.t F) (cs : list F)
    (p : nd F) (alpha eta : F) :
  objects s !! Q = Some o ->
  arrays s !! c = Some cs ->
  resid c Q p alpha eta s =
    if decide (length cs = Basis.n o) then
      if (eta =? #0)%num then Err ZeroDivisionError
      else Ok (nd_map (fun x => residual_formula alpha eta
                         (evaluate1 (Basis.n o) (Basis.a o) (Basis.b o) cs x) x) p,
               install Q c o s)
    else Err DimensionMismatch.
Proof.
  intros HQ Hc. destruct (decide (length cs = Basis.n o)) as [Hlen|Hlen].
  - destruct (eta =? #0)%num eqn:Heta.
    + now apply (resid_zero_eta s c Q o cs).
    + now apply resid_ok.
  - now apply (resid_mismatch s c Q o cs).
Qed.

(** X2. Two calls of [resid] in a row that both succeed return the same
    value and leave the same store as the second call alone; [Q.c] is then
    the second coefficient vector, and the first has left no trace in
    [Q]. *)
Theorem resid_last_call_wins (s : Store F) (c1 c2 Q : loc) (o : Basis.t F)
    (cs1 cs2 : list F) (p1 p2 : nd F) (alpha1 eta1 alpha2 eta2 : F) :
  objects s !! Q = Some o ->
  arrays s !! c1 = Some cs1 ->
  arrays s !! c2 = Some cs2 ->
  length cs1 = Basis.n o ->
  (eta1 =? #0)%num = false ->
  length cs2 = Basis.n o ->
  (eta2 =? #0)%num = false ->
  exists (r : nd F) (s' : Store F),
    resid c2 Q p2 alpha2 eta2 s = Ok (r, s') /\
    (resid c1 Q p1 alpha1 eta1 ;; resid c2 Q p2 alpha2 eta2) s = Ok (r, s') /\
    coefficient_ref Q s' = Some c2 /\
    arrays s' = arrays s.
Proof.
  intros HQ Hc1 Hc2 Hlen1 Heta1 Hlen2 Heta2.
  eexists _, (install Q c2 o s).
  split; [now apply (resid_ok s c2 Q o cs2)|].
  split.
  - rewrite (bind_ok _ _ _ _ _ (resid_ok s c1 Q o cs1 p1 alpha1 eta1 HQ Hc1 Hlen1 Heta1)).
    assert (objects (install Q c1 o s) !! Q = Some (with_c o c1)) as HQ'
      by apply install_lookup.
    assert (arrays (install Q c1 o s) !! c2 = Some cs2) as Hc2' by exact Hc2.
    rewrite (resid_ok _ c2 Q (with_c o c1) cs2 p2 alpha2 eta2 HQ' Hc2' Hlen2 Heta2).
    now rewrite install_install.
  - split; [|reflexivity]. unfold coefficient_ref. now rewrite install_lookup.
Qed.

Lemma get_c_ok (s : Store F) (Q : loc) (o : Basis.t F) :
  objects s !! Q = Some o -> get_c Q s = Ok (Basis.c o, s).
Proof. intros HQ. unfold get_c, mbind, M_bind, read_object. now rewrite HQ. Qed.

(** X1. The plotting data of lines 43, 44 and 52 are computed without
    changing the store, although [resid] assigns [Q.c]: it assigns the
    reference [Q.c] already holds.  The residual plotted is the residual
    formula applied to the supply plotted, [rplot = formula(splot, pplot)],
    and all three arrays are as long as the grid. *)
Theorem plot_data_leaves_store (s : Store F) (Q : loc) (o : Basis.t F)
    (cs pplot : list F) (alpha eta : F) :
  objects s !! Q = Some o ->
  arrays s !! Basis.c o = Some cs ->
  length cs = Basis.n o ->
  (eta =? #0)%num = false ->
  exists splot dplot rplot : list F,
    plot_data Q pplot alpha eta s = Ok ((Ar splot, Ar dplot, Ar rplot), s) /\
    splot = map (evaluate1 (Basis.n o) (Basis.a o) (Basis.b o) cs) pplot /\
    dplot = map (fun x => (x ** (- eta))%num) pplot /\
    rplot = zip_with (residual_formula alpha eta) splot pplot /\
    length splot = length pplot /\
    length dplot = length pplot /\
    length rplot = length pplot.
Proof.
  intros HQ Hc Hlen Heta.
  set (ev := evaluate1 (Basis.n o) (Basis.a o) (Basis.b o) cs).
  exists (map ev pplot), (map (fun x => (x ** (- eta))%num) pplot),
         (zip_with (residual_formula alpha eta) (map ev pplot) pplot).
  split.
  - unfold plot_data.
    rewrite (bind_ok _ _ _ _ _ (call_ok s Q o cs (Ar pplot) HQ Hc)).
    assert (@lift F _ (np_pow (Ar pplot) (Sc (- eta)%num)) s
            = Ok (Ar (map (fun x => (x ** (- eta))%num) pplot), s)) as Hd
      by reflexivity.
    rewrite (bind_ok _ _ _ _ _ Hd).
    rewrite (bind_ok _ _ _ _ _ (get_c_ok s Q o HQ)).
    rewrite (bind_ok _ _ _ _ _ (resid_ok s (Basis.c o) Q o cs (Ar pplot) alpha eta HQ Hc Hlen Heta)).
    assert (install Q (Basis.c o) o s = s) as ->.
    { destruct s as [arr objs]. unfold install. simpl in *. f_equal.
      replace (with_c o (Basis.c o)) with o by now destruct o.
      now apply insert_id. }
    assert (map (fun x => residual_formula alpha eta (ev x) x) pplot
            = zip_with (residual_formula alpha eta) (map ev pplot) pplot) as Hr.
    { transitivity (zip_with (residual_formula alpha eta) (map ev pplot)
                      (map (fun x => x) pplot)).
      - now rewrite zip_with_map_same.
      - now rewrite List.map_id. }
    cbn [mret M_ret nd_map]. fold ev. now rewrite Hr.
  - repeat split; try reflexivity.
    + apply List.length_map.
    + apply List.length_map.
    + rewrite length_zip_with, List.length_map. lia.
Qed.

End ResidExtras.

(** ** Lines 21 to 39 as a whole *)

Section ScriptExtras.
Context {F : Type} `{Scalar F}.

Lemma length_c0_values (n : nat) : length (c0_values n) = n.
Proof. unfold c0_values. now rewrite length_insert, repeat_length. Qed.

(** Lines 21 to 27 on a valid degree and domain. *)
Lemma setup_ok (s : Store F) (n : nat) (a b : F) :
  0 < n ->
  ((b <? a) || (b =? a))%num = false ->
  exists (c0 Q : loc) (s' : Store F) (nl : loc),
    setup n a b s = Ok ((c0, Q), s') /\
    arrays s !! c0 = None /\
    objects s !! Q = None /\
    arrays s ⊆ arrays s' /\
    objects s' !! Q = Some (Basis.mk n a b nl c0) /\
    arrays s' !! c0 = Some (c0_values n) /\
    arrays s' !! nl = Some (chebnodes n a b).
Proof.
  intros Hn Hdom. unfold setup.
  destruct (decide (0 < n)) as [_|Hn']; [|contradiction].
  set (c0 := fresh (dom (arrays s))).
  set (s1 := mkStore (<[c0 := c0_values n]> (arrays s)) (objects s)).
  assert (alloc_array (c0_values n) s = Ok (c0, s1)) as Halloc by reflexivity.
  rewrite (bind_ok _ _ _ _ _ Halloc).
  assert (arrays s1 !! c0 = Some (c0_values n)) as Hc0
    by (simpl; apply lookup_insert_eq).
  destruct (Construct_ok s1 n a b (Some c0) Hdom)
    as (Q & s' & nl & cl & cs & Hrun & HQnew & Hobj & Hsub & _ & Hnl & _ & _ & Hcl).
  { lia. }
  { exists (c0_values n). split; [exact Hc0 | apply length_c0_values]. }
  subst cl. rewrite (bind_ok _ _ _ _ _ Hrun).
  exists c0, Q, s', nl. split; [reflexivity|].
  split; [apply fresh_array_None|].
  split; [exact HQnew|].
  split; [etransitivity; [apply alloc_array_subseteq | exact Hsub]|].
  split; [rewrite Hobj; apply lookup_insert_eq|].
  split; [eapply lookup_weaken; eassumption | exact Hnl].
Qed.

Lemma get_nodes_ok (s : Store F) (Q : loc) (o : Basis.t F) (v : list F) :
  objects s !! Q = Some o ->
  arrays s !! Basis.nodes o = Some v ->
  get_nodes Q s = Ok (Ar v, s).
Proof.
  intros HQ Hv. unfold get_nodes, mbind, M_bind, read_object, read_array.
  now rewrite HQ, Hv.
Qed.

(** X5. Lines 21 to 39 on the modelled constructor and solver, for every
    degree [n >= 1], every domain the constructor accepts, every [eta]
    other than zero and every seed with [n] rows: lines 21 to 27 succeed,
    and since the node array has as many entries as [c0], the solve ends
    in no length or attribute error.  Either the solver reports a
    computation failure, or all the lines run: [Q.c] is then the vector the
    solver returned, of length [n], and the nodes are those of the
    constructor. *)
Theorem solve_script_runs (norm : list F -> F) (numerically_zero : F -> bool)
    (s : Store F) (n : nat) (a b alpha eta : F) (B : list (list F)) (tol : F)
    (max_iterations : nat) :
  0 < n ->
  ((b <? a) || (b =? a))%num = false ->
  (eta =? #0)%num = false ->
  length B = n ->
  exists (c0 Q : loc) (s1 : Store F),
    setup n a b s = Ok ((c0, Q), s1) /\
    (solve_script norm numerically_zero n a b alpha eta B tol max_iterations s
       = Err ComputationFailure \/
     exists (out : outcome) (s' : Store F) (xs : list F),
       solve_script norm numerically_zero n a b alpha eta B tol max_iterations s
         = Ok ((c0, Q, out), s') /\
       node_values Q s' = Some (chebnodes n a b) /\
       coefficient_ref Q s' = Some (solution out) /\
       coefficients Q s' = Some xs /\
       length xs = n).
Proof.
  intros Hn Hdom Heta HB.
  destruct (setup_ok s n a b Hn Hdom)
    as (c0 & Q & s1 & nl & Hsetup & _ & _ & _ & HQ & Hc0 & Hnl).
  set (o := Basis.mk n a b nl c0) in *.
  set (p := Ar (chebnodes n a b)).
  assert (length (entries p) = Basis.n o) as Hp by apply length_chebnodes.
  assert (length (c0_values n) = Basis.n o) as Hlen by apply length_c0_values.
  exists c0, Q, s1. split; [exact Hsetup|].
  unfold solve_script. rewrite (bind_ok _ _ _ _ _ Hsetup). cbn [fst snd].
  destruct (solve_cournot_outcome norm numerically_zero Q p alpha eta Heta tol
              max_iterations s1 c0 o (c0_values n) B HQ Hc0 Hlen HB Hp)
    as (k & itk & sk & _ & _ & Hfit & Hfr & Href & [(_ & Hfail)|(out & Hsolve & Hsol)]).
  - left. apply bind_err. unfold solve_cournot.
    rewrite (bind_ok _ _ _ _ _ (get_nodes_ok s1 Q o _ HQ Hnl)). fold p.
    now apply bind_err.
  - right.
    destruct (fits_coefficients Q p _ sk itk Hfit Href) as (xk & Hcoef & Hxk & Hlenk).
    assert (set_c Q (solution out) sk = Ok (tt, sk)) as Hset.
    { destruct Hfit as [[ok [Hok Hnk]] _]. rewrite Hsol.
      apply (set_c_same sk Q (it_x itk) ok xk Hok); [|exact Hxk|congruence].
      unfold coefficient_ref in Href. rewrite Hok in Href. simpl in Href. congruence. }
    exists out, sk, xk.
    split.
    { assert (solve_cournot norm numerically_zero c0 Q alpha eta B tol
                max_iterations s1 = Ok (out, sk)) as Hsc.
      { unfold solve_cournot.
        rewrite (bind_ok _ _ _ _ _ (get_nodes_ok s1 Q o _ HQ Hnl)). fold p.
        rewrite (bind_ok _ _ _ _ _ Hsolve).
        now rewrite (bind_ok _ _ _ _ _ Hset). }
      now rewrite (bind_ok _ _ _ _ _ Hsc). }
    split.
    { apply (frame_node_values Q s1 sk _ Hfr).
      unfold node_values. rewrite HQ. exact Hnl. }
    split; [now rewrite Hsol|]. split; [exact Hcoef | exact Hlenk].
Qed.

End ScriptExtras.

(** ** The initial guess *)

Section InitialGuess.
Variable pow : R -> R -> R.
Local Abbreviation RS := (R_Scalar pow).
Local Open Scope R_scope.

Lemma fold_zero_terms (m : nat) (ts : list R) (acc : R) :
  fold_left (fun acc uv => @fadd R RS acc (@fmul R RS (fst uv) (snd uv)))
            (zip (repeat (@fofZ R RS 0) m) ts) acc = acc.
Proof.
  revert ts acc. induction m as [|m IH]; intros ts acc; [reflexivity|].
  destruct ts as [|t ts]; [reflexivity|].
  cbn [repeat zip_with fold_left fst snd]. rewrite IH.
  cbn [fadd fmul fofZ RS R_Scalar]. lra.
Qed.

(** With the coefficients of lines 24 and 25 the approximant is [T_0]. *)
Lemma evaluate1_c0 (n : nat) (a b x : R) :
  (1 <= n)%nat -> @evaluate1 R RS n a b (@c0_values R RS n) x = 1.
Proof.
  intros Hn. destruct n as [|m]; [lia|].
  unfold evaluate1, dot, c0_values, basis.
  cbn [repeat]. cbn [insert list_insert zip_with fold_left fst snd].
  rewrite fold_zero_terms. cbn [fadd fmul fofZ RS R_Scalar]. lra.
Qed.

(** X4. Over the reals, lines 21 to 27 leave an approximant that is the
    constant function [1]: [Q] refers to the array [c0] itself, whose
    entries are [1, 0, ..., 0], and [Q(p)] is [1] at every point [p],
    inside the domain or not. *)
Theorem initial_supply_is_one (s : Store R) (n : nat) (a b : R) :
  (1 <= n)%nat ->
  a < b ->
  exists (c0 Q : loc) (s' : Store R),
    @setup R RS n a b s = Ok ((c0, Q), s') /\
    coefficient_ref Q s' = Some c0 /\
    coefficients Q s' = Some (1 :: repeat 0 (n - 1)) /\
    (forall p : nd R, @call R RS Q p s' = Ok (nd_map (fun _ => 1) p, s')).
Proof.
  intros Hn Hab.
  destruct (@setup_ok R RS s n a b ltac:(lia) (valid_domain pow a b Hab))
    as (c0 & Q & s' & nl & Hsetup & _ & _ & _ & HQ & Hc0 & _).
  exists c0, Q, s'. split; [exact Hsetup|].
  split; [unfold coefficient_ref; now rewrite HQ|].
  split.
  - unfold coefficients. rewrite HQ. simpl. rewrite Hc0. f_equal.
    destruct n as [|m]; [lia|]. unfold c0_values. simpl.
    now rewrite Nat.sub_0_r.
  - intros p. rewrite (call_ok s' Q _ (@c0_values R RS n) p HQ Hc0).
    do 2 f_equal. cbn [Basis.n Basis.a Basis.b].
    destruct p as [x|xs]; simpl.
    + now rewrite evaluate1_c0.
    + f_equal. apply List.map_ext. intros x. now apply evaluate1_c0.
Qed.

End InitialGuess.

(** ** The bisection loop, one firm count at a time *)

Section BisectionExtras.
Context {F : Type} `{Scalar F}.

Lemma broadcast_same_length (h : F -> F -> F) (xs ys : list F) :
  length xs = length ys ->
  broadcast h (Ar xs) (Ar ys) = Ok (Ar (zip_with h xs ys)).
Proof.
  intros Hlen. simpl. destruct (decide _) as [_|Hne]; [reflexivity | contradiction].
Qed.

(** The array arithmetic of line 71 acts on each entry by itself. *)
Lemma vector_pass (ev g : F -> F) (eta dp : F) (ms : list F) :
  zip_with fsub (map g ms)
    (map (fun v => (sign v * dp)%num)
       (zip_with fsub (zip_with fmul (map ev (map g ms)) ms)
          (map (fun x => (x ** (- eta))%num) (map g ms))))
  = map (fun mi => (g mi - sign (ev (g mi) * mi - g mi ** (- eta)) * dp)%num) ms.
Proof.
  induction ms as [|mi ms IH]; [reflexivity|].
  cbn [map zip_with]. now rewrite IH.
Qed.

(** What Python's power returns, when it returns, is [x ** y]. *)
Lemma py_pow_Ok (x y v : F) : py_pow x y = Ok v -> v = (x ** y)%num.
Proof.
  unfold py_pow. destruct (_ && _); [discriminate|].
  destruct (_ && _); [discriminate|].
  destruct (_ && _); [discriminate|]. now intros [= <-].
Qed.

Lemma bisect_body_first (s : Store F) (Q : loc) (o : Basis.t F) (cs ms : list F)
    (eta dp x : F) :
  objects s !! Q = Some o ->
  arrays s !! Basis.c o = Some cs ->
  py_pow x (- eta)%num = Ok (x ** (- eta))%num ->
  let ev := evaluate1 (Basis.n o) (Basis.a o) (Basis.b o) cs in
  bisect_body Q (Ar ms) eta (Sc x, dp) s =
    Ok ((Ar (map (fun mi => (x - sign (ev x * mi - x ** (- eta)) * (dp / #2))%num) ms),
         (dp / #2)%num), s).
Proof.
  intros HQ Hc Hpow ev. unfold bisect_body. cbn [fst snd].
  rewrite (bind_ok _ _ _ _ _ (call_ok s Q o cs (Sc x) HQ Hc)).
  unfold np_mul, np_sub, np_sign, pow_value. rewrite Hpow.
  cbn [nd_map broadcast mbind M_bind result_bind lift mret M_ret].
  now rewrite !List.map_map.
Qed.

Lemma bisect_body_later (s : Store F) (Q : loc) (o : Basis.t F) (cs ms : list F)
    (eta dp : F) (g : F -> F) :
  objects s !! Q = Some o ->
  arrays s !! Basis.c o = Some cs ->
  let ev := evaluate1 (Basis.n o) (Basis.a o) (Basis.b o) cs in
  bisect_body Q (Ar ms) eta (Ar (map g ms), dp) s =
    Ok ((Ar (map (fun mi => (g mi - sign (ev (g mi) * mi - g mi ** (- eta))
                                   * (dp / #2))%num) ms),
         (dp / #2)%num), s).
Proof.
  intros HQ Hc ev. unfold bisect_body. cbn [fst snd].
  rewrite (bind_ok _ _ _ _ _ (call_ok s Q o cs (Ar (map g ms)) HQ Hc)).
  fold ev. unfold np_mul, np_sub, np_sign. cbn [pow_value nd_map lift].
  unfold np_pow.
  rewrite (broadcast_same_length fmul (map ev (map g ms)) ms)
    by now rewrite !List.length_map.
  cbn [mbind result_bind].
  assert (broadcast fpow (Ar (map g ms)) (Sc (- eta)%num)
          = Ok (Ar (map (fun x => (x ** (- eta))%num) (map g ms)))) as -> by reflexivity.
  cbn [mbind result_bind].
  rewrite (broadcast_same_length fsub _ (map (fun x => (x ** (- eta))%num) (map g ms)))
    by (rewrite length_zip_with, !List.length_map; lia).
  cbn [mbind result_bind nd_map].
  match goal with
  | |- context [broadcast fmul (Ar ?l) (Sc ?d)] =>
      assert (broadcast fmul (Ar l) (Sc d) = Ok (Ar (map (fun v => (v * d)%num) l)))
        as -> by reflexivity
  end.
  cbn [mbind result_bind]. rewrite List.map_map.
  rewrite (broadcast_same_length fsub (map g ms))
    by (rewrite !List.length_map, !length_zip_with, !List.length_map; lia).
  now rewrite vector_pass.
Qed.

Lemma bisection_closed_form (s : Store F) (Q : loc) (o : Basis.t F)
    (cs : list F) (a b eta : F) (k : nat) :
  objects s !! Q = Some o ->
  arrays s !! Basis.c o = Some cs ->
  py_pow ((b + a) / #2)%num (- eta)%num = Ok (((b + a) / #2) ** (- eta))%num ->
  let ev := evaluate1 (Basis.n o) (Basis.a o) (Basis.b o) cs in
  bisection (S k) Q a b eta s =
    Ok ((Ar (map (fun mi => price_after (S k) ev eta mi ((b + a) / #2)%num
                              ((b - a) / #2)%num) firm_counts),
         halve (S k) ((b - a) / #2)%num), s).
Proof.
  intros HQ Hc Hpow ev. unfold bisection.
  change (arange 1 26) with (Ar firm_counts).
  induction k as [|k IH].
  - cbn [for_range]. unfold mbind at 1. unfold M_bind at 1. cbn [mret M_ret].
    rewrite (bisect_body_first s Q o cs firm_counts eta _ _ HQ Hc Hpow).
    reflexivity.
  - cbn [for_range] in *. rewrite (bind_ok _ _ _ _ _ IH).
    rewrite (bisect_body_later s Q o cs firm_counts eta _ _ HQ Hc).
    reflexivity.
Qed.

Lemma firm_counts_lookup (j : nat) :
  j < 25 -> firm_counts !! j = Some #(Z.of_nat (S j))%num.
Proof.
  intros Hj. unfold firm_counts.
  change (map (fun i => #(Z.of_nat i)%num) (seq 1 25))
    with ((fun i => #(Z.of_nat i)%num) <$> seq 1 25).
  rewrite list_lookup_fmap, lookup_seq_lt by exact Hj. reflexivity.
Qed.

(** X6. When Python's power [pp ** (-eta)] of the first pass, taken at
    the midpoint with [pp] still a Python float, returns a float (it
    raises at a zero midpoint and on overflow, and leaves the floats at a
    negative midpoint), then from the first pass on the array [pp] of the
    loop of lines 66 to 71 holds 25 independent scalar bisections: its
    entry [j] is the price reached for [m = j + 1] firms alone, whatever
    the other entries are, and [dp] has been halved once per pass.  The
    store is not changed. *)
Theorem bisection_is_per_firm (s : Store F) (Q : loc) (o : Basis.t F)
    (cs : list F) (a b eta v : F) (k j : nat) :
  objects s !! Q = Some o ->
  arrays s !! Basis.c o = Some cs ->
  py_pow ((b + a) / #2)%num (- eta)%num = Ok v ->
  1 <= k ->
  j < 25 ->
  exists pp : list F,
    bisection k Q a b eta s
      = Ok ((Ar pp, halve k ((b - a) / #2)%num), s) /\
    length pp = 25 /\
    pp !! j = Some (price_after k
                      (evaluate1 (Basis.n o) (Basis.a o) (Basis.b o) cs) eta
                      #(Z.of_nat (S j))%num ((b + a) / #2)%num ((b - a) / #2)%num).
Proof.
  intros HQ Hc Hpow Hk Hj. destruct k as [|k]; [lia|].
  rewrite (py_pow_Ok _ _ _ Hpow) in Hpow.
  eexists. split; [apply (bisection_closed_form s Q o cs a b eta k HQ Hc Hpow)|].
  split; [now rewrite List.length_map|].
  match goal with
  | |- map ?f firm_counts !! j = _ => change (map f firm_counts) with (f <$> firm_counts)
  end.
  now rewrite list_lookup_fmap, (firm_counts_lookup j Hj).
Qed.


End BisectionExtras.

(** ** What the bisection loop converges to, over the reals *)

Section BisectionReal.
Variable pow : R -> R -> R.
Local Abbreviation RS := (R_Scalar pow).
Local Open Scope R_scope.

Lemma halve_pow (k : nat) (D : R) : @halve R RS k D = D / 2 ^ k.
Proof.
  induction k as [|k IH]; cbn [halve]; [simpl; lra|].
  rewrite IH. cbn [fdiv fofZ RS R_Scalar]. simpl. field.
  apply pow_nonzero. lra.
Qed.

Lemma halve_range (k : nat) (D : R) : 0 < D -> 0 < D / 2 ^ k <= D.
Proof.
  intros HD. assert (1 <= 2 ^ k) as Hk by (apply pow_R1_Rle; lra).
  split.
  - apply Rdiv_lt_0_compat; lra.
  - apply (Rmult_le_reg_r (2 ^ k)); [lra|].
    unfold Rdiv. rewrite Rmult_assoc, Rinv_l by lra. nra.
Qed.

Lemma sign_positive (v : R) : 0 < v -> @sign R RS v = 1.
Proof.
  intros Hv. unfold sign. cbn [fltb feqb fofZ RS R_Scalar]. unfold Rltb.
  destruct (Rlt_dec 0 v); [reflexivity | contradiction].
Qed.

Lemma sign_negative (v : R) : v < 0 -> @sign R RS v = -1.
Proof.
  intros Hv. unfold sign. cbn [fltb feqb fofZ RS R_Scalar]. unfold Rltb.
  destruct (Rlt_dec 0 v); [lra|].
  destruct (Rlt_dec v 0); [reflexivity | contradiction].
Qed.

Lemma price_after_step (k : nat) (ev : R -> R) (eta m x0 D : R) :
  @price_after R RS (S k) ev eta m x0 D =
    @price_after R RS k ev eta m x0 D
    - @sign R RS (ev (@price_after R RS k ev eta m x0 D) * m
                  - pow (@price_after R RS k ev eta m x0 D) (- eta))
      * (D / 2 ^ k / 2).
Proof.
  cbn [price_after halve]. rewrite halve_pow.
  cbn [fsub fmul fdiv fpow fneg fofZ RS R_Scalar]. reflexivity.
Qed.

(** A price at which the excess supply [Q(p) m - p^(-eta)] changes sign
    from negative to positive stays within [dp] of every iterate. *)
Lemma price_bracket (ev : R -> R) (eta m a b pstar : R) (k : nat) :
  a < b ->
  a <= pstar <= b ->
  (forall x, a < x < b ->
     (x < pstar -> ev x * m - pow x (- eta) < 0) /\
     (pstar < x -> 0 < ev x * m - pow x (- eta))) ->
  let x := @price_after R RS k ev eta m ((b + a) / 2) ((b - a) / 2) in
  let dp := (b - a) / 2 / 2 ^ k in
  (b + a) / 2 - ((b - a) / 2 - dp) <= x <= (b + a) / 2 + ((b - a) / 2 - dp) /\
  - dp <= x - pstar <= dp.
Proof.
  intros Hab Hp Hsign. induction k as [|k IH].
  - cbn [price_after]. simpl. lra.
  - cbv zeta in *. rewrite price_after_step.
    set (x := @price_after R RS k ev eta m ((b + a) / 2) ((b - a) / 2)) in *.
    destruct (halve_range k ((b - a) / 2) ltac:(lra)) as [Hpos Hle].
    set (dp := (b - a) / 2 / 2 ^ k) in *.
    assert ((b - a) / 2 / 2 ^ S k = dp / 2) as ->.
    { unfold dp. simpl. field. apply pow_nonzero. lra. }
    destruct IH as [Hin Hnear].
    assert (a < x < b) as Hx by lra.
    destruct (Hsign x Hx) as [Hlow Hhigh].
    destruct (Rtotal_order x pstar) as [Hlt | [Heq | Hgt]].
    + rewrite (sign_negative _ (Hlow Hlt)). lra.
    + destruct (sign_cases pow (ev x * m - pow x (- eta))) as [-> | [-> | ->]]; lra.
    + rewrite (sign_positive _ (Hhigh Hgt)). lra.
Qed.

(** Without a sign change the price goes down, or up, in every pass. *)
Lemma price_descends (ev : R -> R) (eta m a b : R) (k : nat) :
  a < b ->
  (forall x, a < x < b -> 0 < ev x * m - pow x (- eta)) ->
  @price_after R RS k ev eta m ((b + a) / 2) ((b - a) / 2)
    = a + (b - a) / 2 / 2 ^ k.
Proof.
  intros Hab Hsign. induction k as [|k IH].
  - cbn [price_after]. simpl. lra.
  - rewrite price_after_step, IH.
    destruct (halve_range k ((b - a) / 2) ltac:(lra)) as [Hpos Hle].
    rewrite sign_positive by (apply Hsign; lra).
    simpl. field. apply pow_nonzero. lra.
Qed.

Lemma price_ascends (ev : R -> R) (eta m a b : R) (k : nat) :
  a < b ->
  (forall x, a < x < b -> ev x * m - pow x (- eta) < 0) ->
  @price_after R RS k ev eta m ((b + a) / 2) ((b - a) / 2)
    = b - (b - a) / 2 / 2 ^ k.
Proof.
  intros Hab Hsign. induction k as [|k IH].
  - cbn [price_after]. simpl. lra.
  - rewrite price_after_step, IH.
    destruct (halve_range k ((b - a) / 2) ltac:(lra)) as [Hpos Hle].
    rewrite sign_negative by (apply Hsign; lra).
    simpl. field. apply pow_nonzero. lra.
Qed.

Lemma first_pass_defined (a b eta : R) :
  0 < a + b ->
  @py_pow R RS (@fdiv R RS (@fadd R RS b a) (@fofZ R RS 2)) (@fneg R RS eta)
  = Ok (pow ((b + a) / 2) (- eta)).
Proof.
  intros Hmid. cbn [fdiv fadd fneg fofZ RS R_Scalar].
  apply (py_pow_positive pow). lra.
Qed.

(** The entry of [pp] for [j + 1] firms after [k >= 1] passes. *)
Lemma bisection_entry (s : Store R) (Q : loc) (o : Basis.t R) (cs : list R)
    (a b eta : R) (k j : nat) :
  objects s !! Q = Some o ->
  arrays s !! Basis.c o = Some cs ->
  0 < a + b ->
  (1 <= k)%nat ->
  (j < 25)%nat ->
  exists pp : list R,
    @bisection R RS k Q a b eta s = Ok ((Ar pp, (b - a) / 2 / 2 ^ k), s) /\
    pp !! j = Some (@price_after R RS k
                      (@evaluate1 R RS (Basis.n o) (Basis.a o) (Basis.b o) cs) eta
                      (IZR (Z.of_nat (S j))) ((b + a) / 2) ((b - a) / 2)).
Proof.
  intros HQ Hc Hmid Hk Hj. destruct k as [|k]; [lia|].
  eexists. split.
  - rewrite (@bisection_closed_form R RS s Q o cs a b eta k HQ Hc
               (first_pass_defined a b eta Hmid)).
    rewrite halve_pow. reflexivity.
  - match goal with
    | |- map ?f (@firm_counts R RS) !! j = _ =>
        change (map f (@firm_counts R RS)) with (f <$> @firm_counts R RS)
    end.
    now rewrite list_lookup_fmap, (@firm_counts_lookup R RS j Hj).
Qed.

End BisectionReal.

Section BisectionRealTheorems.
Variable pow : R -> R -> R.
Local Abbreviation RS := (R_Scalar pow).
Local Open Scope R_scope.

(** X7. Over the reals, if for [m = j + 1] firms the excess supply
    [Q(p) m - p^(-eta)] is negative below a price [pstar] of the domain and
    positive above it, then after every pass [k >= 1] the entry [j] of [pp]
    is within [(b - a) / 2 / 2^k] of [pstar]; the price the loop returns
    after its 50 passes is within [(b - a) / 2 / 2^50] of it. *)
Theorem bisection_finds_equilibrium (s : Store R) (Q : loc) (o : Basis.t R)
    (cs : list R) (a b eta pstar : R) (j : nat) :
  objects s !! Q = Some o ->
  arrays s !! Basis.c o = Some cs ->
  a < b ->
  0 < a + b ->
  (j < 25)%nat ->
  a <= pstar <= b ->
  (forall x, a < x < b ->
     (x < pstar ->
      @evaluate1 R RS (Basis.n o) (Basis.a o) (Basis.b o) cs x
        * IZR (Z.of_nat (S j)) - pow x (- eta) < 0) /\
     (pstar < x ->
      0 < @evaluate1 R RS (Basis.n o) (Basis.a o) (Basis.b o) cs x
            * IZR (Z.of_nat (S j)) - pow x (- eta))) ->
  (forall k : nat, (1 <= k)%nat ->
   exists (pp : list R) (x : R),
     @bisection R RS k Q a b eta s = Ok ((Ar pp, (b - a) / 2 / 2 ^ k), s) /\
     pp !! j = Some x /\
     Rabs (x - pstar) <= (b - a) / 2 / 2 ^ k) /\
  exists (pp : list R) (x : R),
    @equilibrium_price R RS Q a b eta s = Ok (Ar pp, s) /\
    pp !! j = Some x /\
    Rabs (x - pstar) <= (b - a) / 2 / 2 ^ 50.
Proof.
  intros HQ Hc Hab Hmid Hj Hp Hsign.
  assert (forall k : nat, (1 <= k)%nat ->
    exists (pp : list R) (x : R),
      @bisection R RS k Q a b eta s = Ok ((Ar pp, (b - a) / 2 / 2 ^ k), s) /\
      pp !! j = Some x /\
      Rabs (x - pstar) <= (b - a) / 2 / 2 ^ k) as Hall.
  { intros k Hk.
    destruct (bisection_entry pow s Q o cs a b eta k j HQ Hc Hmid Hk Hj)
      as (pp & Hrun & Hentry).
    eexists pp, _. split; [exact Hrun|]. split; [exact Hentry|].
    destruct (price_bracket pow _ eta (IZR (Z.of_nat (S j))) a b pstar k Hab Hp Hsign)
      as [_ Hnear].
    apply Rabs_le. exact Hnear. }
  split; [exact Hall|].
  destruct (Hall 50%nat ltac:(lia)) as (pp & x & Hrun & Hentry & Hnear).
  exists pp, x. split; [|split; assumption].
  unfold equilibrium_price. now rewrite (bind_ok _ _ _ _ _ Hrun).
Qed.

(** X8. Over the reals, if for [m = j + 1] firms the excess supply is
    positive at every price strictly inside the domain, the entry [j] of
    [pp] after [k >= 1] passes is exactly [a + (b - a) / 2 / 2^k], the
    lowest price the loop can reach; if it is negative everywhere, the
    entry is [b - (b - a) / 2 / 2^k], the highest. *)
Theorem bisection_without_equilibrium (s : Store R) (Q : loc) (o : Basis.t R)
    (cs : list R) (a b eta : R) (j : nat) :
  objects s !! Q = Some o ->
  arrays s !! Basis.c o = Some cs ->
  a < b ->
  0 < a + b ->
  (j < 25)%nat ->
  ((forall x, a < x < b ->
      0 < @evaluate1 R RS (Basis.n o) (Basis.a o) (Basis.b o) cs x
            * IZR (Z.of_nat (S j)) - pow x (- eta)) ->
   forall k : nat, (1 <= k)%nat ->
   exists pp : list R,
     @bisection R RS k Q a b eta s = Ok ((Ar pp, (b - a) / 2 / 2 ^ k), s) /\
     pp !! j = Some (a + (b - a) / 2 / 2 ^ k)) /\
  ((forall x, a < x < b ->
      @evaluate1 R RS (Basis.n o) (Basis.a o) (Basis.b o) cs x
        * IZR (Z.of_nat (S j)) - pow x (- eta) < 0) ->
   forall k : nat, (1 <= k)%nat ->
   exists pp : list R,
     @bisection R RS k Q a b eta s = Ok ((Ar pp, (b - a) / 2 / 2 ^ k), s) /\
     pp !! j = Some (b - (b - a) / 2 / 2 ^ k)).
Proof.
  intros HQ Hc Hab Hmid Hj. split; intros Hsign k Hk.
  - destruct (bisection_entry pow s Q o cs a b eta k j HQ Hc Hmid Hk Hj)
      as (pp & Hrun & Hentry).
    exists pp. split; [exact Hrun|].
    now rewrite Hentry, (price_descends pow _ eta _ a b k Hab Hsign).
  - destruct (bisection_entry pow s Q o cs a b eta k j HQ Hc Hmid Hk Hj)
      as (pp & Hrun & Hentry).
    exists pp. split; [exact Hrun|].
    now rewrite Hentry, (price_ascends pow _ eta _ a b k Hab Hsign).
Qed.

End BisectionRealTheorems.

(** ** The further properties on the script's own data *)

Lemma plot_data_leaves_store_witness :
  exists splot dplot rplot : list b64,
    @plot_data b64 Demo.scalar Demo.Q (entries Demo.prices) Demo.alpha Demo.eta
      Demo.initial = Ok ((Ar splot, Ar dplot, Ar rplot), Demo.initial) /\
    length rplot = Demo.n.
Proof.
  destruct (@plot_data_leaves_store b64 Demo.scalar Demo.initial Demo.Q _ _
              (entries Demo.prices) Demo.alpha Demo.eta
              (demo_Q_lookup Demo.pow Demo.cos)
              (demo_c0_lookup Demo.pow Demo.cos) demo_c0_length demo_eta_nonzero)
    as (sp & dp & rp & Hrun & _ & _ & _ & _ & _ & Hlen).
  exists sp, dp, rp. split; [exact Hrun|]. rewrite Hlen. reflexivity.
Defined.

Lemma resid_last_call_wins_witness :
  exists (r : nd b64) (s' : Store b64),
    @resid b64 Demo.scalar Demo.c1 Demo.Q Demo.nodes Demo.alpha Demo.eta
      Demo.initial = Ok (r, s') /\
    (@resid b64 Demo.scalar Demo.c0 Demo.Q Demo.nodes Demo.alpha Demo.eta ;;
     @resid b64 Demo.scalar Demo.c1 Demo.Q Demo.nodes Demo.alpha Demo.eta)
      Demo.initial = Ok (r, s') /\
    coefficient_ref Demo.Q s' = Some Demo.c1.
Proof.
  destruct (@resid_last_call_wins b64 Demo.scalar Demo.initial Demo.c0 Demo.c1
              Demo.Q _ _ _ Demo.nodes Demo.nodes Demo.alpha Demo.eta Demo.alpha Demo.eta
              (demo_Q_lookup Demo.pow Demo.cos)
              (demo_c0_lookup Demo.pow Demo.cos)
              (demo_c1_lookup Demo.pow Demo.cos) demo_c0_length demo_eta_nonzero
              eq_refl demo_eta_nonzero)
    as (r & s' & Hsecond & Hboth & Href & _).
  exists r, s'. repeat split; assumption.
Defined.

Lemma resid_outcome_witness :
  exists (r : nd b64) (s' : Store b64),
    @resid b64 Demo.scalar Demo.c1 Demo.Q Demo.nodes Demo.alpha Demo.eta
      Demo.initial = Ok (r, s').
Proof.
  rewrite (@resid_outcome b64 Demo.scalar Demo.initial Demo.c1 Demo.Q _ _
             Demo.nodes Demo.alpha Demo.eta
             (demo_Q_lookup Demo.pow Demo.cos)
             (demo_c1_lookup Demo.pow Demo.cos)).
  destruct (decide _) as [_|Hne]; [|exfalso; apply Hne; reflexivity].
  assert (@feqb b64 Demo.scalar Demo.eta (@fofZ b64 Demo.scalar 0) = false) as ->
    by reflexivity.
  eauto.
Defined.

Lemma initial_supply_is_one_witness :
  exists (c0 Q : loc) (s' : Store R),
    @setup R RealDemo.scalar Demo.n RealDemo.a RealDemo.b (mkStore ∅ ∅)
      = Ok ((c0, Q), s') /\
    forall p : nd R,
      @call R RealDemo.scalar Q p s' = Ok (nd_map (fun _ => 1%R) p, s').
Proof.
  assert (1 <= Demo.n) as Hn by (unfold Demo.n; lia).
  destruct (initial_supply_is_one Rpower (mkStore ∅ ∅) Demo.n RealDemo.a
              RealDemo.b Hn real_demo_domain)
    as (c0 & Q & s' & Hsetup & _ & _ & Hcall).
  exists c0, Q, s'. split; assumption.
Defined.

Lemma demo_domain_ok :
  (@fltb b64 Demo.scalar Demo.b Demo.a || @feqb b64 Demo.scalar Demo.b Demo.a)
  = false.
Proof. reflexivity. Qed.

Lemma solve_script_runs_witness :
  exists (c0 Q : loc) (s1 : Store b64),
    @setup b64 Demo.scalar Demo.n Demo.a Demo.b (mkStore ∅ ∅) = Ok ((c0, Q), s1) /\
    (@solve_script b64 Demo.scalar (@norm_inf b64 Demo.scalar)
       Demo.numerically_zero Demo.n Demo.a Demo.b Demo.alpha Demo.eta
       (@identity b64 Demo.scalar Demo.n) Demo.tol 50 (mkStore ∅ ∅)
       = Err ComputationFailure \/
     exists (out : outcome) (s' : Store b64),
       @solve_script b64 Demo.scalar (@norm_inf b64 Demo.scalar)
         Demo.numerically_zero Demo.n Demo.a Demo.b Demo.alpha Demo.eta
         (@identity b64 Demo.scalar Demo.n) Demo.tol 50 (mkStore ∅ ∅)
         = Ok ((c0, Q, out), s') /\
       coefficient_ref Q s' = Some (solution out)).
Proof.
  assert (0 < Demo.n) as Hn by (unfold Demo.n; lia).
  destruct (@solve_script_runs b64 Demo.scalar (@norm_inf b64 Demo.scalar)
              Demo.numerically_zero (mkStore ∅ ∅) Demo.n Demo.a Demo.b
              Demo.alpha Demo.eta (@identity b64 Demo.scalar Demo.n) Demo.tol 50
              Hn demo_domain_ok demo_eta_nonzero demo_identity_length)
    as (c0 & Q & s1 & Hsetup & [Hfail|(out & s' & xs & Hrun & _ & Href & _)]).
  - exists c0, Q, s1. split; [exact Hsetup | now left].
  - exists c0, Q, s1. split; [exact Hsetup|]. right. exists out, s'. split; assumption.
Defined.

Lemma demo_first_pass_defined :
  @py_pow b64 Demo.scalar
    (@fdiv b64 Demo.scalar (@fadd b64 Demo.scalar Demo.b Demo.a)
       (@fofZ b64 Demo.scalar 2))
    (@fneg b64 Demo.scalar Demo.eta)
  = Ok (S754_finite false 8249634742471189 (-54)).
Proof. vm_compute. reflexivity. Qed.

Lemma bisection_is_per_firm_witness :
  exists pp : list b64,
    @bisection b64 Demo.scalar 50 Demo.Q Demo.a Demo.b Demo.eta Demo.initial
      = Ok ((Ar pp,
             @halve b64 Demo.scalar 50
               (@fdiv b64 Demo.scalar (@fsub b64 Demo.scalar Demo.b Demo.a)
                  (@fofZ b64 Demo.scalar 2))), Demo.initial) /\
    length pp = 25.
Proof.
  assert (1 <= 50) as Hk by lia. assert (0 < 25) as Hj by lia.
  destruct (@bisection_is_per_firm b64 Demo.scalar Demo.initial Demo.Q _ _
              Demo.a Demo.b Demo.eta _ 50 0
              (demo_Q_lookup Demo.pow Demo.cos)
              (demo_c0_lookup Demo.pow Demo.cos)
              demo_first_pass_defined Hk Hj)
    as (pp & Hrun & Hlen & _).
  exists pp. split; assumption.
Defined.



Lemma Rpower_minus_one (x : R) : (0 < x)%R -> Rpower x (Ropp 1) = (/ x)%R.
Proof. intros Hx. now rewrite Rpower_Ropp, Rpower_1. Qed.

(** With the initial guess and [eta = 1] the excess supply for [m] firms
    is [m - 1 / p]. *)
Lemma real_demo_excess (m x : R) :
  (RealDemo.a < x < RealDemo.b)%R ->
  (@evaluate1 R (R_Scalar Rpower) Demo.n RealDemo.a RealDemo.b
     (@c0_values R RealDemo.scalar Demo.n) x * m - Rpower x (Ropp 1)
   = m - / x)%R.
Proof.
  unfold RealDemo.a, RealDemo.b. intros Hx.
  rewrite (evaluate1_c0 Rpower) by (unfold Demo.n; lia).
  rewrite Rpower_minus_one by lra. lra.
Qed.

Lemma bisection_finds_equilibrium_witness :
  exists (pp : list R) (x : R),
    @equilibrium_price R RealDemo.scalar Demo.Q RealDemo.a RealDemo.b 1%R
      RealDemo.after = Ok (Ar pp, RealDemo.after) /\
    pp !! 0%nat = Some x /\
    (Rabs (x - 1) <= (RealDemo.b - RealDemo.a) / 2 / 2 ^ 50)%R.
Proof.
  assert (0 < 25) as Hj by lia.
  assert (RealDemo.a <= 1 <= RealDemo.b)%R as Hp
    by (unfold RealDemo.a, RealDemo.b; lra).
  refine (proj2 (bisection_finds_equilibrium Rpower RealDemo.after Demo.Q _ _
            RealDemo.a RealDemo.b 1%R 1%R 0%nat
            real_demo_Q_lookup (real_demo_c0_lookup RealDemo.after eq_refl)
            real_demo_domain real_demo_midpoint Hj Hp _)).
  intros x Hx. cbn [Basis.n Basis.a Basis.b].
  rewrite (real_demo_excess _ x Hx).
  unfold RealDemo.a, RealDemo.b in Hx.
  change (IZR (Z.of_nat 1)) with 1%R.
  assert (x * / x = 1)%R as Hinv by (field; lra).
  assert (0 < / x)%R as Hpos by (apply Rinv_0_lt_compat; lra).
  split; intros Hcmp; nra.
Defined.

Lemma bisection_without_equilibrium_witness :
  exists pp : list R,
    @bisection R RealDemo.scalar 50 Demo.Q RealDemo.a RealDemo.b 1%R RealDemo.after
      = Ok ((Ar pp, (RealDemo.b - RealDemo.a) / 2 / 2 ^ 50)%R, RealDemo.after) /\
    pp !! 24%nat = Some (RealDemo.a + (RealDemo.b - RealDemo.a) / 2 / 2 ^ 50)%R.
Proof.
  assert (24 < 25) as Hj by lia. assert (1 <= 50) as Hk by lia.
  refine (proj1 (bisection_without_equilibrium Rpower RealDemo.after Demo.Q _ _
            RealDemo.a RealDemo.b 1%R 24%nat
            real_demo_Q_lookup (real_demo_c0_lookup RealDemo.after eq_refl)
            real_demo_domain real_demo_midpoint Hj) _ 50%nat Hk).
  intros x Hx. cbn [Basis.n Basis.a Basis.b].
  rewrite (real_demo_excess _ x Hx).
  unfold RealDemo.a, RealDemo.b in Hx.
  change (IZR (Z.of_nat 25)) with 25%R.
  assert (x * / x = 1)%R as Hinv by (field; lra).
  assert (0 < / x)%R as Hpos by (apply Rinv_0_lt_compat; lra).
  nra.
Defined.
